(** * MultiTask_NLU: the multi-task IC / H-NER model and its metric evaluator

    A shallow embedding of [src/model.py] (the projection layer, the IC->NER
    cross-attention cascade, the NER->IC pooling head and the model that
    composes them) and of [components/MultiTask/src/metrics.py] (the
    evaluator), followed by the properties of the specification that were
    checked against them.

    Conventions.
    - Python exceptions are the [Err] branch of [result].
    - A Python [dict] is an association list in insertion order whose keys
      are pairwise distinct ([dict_set] keeps that invariant).
    - Dictionaries that the code mutates or shares live in a [heap] and are
      named by their location, so that aliasing is visible.
    - Tensor arithmetic is an interface ([Torch]); an instance over exact
      rationals ([QTorch]) is used where a claim is about the arithmetic. *)

From Stdlib Require Import Strings.String Strings.Ascii.
From Stdlib Require Import List ZArith Lia Bool Arith PeanoNat.
From Stdlib Require Import Sorting.Permutation Sorting.Sorted.
From Stdlib Require Import QArith Qcanon.
From Stdlib Require Import Structures.OrdersEx.
Import ListNotations.

Set Implicit Arguments.
Local Close Scope Qc_scope.
Local Close Scope Q_scope.
Local Open Scope string_scope.
Local Open Scope list_scope.
Local Open Scope nat_scope.

(* ================================================================== *)
(** * Python runtime                                                    *)
(* ================================================================== *)

Module Py.

(** The exceptions the modelled code can raise. *)
Inductive exn : Type :=
| KeyError
| IndexError
| TypeError
| ValueError
| RuntimeError.

Inductive result (A : Type) : Type :=
| Ok (a : A)
| Err (e : exn).
Arguments Ok {A} a.
Arguments Err {A} e.

Definition rbind {A B} (r : result A) (k : A -> result B) : result B :=
match r with
| Ok a => k a
| Err e => Err e
end.

Fixpoint rmapM {A B} (f : A -> result B) (l : list A) : result (list B) :=
match l with
| [] => Ok []
| x :: xs =>
    rbind (f x) (fun y => rbind (rmapM f xs) (fun ys => Ok (y :: ys)))
end.

(** Keys of a dictionary: a type with a boolean equality. *)
Class PyKey (K : Type) : Type := {
keyb : K -> K -> bool;
keyb_spec : forall x y, reflect (x = y) (keyb x y)
}.

#[export] Instance string_key : PyKey string :=
{| keyb := String.eqb; keyb_spec := String.eqb_spec |}.

#[export] Instance Z_key : PyKey Z :=
{| keyb := Z.eqb; keyb_spec := Z.eqb_spec |}.

(** [dict]: insertion-ordered association list. *)
Definition dict (K V : Type) : Type := list (K * V).

Section Dict.
Context {K V : Type} `{PyKey K}.

(** [d.get(k)] *)
Fixpoint dict_get (d : dict K V) (k : K) : option V :=
match d with
| [] => None
| (k', v) :: d' => if keyb k' k then Some v else dict_get d' k
end.

(** [d[k]] *)
Definition dict_getitem (d : dict K V) (k : K) : result V :=
match dict_get d k with
| Some v => Ok v
| None => Err KeyError
end.

(** [d[k] = v]: an existing key keeps its position, a new key goes last. *)
Fixpoint dict_set (d : dict K V) (k : K) (v : V) : dict K V :=
match d with
| [] => [(k, v)]
| (k', v') :: d' =>
    if keyb k' k then (k', v) :: d' else (k', v') :: dict_set d' k v
end.

(** [list(d.keys())] *)
Definition dict_keys (d : dict K V) : list K := map fst d.

(** [{k: v for (k, v) in kvs}] *)
Definition dict_of_list (kvs : list (K * V)) : dict K V :=
fold_left (fun d kv => dict_set d (fst kv) (snd kv)) kvs [].

(** The invariant of a Python dictionary. *)
Definition dict_wf (d : dict K V) : Prop := NoDup (dict_keys d).
End Dict.

(** [{v: k for k, v in d.items()}] *)
Definition dict_invert {K V} `{PyKey V} (d : dict K V) : dict V K :=
dict_of_list (map (fun kv => (snd kv, fst kv)) d).

(** [l[-1]] *)
Definition list_last {A} (l : list A) : result A :=
match rev l with
| [] => Err IndexError
| x :: _ => Ok x
end.

(** [l[i]] for a non-negative index. *)
Definition list_getitem {A} (l : list A) (i : nat) : result A :=
match nth_error l i with
| Some x => Ok x
| None => Err IndexError
end.

End Py.
Import Py.

(* ================================================================== *)
(** * External libraries, as interfaces                                 *)
(* ================================================================== *)

(** The part of [torch] that [model.py] calls.  [T3] are the rank-3
    tensors (batch x positions x channels), [T2] the rank-2 ones. *)
Class Torch : Type := {
  T2 : Type;
  T3 : Type;
  (** [torch.transpose(x, 1, 2)] *)
  transpose_1_2 : T3 -> T3;
  (** [torch.matmul(a, b)] on two rank-3 tensors *)
  matmul : T3 -> T3 -> T3;
  (** [torch.mean(x, dim=-1, keepdim=True)] *)
  mean_last_keepdim : T3 -> T3;
  (** [torch.mean(x, dim=1, keepdim=True)] *)
  mean_dim1_keepdim : T3 -> T3;
  (** [torch.mean(x, dim=1, keepdim=False)] *)
  mean_dim1 : T3 -> T2;
  (** [torch.nn.Linear] and its application to a rank-3 or rank-2 input *)
  Linear : Type;
  linear_forward3 : Linear -> T3 -> T3;
  linear_forward2 : Linear -> T2 -> T2
}.

(** [torch.nn.MultiheadAttention(..., batch_first=True)]: a call returns
    the attention output and the attention weights. *)
Class TorchAttention `{Torch} : Type := {
  MultiheadAttention : Type;
  mha_forward : MultiheadAttention -> T3 -> T3 -> T3 -> T3 * T3
}.

(** The part of [transformers] that the model's constructor calls. *)
Class Transformers `{Torch} : Type := {
  Float : Type;
  Ids : Type;
  Config : Type;
  Backbone : Type;
  AutoConfig_from_pretrained : string -> result Config;
  config_update : Config -> bool -> Float -> Float -> bool -> Config;
  max_position_embeddings : Config -> nat;
  hidden_size : Config -> nat;
  AutoModel_from_config : Config -> Backbone;
  (** [self.transformer(tokens, attn_mask).last_hidden_state] *)
  last_hidden_state : Backbone -> Ids -> Ids -> T3
}.

(* ================================================================== *)
(** * [src/model.py]                                                    *)
(* ================================================================== *)

Section Model.
Context `{TA : TorchAttention} `{TR : @Transformers H}.

(** ** Objects and the heap *)

Definition loc := nat.

Inductive value : Type :=
| VTensor (t : T3)
| VLogits (t : T2)
| VDict (l : loc).

Definition obj := dict string value.
Definition heap := list obj.

(** Computations that read and write the heap and may raise. *)
Definition M (A : Type) : Type := heap -> result (A * heap).

Definition ret {A} (a : A) : M A := fun h => Ok (a, h).

Definition bind {A B} (m : M A) (k : A -> M B) : M B :=
  fun h => match m h with
           | Ok (a, h') => k a h'
           | Err e => Err e
           end.

Definition lift {A} (r : result A) : M A :=
  fun h => match r with
           | Ok a => Ok (a, h)
           | Err e => Err e
           end.

Definition alloc (o : obj) : M loc :=
  fun h => Ok (length h, h ++ [o]).

Definition load (l : loc) : M obj :=
  fun h => match nth_error h l with
           | Some o => Ok (o, h)
           | None => Err TypeError
           end.

Fixpoint heap_update (h : heap) (l : loc) (o : obj) : heap :=
  match h, l with
  | [], _ => []
  | _ :: h', O => o :: h'
  | o' :: h', S l' => o' :: heap_update h' l' o
  end.

Definition store (l : loc) (o : obj) : M unit :=
  fun h => match nth_error h l with
           | Some _ => Ok (tt, heap_update h l o)
           | None => Err TypeError
           end.

(** [d[k]] and [d[k] = v] on the dictionary at location [l]. *)
Definition hgetitem (l : loc) (k : string) : M value :=
  bind (load l) (fun o => lift (dict_getitem o k)).

Definition hsetitem (l : loc) (k : string) (v : value) : M unit :=
  bind (load l) (fun o => store l (dict_set o k v)).

Definition as_tensor (v : value) : M T3 :=
  match v with
  | VTensor t => ret t
  | _ => lift (Err TypeError)
  end.

Definition as_dict (v : value) : M loc :=
  match v with
  | VDict l => ret l
  | _ => lift (Err TypeError)
  end.

(** [d[k1][k2]], a tensor. *)
Definition hgetitem2 (l : loc) (k1 k2 : string) : M T3 :=
  bind (hgetitem l k1) (fun v =>
  bind (as_dict v) (fun l' =>
  bind (hgetitem l' k2) as_tensor)).

Fixpoint mapM {A B} (f : A -> M B) (l : list A) : M (list B) :=
  match l with
  | [] => ret []
  | x :: xs =>
      bind (f x) (fun y => bind (mapM f xs) (fun ys => ret (y :: ys)))
  end.

(** [for x in l: body(x)] *)
Fixpoint forM_ {A} (l : list A) (body : A -> M unit) : M unit :=
  match l with
  | [] => ret tt
  | x :: xs => bind (body x) (fun _ => forM_ xs body)
  end.

(** [{column: body(column) for column in columns}], allocated. *)
Definition dict_comprehension (columns : list string)
    (body : string -> M value) : M loc :=
  bind (mapM (fun c => bind (body c) (fun v => ret (c, v))) columns)
       (fun kvs => alloc (dict_of_list kvs)).

(** [enumerate(l)] *)
Definition enumerate {A} (l : list A) : list (nat * A) :=
  combine (seq 0 (length l)) l.

(** ** Freshly initialised modules

    Every [torch.nn.Linear(...)] and [torch.nn.MultiheadAttention(...)]
    call of a constructor draws new parameters.  [Init] gives the module
    drawn at each creation site; the first argument of the indexed sites
    is the position of the creation in its comprehension.

    The creations themselves are taken to return: the checks that
    [torch] makes on their arguments ([MultiheadAttention] wants
    [proj_dim] to be a positive multiple of [num_heads]) and the failures
    of [AutoModel.from_config] are not part of the model.  So a
    constructor below returns [Ok] in cases in which the code raises in
    one of these calls; what is proved of a constructed module takes its
    construction as a hypothesis, and what is proved of a failing
    constructor concerns the lookups that come before these calls. *)
Record Init : Type := {
  init_format_IC : nat -> nat -> Linear;
  init_format_H_NER : nat -> nat -> nat -> Linear;
  init_ic2ner_linear : nat -> nat -> nat -> Linear;
  init_ic2ner_attn : nat -> nat -> nat -> MultiheadAttention;
  init_ner2ic_linear : nat -> nat -> Linear
}.

(** The label-count dictionary [num_labels]. *)
Record NumLabels : Type := {
  nl_IC : nat;
  nl_H_NER : dict string nat
}.

(** ** [LinearProjFormat] *)

Record LinearProjFormat : Type := {
  lpf_linear_IC : Linear;
  lpf_linear_H_NER : dict string Linear;
  lpf_tags : list string
}.

Definition LinearProjFormat_init (ini : Init) (tags : list string)
    (hidden proj_dim : nat) : LinearProjFormat :=
  {| lpf_linear_IC := init_format_IC ini hidden proj_dim;
     lpf_linear_H_NER :=
       dict_of_list
         (map (fun ic => (snd ic, init_format_H_NER ini (fst ic) hidden proj_dim))
              (enumerate tags));
     lpf_tags := tags |}.

Definition LinearProjFormat_forward (self : LinearProjFormat)
    (backbone_tensor : T3) : M loc :=
  let ic := linear_forward3 (lpf_linear_IC self) backbone_tensor in
  bind (dict_comprehension (lpf_tags self) (fun column =>
          bind (lift (dict_getitem (lpf_linear_H_NER self) column)) (fun lin =>
          ret (VTensor (linear_forward3 lin backbone_tensor)))))
       (fun l_ner => alloc [("IC", VTensor ic); ("H_NER", VDict l_ner)]).

(** The per-level projections of [x] that the layer computes, in
    hierarchy order, and the dictionary that holds them. *)
Definition projections (ini : Init) (tags : list string)
    (hidden proj_dim : nat) (x : T3) : list T3 :=
  map (fun it => linear_forward3
                   (init_format_H_NER ini (fst it) hidden proj_dim) x)
      (enumerate tags).

Definition ner_projections (ini : Init) (tags : list string)
    (hidden proj_dim : nat) (x : T3) : obj :=
  combine tags (map VTensor (projections ini tags hidden proj_dim x)).

(** ** [IC2NER] *)

Record IC2NER : Type := {
  i2n_tags : list string;
  i2n_linear : dict string Linear;
  i2n_attn : dict string MultiheadAttention
}.

Definition IC2NER_init (ini : Init) (tags : list string)
    (num_labels : NumLabels) (pos_embeddings proj_dim num_heads : nat)
    : result IC2NER :=
  rbind (rmapM (fun ic =>
                  rbind (dict_getitem (nl_H_NER num_labels) (snd ic)) (fun n =>
                  Ok (snd ic, init_ic2ner_linear ini (fst ic) pos_embeddings n)))
               (enumerate tags))
        (fun lin =>
  Ok {| i2n_tags := tags;
        i2n_linear := dict_of_list lin;
        i2n_attn :=
          dict_of_list
            (map (fun ic => (snd ic, init_ic2ner_attn ini (fst ic) proj_dim num_heads))
                 (enumerate (removelast tags))) |}).

(** One turn of the loop [for i in range(len(self.tags)-1)]. *)
Definition IC2NER_attn_step (self : IC2NER) (input : loc) (i : nat) : M unit :=
  bind (lift (list_getitem (i2n_tags self) i)) (fun tag_i =>
  bind (lift (dict_getitem (i2n_attn self) tag_i)) (fun attn =>
  bind (hgetitem2 input "H_NER" tag_i) (fun query =>
  bind (lift (list_getitem (i2n_tags self) (i + 1))) (fun tag_next =>
  bind (hgetitem2 input "H_NER" tag_next) (fun key =>
  bind (hgetitem2 input "H_NER" tag_next) (fun val =>
  let out := fst (mha_forward attn query key val) in
  bind (hgetitem input "H_NER") (fun v =>
  bind (as_dict v) (fun l_ner =>
  hsetitem l_ner tag_next (VTensor out))))))))).

Definition IC2NER_forward (self : IC2NER) (formatted_tensor : loc)
    : M (loc * T3) :=
  (* input = formatted_tensor.copy() *)
  bind (load formatted_tensor) (fun o =>
  bind (alloc o) (fun input =>
  (* input['IC'] = {column: self.linear[column](transpose(input['IC'])) ...} *)
  bind (dict_comprehension (i2n_tags self) (fun column =>
          bind (lift (dict_getitem (i2n_linear self) column)) (fun lin =>
          bind (hgetitem input "IC") (fun v =>
          bind (as_tensor v) (fun ic =>
          ret (VTensor (linear_forward3 lin (transpose_1_2 ic)))))))) (fun l_ic =>
  bind (hsetitem input "IC" (VDict l_ic)) (fun _ =>
  (* H_NER tensors *)
  bind (forM_ (seq 0 (length (i2n_tags self) - 1))
              (IC2NER_attn_step self input)) (fun _ =>
  (* Mix *)
  bind (dict_comprehension (i2n_tags self) (fun column =>
          bind (hgetitem2 input "H_NER" column) (fun ner =>
          bind (hgetitem2 input "IC" column) (fun ic =>
          ret (VTensor (matmul ner ic)))))) (fun ner_output =>
  (* input['H_NER'][self.tags[-1]]: the dictionary is read first, then
     the index is computed, then the entry is looked up *)
  bind (hgetitem input "H_NER") (fun v =>
  bind (lift (list_last (i2n_tags self))) (fun tag_last =>
  bind (as_dict v) (fun l_ner =>
  bind (hgetitem l_ner tag_last) (fun t =>
  bind (as_tensor t) (fun last_ner =>
  ret (ner_output, last_ner)))))))))))).

(** The attention stage as the specification words it: a strict
    left-to-right fold.  Level 0 is kept; level [i+1] becomes the output
    of the attention module of level [i], queried with the (already
    updated) level [i], with the level [i+1] projection as key and
    value. *)
Fixpoint cascade_spec (attn : nat -> MultiheadAttention) (i : nat)
    (prev : T3) (rest : list T3) : list T3 :=
  match rest with
  | [] => []
  | x :: rest' =>
      let y := fst (mha_forward (attn i) prev x x) in
      y :: cascade_spec attn (S i) y rest'
  end.

Definition hierarchical_attention_spec (attn : nat -> MultiheadAttention)
    (projections : list T3) : list T3 :=
  match projections with
  | [] => []
  | x :: rest => x :: cascade_spec attn 0 x rest
  end.

(** ** [NER2IC] *)

Record NER2IC : Type := {
  n2i_linear : Linear
}.

Definition NER2IC_init (ini : Init) (num_labels : NumLabels)
    (proj_dim : nat) : NER2IC :=
  {| n2i_linear := init_ner2ic_linear ini proj_dim (nl_IC num_labels) |}.

Definition NER2IC_forward (self : NER2IC) (ic_tensor last_ner_tensor : T3)
    : T2 :=
  let ic_tensor := mean_last_keepdim ic_tensor in
  let last_ner_tensor := mean_dim1_keepdim last_ner_tensor in
  let output := matmul ic_tensor last_ner_tensor in
  let output := mean_dim1 output in
  let output := linear_forward2 (n2i_linear self) output in
  output.

(** ** [MT_IC_HNER_Model] *)

Record MT_IC_HNER_Model : Type := {
  m_num_heads : nat;
  m_num_labels : NumLabels;
  m_proj_dim : nat;
  m_tags : list string;
  m_pos_embeddings : nat;
  m_hidden_size : nat;
  m_transformer : Backbone;
  m_format_layer : LinearProjFormat;
  m_ic2ner : IC2NER;
  m_ner2ic : NER2IC
}.

Definition MT_IC_HNER_Model_init (ini : Init) (model_name : string)
    (num_labels : NumLabels) (proj_dim num_heads : nat)
    (hidden_dropout_prob layer_norm_eps : Float)
    : result MT_IC_HNER_Model :=
  let tags := dict_keys (nl_H_NER num_labels) in
  rbind (AutoConfig_from_pretrained model_name) (fun config =>
  let config := config_update config true hidden_dropout_prob layer_norm_eps false in
  let pos_embeddings := max_position_embeddings config in
  let hidden := hidden_size config in
  let transformer := AutoModel_from_config config in
  let format_layer := LinearProjFormat_init ini tags hidden proj_dim in
  rbind (IC2NER_init ini tags num_labels pos_embeddings proj_dim num_heads) (fun ic2ner =>
  let ner2ic := NER2IC_init ini num_labels proj_dim in
  Ok {| m_num_heads := num_heads;
        m_num_labels := num_labels;
        m_proj_dim := proj_dim;
        m_tags := tags;
        m_pos_embeddings := pos_embeddings;
        m_hidden_size := hidden;
        m_transformer := transformer;
        m_format_layer := format_layer;
        m_ic2ner := ic2ner;
        m_ner2ic := ner2ic |})).

Record ModelInput : Type := {
  in_tokens : Ids;
  in_attn_mask : Ids
}.

(** The returned dictionary [{'IC': ic_output, 'H_NER': ner_output}]. *)
Definition MT_IC_HNER_Model_forward (self : MT_IC_HNER_Model)
    (input : ModelInput) : M loc :=
  let sequence_output :=
    last_hidden_state (m_transformer self) (in_tokens input) (in_attn_mask input) in
  bind (LinearProjFormat_forward (m_format_layer self) sequence_output) (fun formatted_dict =>
  bind (IC2NER_forward (m_ic2ner self) formatted_dict) (fun r =>
  let ner_output := fst r in
  let last_ner := snd r in
  bind (hgetitem formatted_dict "IC") (fun v =>
  bind (as_tensor v) (fun ic =>
  let ic_output := NER2IC_forward (m_ner2ic self) ic last_ner in
  alloc [("IC", VLogits ic_output); ("H_NER", VDict ner_output)])))).

End Model.

(* ================================================================== *)
(** * Tensors over exact rationals                                      *)
(* ================================================================== *)

(** An instance of [Torch] on nested lists of rationals: a rank-2 tensor is
    the list of its rows, a rank-3 tensor the list of its matrices.  The
    arithmetic is exact; rounding is not modelled. *)
Module QT.
Local Open Scope Qc_scope.

Definition of_nat (n : nat) : Qc := Q2Qc (inject_Z (Z.of_nat n)).

Definition sum (l : list Qc) : Qc := fold_right Qcplus 0 l.

(** Arithmetic mean of a vector. *)
Definition avg (l : list Qc) : Qc := sum l / of_nat (length l).

Definition dot (u v : list Qc) : Qc :=
  sum (map (fun xy => fst xy * snd xy) (combine u v)).

Definition ncols (m : list (list Qc)) : nat := length (hd [] m).

Definition column (m : list (list Qc)) (j : nat) : list Qc :=
  map (fun r => nth j r 0) m.

Definition columns (m : list (list Qc)) : list (list Qc) :=
  map (column m) (seq 0 (ncols m)).

(** Product of two matrices. *)
Definition matmul2 (a b : list (list Qc)) : list (list Qc) :=
  map (fun r => map (dot r) (columns b)) a.

(** Batched product of two rank-3 tensors with the same batch size. *)
Definition matmul3 (a b : list (list (list Qc))) : list (list (list Qc)) :=
  map (fun ab => matmul2 (fst ab) (snd ab)) (combine a b).

Definition transpose3 (t : list (list (list Qc))) : list (list (list Qc)) :=
  map columns t.

(** Mean over the last axis, which is kept with size one. *)
Definition mean_last_keep (t : list (list (list Qc))) : list (list (list Qc)) :=
  map (map (fun r => [avg r])) t.

(** Mean over axis 1 of every matrix: one value per column. *)
Definition col_means (m : list (list Qc)) : list Qc := map avg (columns m).

Definition mean_1_keep (t : list (list (list Qc))) : list (list (list Qc)) :=
  map (fun m => [col_means m]) t.

Definition mean_1 (t : list (list (list Qc))) : list (list Qc) :=
  map col_means t.

(** [torch.nn.Linear]: [y = x W^T + b], [W] of shape out x in. *)
Record linear : Type := {
  weight : list (list Qc);
  bias : list Qc
}.

Definition linear_vec (l : linear) (x : list Qc) : list Qc :=
  map (fun wb => dot x (fst wb) + snd wb) (combine (weight l) (bias l)).

Definition linear2 (l : linear) (t : list (list Qc)) : list (list Qc) :=
  map (linear_vec l) t.

Definition linear3 (l : linear) (t : list (list (list Qc))) :=
  map (linear2 l) t.

(** Shapes. *)
Definition shape2 (m : list (list Qc)) (r c : nat) : Prop :=
  length m = r /\ Forall (fun row => length row = c) m.

Definition shape3 (t : list (list (list Qc))) (b r c : nat) : Prop :=
  length t = b /\ Forall (fun m => shape2 m r c) t.

(** Indexing, and sums over an index range. *)
Definition at1 (v : list Qc) (i : nat) : Qc := nth i v 0.
Definition at2 (m : list (list Qc)) (i j : nat) : Qc := at1 (nth i m []) j.
Definition at3 (t : list (list (list Qc))) (i j k : nat) : Qc :=
  at2 (nth i t []) j k.

Definition Sum (n : nat) (f : nat -> Qc) : Qc := sum (map f (seq 0 n)).

(** The pooling head as the specification words it, entry by entry:
    the channel mean of the IC projection at position [p], times the
    position mean of the NER tensor at channel [d], averaged over the
    positions, then mapped by the linear layer. *)
Definition ic_channel_mean (ic : list (list (list Qc))) (D b p : nat) : Qc :=
  Sum D (fun c => at3 ic b p c) / of_nat D.

Definition ner_position_mean (ner : list (list (list Qc))) (P b d : nat) : Qc :=
  Sum P (fun p => at3 ner b p d) / of_nat P.

Definition pooled (ic ner : list (list (list Qc))) (P D b d : nat) : Qc :=
  Sum P (fun p => ic_channel_mean ic D b p * ner_position_mean ner P b d)
  / of_nat P.

Definition pooling_spec (l : linear) (ic ner : list (list (list Qc)))
    (B P D n_ic : nat) : list (list Qc) :=
  map (fun b =>
         map (fun o =>
                Sum D (fun d => pooled ic ner P D b d * at2 (weight l) o d)
                + at1 (bias l) o)
             (seq 0 n_ic))
      (seq 0 B).


End QT.

#[export] Instance QTorch : Torch := {|
  T2 := list (list Qc);
  T3 := list (list (list Qc));
  transpose_1_2 := QT.transpose3;
  matmul := QT.matmul3;
  mean_last_keepdim := QT.mean_last_keep;
  mean_dim1_keepdim := QT.mean_1_keep;
  mean_dim1 := QT.mean_1;
  Linear := QT.linear;
  linear_forward3 := QT.linear3;
  linear_forward2 := QT.linear2
|}.

(* ================================================================== *)
(** * Arrays of [numpy] and [torch] used by the evaluator               *)
(* ================================================================== *)

Module Np.

(** A rank-2 tensor: its column count and its rows.  The column count is
    kept apart because a tensor with no row still has one. *)
Record tensor2 (A : Type) : Type := mk_tensor2 {
  t_ncols : nat;
  t_rows : list (list A)
}.
Arguments mk_tensor2 {A} t_ncols t_rows.

Definition wf2 {A} (t : tensor2 A) : Prop :=
  Forall (fun r => length r = t_ncols t) (t_rows t).

(** An array of rank 0, 1 or 2. *)
Inductive ndarray (A : Type) : Type :=
| Nd0 (x : A)
| Nd1 (xs : list A)
| Nd2 (t : tensor2 A).
Arguments Nd0 {A} x.
Arguments Nd1 {A} xs.
Arguments Nd2 {A} t.

(** [t[:, :k]] *)
Definition slice_cols_to {A} (k : nat) (t : tensor2 A) : tensor2 A :=
  mk_tensor2 (Nat.min k (t_ncols t)) (map (firstn k) (t_rows t)).

(** [t[:, k:]] *)
Definition slice_cols_from {A} (k : nat) (t : tensor2 A) : tensor2 A :=
  mk_tensor2 (t_ncols t - k) (map (skipn k) (t_rows t)).

(** [torch.squeeze(t)]: every axis of length one is removed; the data is
    untouched.  (The empty-data branch of the rank-0 case cannot be
    reached from a well-formed tensor.) *)
Definition squeeze {A} (t : tensor2 A) : ndarray A :=
  let data := concat (t_rows t) in
  match filter (fun n => negb (n =? 1)) [length (t_rows t); t_ncols t] with
  | [] => match data with
          | x :: _ => Nd0 x
          | [] => Nd1 []
          end
  | [_] => Nd1 data
  | _ => Nd2 t
  end.

(** [np.concatenate(arrays)] along axis 0. *)
Fixpoint concatenate1 {A} (arrays : list (ndarray A)) : result (list A) :=
  match arrays with
  | [] => Ok []
  | Nd1 xs :: rest => rbind (concatenate1 rest) (fun ys => Ok (xs ++ ys))
  | _ :: _ => Err ValueError
  end.

Fixpoint concatenate2 {A} (c : nat) (arrays : list (ndarray A))
    : result (list (list A)) :=
  match arrays with
  | [] => Ok []
  | Nd2 t :: rest =>
      if t_ncols t =? c
      then rbind (concatenate2 c rest) (fun ys => Ok (t_rows t ++ ys))
      else Err ValueError
  | _ :: _ => Err ValueError
  end.

Definition concatenate {A} (arrays : list (ndarray A)) : result (ndarray A) :=
  match arrays with
  | [] => Err ValueError
  | Nd0 _ :: _ => Err ValueError
  | Nd1 _ :: _ => rbind (concatenate1 arrays) (fun xs => Ok (Nd1 xs))
  | Nd2 t :: _ =>
      rbind (concatenate2 (t_ncols t) arrays)
            (fun rs => Ok (Nd2 (mk_tensor2 (t_ncols t) rs)))
  end.

(** [a[mask]] with a boolean mask over axis 0. *)
Fixpoint select {A} (mask : list bool) (l : list A) : list A :=
  match mask, l with
  | m :: mask', x :: l' => if m then x :: select mask' l' else select mask' l'
  | _, _ => []
  end.

Definition bool_index {A} (a : ndarray A) (mask : list bool) : result (ndarray A) :=
  match a with
  | Nd0 _ => Err IndexError
  | Nd1 xs =>
      if length mask =? length xs
      then Ok (Nd1 (select mask xs)) else Err IndexError
  | Nd2 t =>
      if length mask =? length (t_rows t)
      then Ok (Nd2 (mk_tensor2 (t_ncols t) (select mask (t_rows t))))
      else Err IndexError
  end.

(** Sorted list of the distinct elements ([np.unique], and the label set
    of [sklearn]), for a strict order given as a boolean. *)
Section Unique.
Context {A : Type} (ltb : A -> A -> bool).

Fixpoint uinsert (x : A) (l : list A) : list A :=
  match l with
  | [] => [x]
  | y :: l' =>
      if ltb x y then x :: l
      else if ltb y x then y :: uinsert x l'
      else l
  end.

Definition unique (l : list A) : list A := fold_right uinsert [] l.
End Unique.

(** [k] consecutive chunks of [n] elements. *)
Fixpoint chunks {A} (n k : nat) (l : list A) : list (list A) :=
  match k with
  | O => []
  | S k' => firstn n l :: chunks n k' (skipn n l)
  end.

(** [t.reshape((-1, l, n))] of a rank-2 tensor. *)
Definition reshape3 {A} (t : tensor2 A) (l n : nat) : result (list (list (list A))) :=
  let data := concat (t_rows t) in
  let size := length data in
  if (l * n =? 0) then Err RuntimeError
  else if negb (size mod (l * n) =? 0) then Err RuntimeError
  else Ok (map (fun m => chunks n l m) (chunks (l * n) (size / (l * n)) data)).

(** Index of the first largest element, for a strict order [ltb]. *)
Section Argmax.
Context {S : Type} (ltb : S -> S -> bool).

Fixpoint argmax_from (best : nat) (vbest : S) (i : nat) (l : list S) : nat :=
  match l with
  | [] => best
  | x :: l' =>
      if ltb vbest x then argmax_from i x (i + 1) l'
      else argmax_from best vbest (i + 1) l'
  end.

Definition argmax_row (l : list S) : result nat :=
  match l with
  | [] => Err IndexError
  | x :: l' => Ok (argmax_from 0 x 1 l')
  end.

(** [torch.argmax(t, dim=-1)] of a rank-2 tensor. *)
Definition argmax2 (t : tensor2 S) : result (list nat) :=
  if t_ncols t =? 0 then Err IndexError
  else rmapM argmax_row (t_rows t).

(** [torch.argmax(t, dim=-1)] of a rank-3 tensor whose axis 1 has
    length [l]. *)
Definition argmax3 (l : nat) (t : list (list (list S))) : result (tensor2 nat) :=
  rbind (rmapM (rmapM argmax_row) t) (fun rs => Ok (mk_tensor2 l rs)).
End Argmax.

(** A decoded tag: a Python [str] or [None]. *)
Inductive pyobj : Type :=
| PStr (s : string)
| PNone.

Definition pyobj_eqb (a b : pyobj) : bool :=
  match a, b with
  | PStr s, PStr s' => String.eqb s s'
  | PNone, PNone => true
  | _, _ => false
  end.

(** [np.vectorize(d.get)(a)] on a rank-2 array of integers.  [vectorize]
    refuses an array without elements; it calls the function on the first
    element to choose the output type: when that is a string the outputs
    are converted to strings, so a missing id becomes the text of [None];
    otherwise the outputs stay Python objects. *)
Definition vectorize_get (d : dict Z string) (a : tensor2 Z)
    : result (tensor2 pyobj) :=
  match concat (t_rows a) with
  | [] => Err ValueError
  | x0 :: _ =>
      let missing :=
        match dict_get d x0 with
        | Some _ => PStr "None"
        | None => PNone
        end in
      Ok (mk_tensor2 (t_ncols a)
            (map (map (fun i => match dict_get d i with
                                | Some s => PStr s
                                | None => missing
                                end))
                 (t_rows a)))
  end.


End Np.
Import Np.

(* ================================================================== *)
(** * [components/MultiTask/src/metrics.py]                             *)
(* ================================================================== *)

(** The arithmetic of [sklearn.metrics]: [accuracy_score] is a function of
    the number of matches and the number of examples, the F1 of a class a
    function of its true-positive, false-positive and false-negative
    counts, and the macro average a function of the per-class values in
    label order. *)
Class Sklearn : Type := {
  metric : Type;
  accuracy_of_counts : nat -> nat -> metric;
  f1_of_counts : nat -> nat -> nat -> metric;
  average : list metric -> metric
}.

(** [computeF1Score] of [utils], which is not part of the sources at hand:
    from two aligned collections of tag sequences to (F1, precision,
    recall). *)
Class Scorer `{Sklearn} : Type := {
  computeF1Score : list (list pyobj) -> list (list pyobj) -> metric * metric * metric
}.

(** [trainer.model]: called on a batch, returns the logits and may change
    its own state (mode, random generator, statistics). *)
Class EvalModel : Type := {
  Score : Type;
  score_ltb : Score -> Score -> bool;
  MState : Type;
  Fields : Type;
  model_call : MState -> tensor2 Z -> Fields -> tensor2 Score * MState
}.

Section Metrics.
Context `{SC : Scorer} `{EM : EvalModel}.

Record Trainer : Type := {
  eval_dataset_ner2idx : dict string Z;
  args_no_cuda : bool;
  model_num_labels_IC : nat;
  model_num_labels_NER : nat;
  model_max_length : nat
}.

Record Batch : Type := {
  labels : tensor2 Z;
  fields : Fields
}.

Record Metrics : Type := {
  accuracy_IC : metric;
  f1_IC : metric;
  f1_NER : metric;
  precision_NER : metric;
  recall_NER : metric
}.

(** Computations that thread the state of the model and may raise. *)
Definition E (A : Type) : Type := MState -> result A * MState.

Definition eret {A} (a : A) : E A := fun s => (Ok a, s).

Definition ebind {A B} (m : E A) (k : A -> E B) : E B :=
  fun s => match m s with
           | (Ok a, s') => k a s'
           | (Err e, s') => (Err e, s')
           end.

Definition elift {A} (r : result A) : E A := fun s => (r, s).

(** ** The inference pass *)

(** [torch.squeeze(batch.get('labels')[:,:1])] *)
Definition split_ic_labels (l : tensor2 Z) : ndarray Z :=
  squeeze (slice_cols_to 1 l).

(** [batch.get('labels')[:,1:]] *)
Definition split_ner_labels (l : tensor2 Z) : tensor2 Z :=
  slice_cols_from 1 l.

(** [torch.argmax(output[:,:n_ic], dim=-1)] *)
Definition predict_ic (tr : Trainer) (output : tensor2 Score) : result (list nat) :=
  argmax2 score_ltb (slice_cols_to (model_num_labels_IC tr) output).

(** [torch.argmax(output[:,n_ic:].reshape((-1, max_length, n_ner)), dim=-1)] *)
Definition predict_ner (tr : Trainer) (output : tensor2 Score) : result (tensor2 nat) :=
  rbind (reshape3 (slice_cols_from (model_num_labels_IC tr) output)
                  (model_max_length tr) (model_num_labels_NER tr))
        (argmax3 score_ltb (model_max_length tr)).

Definition ids_of (t : tensor2 nat) : tensor2 Z :=
  mk_tensor2 (t_ncols t) (map (map Z.of_nat) (t_rows t)).

(** What one batch contributes to the four collections. *)
Record Stacked : Type := {
  st_ic_labels : ndarray Z;
  st_ic_output : ndarray Z;
  st_ner_labels : ndarray pyobj;
  st_ner_output : ndarray pyobj
}.

Definition stack_batch (tr : Trainer) (idx2ner : dict Z string) (batch : Batch)
    : E Stacked :=
  fun s =>
    let ic_labels := split_ic_labels (labels batch) in
    let ner_labels := split_ner_labels (labels batch) in
    let (output, s') := model_call s (labels batch) (fields batch) in
    (rbind (predict_ic tr output) (fun ic_output =>
     rbind (predict_ner tr output) (fun ner_output =>
     rbind (vectorize_get idx2ner ner_labels) (fun ner_labels =>
     rbind (vectorize_get idx2ner (ids_of ner_output)) (fun ner_output =>
     Ok {| st_ic_labels := ic_labels;
           st_ic_output := Nd1 (map Z.of_nat ic_output);
           st_ner_labels := Nd2 ner_labels;
           st_ner_output := Nd2 ner_output |})))),
     s').

(** [for batch in iter(val_dtl): ... X.append(x)] *)
Fixpoint stack_predictions (tr : Trainer) (idx2ner : dict Z string)
    (val_dtl : list Batch) (acc : list Stacked) : E (list Stacked) :=
  match val_dtl with
  | [] => eret acc
  | batch :: rest =>
      ebind (stack_batch tr idx2ner batch) (fun x =>
      stack_predictions tr idx2ner rest (acc ++ [x]))
  end.

(** ** The metrics *)

Definition count {A} (f : A -> bool) (l : list A) : nat := length (filter f l).

(** [accuracy_score(y_true, y_pred)] *)
Definition accuracy_score (y_true y_pred : ndarray Z) : result metric :=
  match y_true, y_pred with
  | Nd1 t, Nd1 p =>
      if length t =? length p
      then Ok (accuracy_of_counts
                 (count (fun tp => Z.eqb (fst tp) (snd tp)) (combine t p))
                 (length t))
      else Err ValueError
  | _, _ => Err ValueError
  end.

Definition f1_of_class (pairs : list (Z * Z)) (c : Z) : metric :=
  f1_of_counts
    (count (fun tp => Z.eqb (fst tp) c && Z.eqb (snd tp) c) pairs)
    (count (fun tp => negb (Z.eqb (fst tp) c) && Z.eqb (snd tp) c) pairs)
    (count (fun tp => Z.eqb (fst tp) c && negb (Z.eqb (snd tp) c)) pairs).

(** [f1_score(y_true, y_pred, average='macro')] *)
Definition f1_score_macro (y_true y_pred : ndarray Z) : result metric :=
  match y_true, y_pred with
  | Nd1 t, Nd1 p =>
      if length t =? length p
      then Ok (average (map (f1_of_class (combine t p))
                            (unique Z.ltb (t ++ p))))
      else Err ValueError
  | _, _ => Err ValueError
  end.

(** The rows a rank-2 array yields when iterated. *)
Definition as_rows {A} (a : ndarray A) : result (list (list A)) :=
  match a with
  | Nd2 t => Ok (t_rows t)
  | _ => Err TypeError
  end.

(** The five metrics of lines 43-46, on the examples selected by [mask]
    (lines 51-54); [None] selects every example. *)
Definition restrict {A} (mask : option (list bool)) (a : ndarray A)
    : result (ndarray A) :=
  match mask with
  | None => Ok a
  | Some m => bool_index a m
  end.

Definition five_metrics (mask : option (list bool))
    (IC_LABELS IC_OUTPUT : ndarray Z) (NER_LABELS NER_OUTPUT : ndarray pyobj)
    : result Metrics :=
  rbind (restrict mask IC_LABELS) (fun yt =>
  rbind (restrict mask IC_OUTPUT) (fun yp =>
  rbind (accuracy_score yt yp) (fun accIC =>
  rbind (restrict mask IC_LABELS) (fun yt =>
  rbind (restrict mask IC_OUTPUT) (fun yp =>
  rbind (f1_score_macro yt yp) (fun f1IC =>
  rbind (restrict mask NER_OUTPUT) (fun no =>
  rbind (restrict mask NER_LABELS) (fun nl =>
  rbind (as_rows no) (fun no =>
  rbind (as_rows nl) (fun nl =>
  let '(f1NER, precision, recall) := computeF1Score no nl in
  Ok {| accuracy_IC := accIC;
        f1_IC := f1IC;
        f1_NER := f1NER;
        precision_NER := precision;
        recall_NER := recall |})))))))))).

(** [language_arr == lang] *)
Definition lang_mask (language_arr : list string) (lang : string) : list bool :=
  map (fun l => String.eqb l lang) language_arr.

(** [for lang in np.unique(language_arr): lang_metrics[lang] = {...}] *)
Fixpoint language_loop (langs : list string) (language_arr : list string)
    (IC_LABELS IC_OUTPUT : ndarray Z) (NER_LABELS NER_OUTPUT : ndarray pyobj)
    (lang_metrics : dict string Metrics) : result (dict string Metrics) :=
  match langs with
  | [] => Ok lang_metrics
  | lang :: rest =>
      rbind (five_metrics (Some (lang_mask language_arr lang))
                          IC_LABELS IC_OUTPUT NER_LABELS NER_OUTPUT) (fun m =>
      language_loop rest language_arr IC_LABELS IC_OUTPUT NER_LABELS NER_OUTPUT
                    (dict_set lang_metrics lang m))
  end.

(** Lines 37-55: from the stacked collections to the two mappings. *)
Definition aggregate (stacked : list Stacked) (language_arr : list string)
    : result (Metrics * dict string Metrics) :=
  rbind (concatenate (map st_ic_labels stacked)) (fun IC_LABELS =>
  rbind (concatenate (map st_ic_output stacked)) (fun IC_OUTPUT =>
  rbind (concatenate (map st_ner_labels stacked)) (fun NER_LABELS =>
  rbind (concatenate (map st_ner_output stacked)) (fun NER_OUTPUT =>
  rbind (five_metrics None IC_LABELS IC_OUTPUT NER_LABELS NER_OUTPUT) (fun global_metrics =>
  rbind (language_loop (unique String.ltb language_arr) language_arr
                       IC_LABELS IC_OUTPUT NER_LABELS NER_OUTPUT []) (fun lang_metrics =>
  Ok (global_metrics, lang_metrics))))))).

(** ** The metrics, seen from the examples

    The same computations on plain lists, used to state what the
    evaluator returns. *)

(** The five metrics of gold and predicted IC labels and of gold and
    predicted tag sequences. *)
Definition metrics_of (y_true y_pred : list Z)
    (ner_gold ner_pred : list (list pyobj)) : Metrics :=
  let '(f1NER, precision, recall) := computeF1Score ner_pred ner_gold in
  {| accuracy_IC :=
       accuracy_of_counts
         (count (fun tp => Z.eqb (fst tp) (snd tp)) (combine y_true y_pred))
         (length y_true);
     f1_IC :=
       average (map (f1_of_class (combine y_true y_pred))
                    (unique Z.ltb (y_true ++ y_pred)));
     f1_NER := f1NER;
     precision_NER := precision;
     recall_NER := recall |}.

(** The positions of the examples whose language is [lang]. *)
Definition lang_examples (language_arr : list string) (lang : string) : list nat :=
  filter (fun i => match nth_error language_arr i with
                   | Some l => String.eqb l lang
                   | None => false
                   end)
         (seq 0 (length language_arr)).

(** The entries of [l] at the positions [idxs]. *)
Definition take {A} (idxs : list nat) (l : list A) : list A :=
  flat_map (fun i => match nth_error l i with
                     | Some x => [x]
                     | None => []
                     end) idxs.

(** One evaluated example. *)
Record Example : Type := {
  e_gold : Z;
  e_pred : Z;
  e_ner_gold : list pyobj;
  e_ner_pred : list pyobj;
  e_lang : string
}.

Definition ex_metrics (ex : list Example) : Metrics :=
  metrics_of (map e_gold ex) (map e_pred ex)
             (map e_ner_gold ex) (map e_ner_pred ex).

Definition items {A} (a : ndarray A) : list A :=
  match a with
  | Nd1 xs => xs
  | _ => []
  end.

Definition rows_of {A} (a : ndarray A) : list (list A) :=
  match a with
  | Nd2 t => t_rows t
  | _ => []
  end.

(** The examples of a batch, from what it stacks and from its languages. *)
Definition batch_examples (st : Stacked) (langs : list string) : list Example :=
  map (fun x =>
         {| e_gold := fst (fst (fst (fst x)));
            e_pred := snd (fst (fst (fst x)));
            e_ner_gold := snd (fst (fst x));
            e_ner_pred := snd (fst x);
            e_lang := snd x |})
      (combine
         (combine
            (combine (combine (items (st_ic_labels st)) (items (st_ic_output st)))
                     (rows_of (st_ner_labels st)))
            (rows_of (st_ner_output st)))
         langs).

(** A batch stacks one entry per example in each collection, and has
    one language per example. *)
Definition aligned (st : Stacked) (langs : list string) : Prop :=
  exists xs ys gold pred,
    st_ic_labels st = Nd1 xs
    /\ st_ic_output st = Nd1 ys
    /\ st_ner_labels st = Nd2 gold
    /\ st_ner_output st = Nd2 pred
    /\ length xs = length langs
    /\ length ys = length langs
    /\ length (t_rows gold) = length langs
    /\ length (t_rows pred) = length langs.

(** The examples of a list of aligned batches, in stacking order. *)
Definition all_examples (ps : list (Stacked * list string)) : list Example :=
  concat (map (fun p => batch_examples (fst p) (snd p)) ps).

Definition of_lang (lang : string) (e : Example) : bool :=
  String.eqb (e_lang e) lang.

(** The sequence scorer does not depend on the order in which the
    (predicted, gold) sequences are given. *)
Definition scorer_order_independent : Prop :=
  forall rows rows' : list (list pyobj * list pyobj),
    Permutation rows rows' ->
    computeF1Score (map fst rows) (map snd rows)
    = computeF1Score (map fst rows') (map snd rows').

(** A call leaves the model as it was. *)
Definition frozen : Prop :=
  forall (s : MState) (l : tensor2 Z) (f : Fields), snd (model_call s l f) = s.

Definition evaluate_metrics (trainer : Trainer) (val_dtl : list Batch)
    (language_arr : list string) : E (Metrics * dict string Metrics) :=
  let idx2ner := dict_invert (eval_dataset_ner2idx trainer) in
  ebind (stack_predictions trainer idx2ner val_dtl []) (fun stacked =>
  elift (aggregate stacked language_arr)).

End Metrics.

(* ================================================================== *)
(** * Instances used to run the definitions                             *)
(* ================================================================== *)

(** Symbolic tensors: a tensor is the term that computes it.  Two tensors
    are equal only when they were obtained by the same operations from the
    same inputs, so running the model on symbolic inputs shows its data
    flow. *)
Module Sym.
Inductive term : Type :=
| Var (name : string)
| Hidden (tokens attn_mask : string)
| Transpose (t : term)
| Matmul (a b : term)
| MeanLastKeep (t : term)
| Mean1Keep (t : term)
| Mean1 (t : term)
| Lin (site index : nat) (t : term)
| AttnOut (index : nat) (query key val : term)
| AttnWeights (index : nat) (query key val : term).

#[export] Instance torch : Torch := {|
  T2 := term;
  T3 := term;
  transpose_1_2 := Transpose;
  matmul := Matmul;
  mean_last_keepdim := MeanLastKeep;
  mean_dim1_keepdim := Mean1Keep;
  mean_dim1 := Mean1;
  Linear := nat * nat;
  linear_forward3 := fun l => Lin (fst l) (snd l);
  linear_forward2 := fun l => Lin (fst l) (snd l)
|}.

#[export] Instance attention : @TorchAttention torch := {|
  MultiheadAttention := nat;
  mha_forward := fun m q k v => (AttnOut m q k v, AttnWeights m q k v)
|}.

#[export] Instance transformers : @Transformers torch := {|
  Float := unit;
  Ids := string;
  Config := nat * nat;
  Backbone := unit;
  AutoConfig_from_pretrained := fun _ => Ok (4, 8);
  config_update := fun c _ _ _ _ => c;
  max_position_embeddings := fst;
  hidden_size := snd;
  AutoModel_from_config := fun _ => tt;
  last_hidden_state := fun _ tokens attn_mask => Hidden tokens attn_mask
|}.

(** The modules drawn by the constructors: site 0 is the IC projection,
    1 the per-level projections, 2 the IC reshape, 3 the pooling head. *)
Definition init : @Init torch attention := {|
  init_format_IC := fun _ _ => (0, 0);
  init_format_H_NER := fun i _ _ => (1, i);
  init_ic2ner_linear := fun i _ _ => (2, i);
  init_ic2ner_attn := fun i _ _ => i;
  init_ner2ic_linear := fun _ _ => (3, 0)
|}.
End Sym.

(** A batch of one example, two positions and two channels, and a linear
    layer to two IC labels, for the pooling head over rationals. *)
Module PoolingRun.
Definition ic : list (list (list Qc)) :=
  [[[Q2Qc 1; Q2Qc 3]; [Q2Qc 2; Q2Qc 4]]].
Definition ner : list (list (list Qc)) :=
  [[[Q2Qc 2; Q2Qc 0]; [Q2Qc 4; Q2Qc 6]]].
Definition head : QT.linear :=
  {| QT.weight := [[Q2Qc 1; Q2Qc 0]; [Q2Qc 1; Q2Qc 1]];
     QT.bias := [Q2Qc 0; Q2Qc 1] |}.
End PoolingRun.

(** A hierarchy of three levels and a caller's heap for it: the level
    dictionary at location 0, the formatted dictionary at location 1. *)
Module SymRun.
Import Sym.

Definition tags3 : list string := ["coarse"; "mid"; "fine"].

Definition num_labels3 : NumLabels :=
  {| nl_IC := 3; nl_H_NER := [("coarse", 2); ("mid", 5); ("fine", 7)] |}.

Definition cascade3 : IC2NER :=
  {| i2n_tags := tags3;
     i2n_linear := [("coarse", (2, 0)); ("mid", (2, 1)); ("fine", (2, 2))];
     i2n_attn := [("coarse", 0); ("mid", 1)] |}.

Definition levels3 : obj :=
  [("coarse", VTensor (Var "c")); ("mid", VTensor (Var "m"));
   ("fine", VTensor (Var "f"))].

Definition formatted3 : obj := [("IC", VTensor (Var "ic")); ("H_NER", VDict 0)].

Definition heap3 : heap := [levels3; formatted3].

(** The level dictionary after a call of the cascade. *)
Definition levels3_after : obj :=
  [("coarse", VTensor (Var "c"));
   ("mid", VTensor (AttnOut 0 (Var "c") (Var "m") (Var "m")));
   ("fine", VTensor (AttnOut 1 (AttnOut 0 (Var "c") (Var "m") (Var "m"))
                       (Var "f") (Var "f")))].

(** A label-count dictionary without levels, a caller's heap whose
    formatted dictionary has no IC entry, one whose level dictionary
    lacks the middle level, and an input of the model. *)
Definition num_labels0 : NumLabels := {| nl_IC := 3; nl_H_NER := [] |}.

Definition heap_no_IC : heap := [levels3; [("H_NER", VDict 0)]].

Definition levels_no_mid : obj :=
  [("coarse", VTensor (Var "c")); ("fine", VTensor (Var "f"))].

Definition heap_no_mid : heap := [levels_no_mid; formatted3].

Definition input3 : @ModelInput torch transformers :=
  {| in_tokens := "tokens"; in_attn_mask := "mask" |}.
End SymRun.

(** Metrics as fractions in lowest terms. *)
Module QMetrics.
Local Open Scope Q_scope.

Definition ratio (n d : nat) : Q :=
  Qred (inject_Z (Z.of_nat n) / inject_Z (Z.of_nat d)).

Definition mean (l : list Q) : Q :=
  Qred (fold_right Qplus 0 l / inject_Z (Z.of_nat (length l))).

#[export] Instance sklearn : Sklearn := {|
  metric := Q;
  accuracy_of_counts := ratio;
  f1_of_counts := fun tp fp fn => ratio (2 * tp) (2 * tp + fp + fn);
  average := mean
|}.

Definition is_entity (t : pyobj) : bool := negb (pyobj_eqb t (PStr "O")).

(** A scorer that counts tokens instead of spans: a predicted tag other
    than [O] is correct when the gold tag at its place is the same. *)
Definition tokens (pred gold : list (list pyobj)) : list (pyobj * pyobj) :=
  concat (map (fun pg => combine (fst pg) (snd pg)) (combine pred gold)).

Definition token_scorer (pred gold : list (list pyobj)) : Q * Q * Q :=
  let toks := tokens pred gold in
  let n_pred := length (filter (fun pg => is_entity (fst pg)) toks) in
  let n_gold := length (filter (fun pg => is_entity (snd pg)) toks) in
  let n_ok := length (filter (fun pg => is_entity (fst pg)
                                        && pyobj_eqb (fst pg) (snd pg)) toks) in
  let p := ratio n_ok n_pred in
  let r := ratio n_ok n_gold in
  (Qred (2 * p * r / (p + r)), p, r).

#[export] Instance scorer : @Scorer sklearn := {|
  computeF1Score := token_scorer
|}.

(** A model whose logits are read off the batch, and that has no state. *)
#[export] Instance table_model : EvalModel := {|
  Score := Z;
  score_ltb := Z.ltb;
  MState := unit;
  Fields := tensor2 Z;
  model_call := fun s _ logits => (logits, s)
|}.

(** A model with dropout left on: the state is the position in the random
    stream, every call advances it, and the logits depend on it. *)
Definition dropout_model : EvalModel := {|
  Score := Z;
  score_ltb := Z.ltb;
  MState := nat;
  Fields := tensor2 Z;
  model_call := fun s _ logits =>
    (if Nat.even s then logits
     else mk_tensor2 (t_ncols logits) (map (@rev Z) (t_rows logits)),
     S s)
|}.


End QMetrics.

(** A small evaluation set for the model that reads its logits off the
    batch: two IC labels, two NER tags, two positions; two batches of two
    examples each, and a language per example. *)
Module EvalRun.
Import QMetrics.
Local Open Scope Z_scope.

Definition trainer : Trainer :=
  {| eval_dataset_ner2idx := [("O", 0); ("B-x", 1)];
     args_no_cuda := true;
     model_num_labels_IC := 2;
     model_num_labels_NER := 2;
     model_max_length := 2 |}.

(** Logits that predict IC label 0 and the tags [O B-x], resp. [B-x O]. *)
Definition logits : tensor2 Z :=
  mk_tensor2 6 [[5; 1; 3; 1; 1; 3]; [5; 1; 1; 3; 3; 1]].

(** Gold IC labels 0, 0. *)
Definition batch_a : @Batch table_model :=
  {| labels := mk_tensor2 3 [[0; 0; 1]; [0; 1; 0]]; fields := logits |}.

(** Gold IC labels 1, 1. *)
Definition batch_b : @Batch table_model :=
  {| labels := mk_tensor2 3 [[1; 0; 1]; [1; 1; 0]]; fields := logits |}.


(** One example only. *)
Definition batch_single : @Batch table_model :=
  {| labels := mk_tensor2 3 [[0; 0; 1]];
     fields := mk_tensor2 6 [[5; 1; 3; 1; 1; 3]] |}.

Definition languages : list string := ["en"; "en"; "fr"; "fr"].

(** Records that the runs on these batches return. *)
Definition record (acc f1 f1_ner p r : Q) : @Metrics sklearn :=
  {| accuracy_IC := acc; f1_IC := f1; f1_NER := f1_ner;
     precision_NER := p; recall_NER := r |}.

Definition all_right : @Metrics sklearn := record 1 1 1 1 1.
Definition ic_wrong : @Metrics sklearn := record 0 0 1 1 1.
Definition ic_half : @Metrics sklearn := record (1 # 2) (1 # 3) 1 1 1.
Definition after_dropout : @Metrics sklearn :=
  record (1 # 2) (1 # 3) (2 # 5) (1 # 3) (1 # 2).

(** The first batch, for the model whose state advances at every call. *)
Definition batch_a_dropout : @Batch dropout_model :=
  @Build_Batch dropout_model (mk_tensor2 3 [[0; 0; 1]; [0; 1; 0]]) logits.

(** Labels without NER column, for both models. *)
Definition batch_no_ner : @Batch table_model :=
  {| labels := mk_tensor2 1 [[0]; [0]]; fields := logits |}.



(** Logits with the NER block of one position only: the two rows
    together hold the logits of one example. *)
Definition logits_short : tensor2 Z :=
  mk_tensor2 4 [[5; 1; 3; 1]; [5; 1; 1; 3]].

(** A tag table in which two tags share the id 1. *)
Definition ner2idx_shared : dict string Z := [("O", 0); ("B-x", 1); ("I-x", 1)].
End EvalRun.


(* ================================================================== *)
(** * Facts about dictionaries                                          *)
(* ================================================================== *)

Section DictFacts.
Context {K V : Type} `{PyKey K}.
Implicit Types (d : dict K V) (k : K) (v : V).

Lemma keyb_refl k : keyb k k = true.
Proof. destruct (keyb_spec k k); congruence. Qed.

Lemma keyb_neq k k' : k <> k' -> keyb k k' = false.
Proof. intros Hne. destruct (keyb_spec k k'); congruence. Qed.

Lemma dict_get_set_eq d k v : dict_get (dict_set d k v) k = Some v.
Proof.
  induction d as [|[k' v'] d IH]; simpl.
  - now rewrite keyb_refl.
  - destruct (keyb_spec k' k) as [->|Hne]; simpl.
    + now rewrite keyb_refl.
    + now rewrite (keyb_neq Hne).
Qed.

Lemma dict_get_set_neq d k k' v :
  k <> k' -> dict_get (dict_set d k v) k' = dict_get d k'.
Proof.
  intros Hne. induction d as [|[k0 v0] d IH]; simpl.
  - now rewrite (keyb_neq Hne).
  - destruct (keyb_spec k0 k) as [->|Hne0]; simpl.
    + now rewrite (keyb_neq Hne).
    + now rewrite IH.
Qed.

Lemma dict_get_None d k : dict_get d k = None <-> ~ In k (dict_keys d).
Proof.
  induction d as [|[k' v'] d IH]; simpl.
  - tauto.
  - destruct (keyb_spec k' k) as [->|Hne].
    + split; [discriminate | tauto].
    + rewrite IH. tauto.
Qed.

Lemma dict_get_Some_In d k v : dict_get d k = Some v -> In (k, v) d.
Proof.
  induction d as [|[k' v'] d IH]; simpl; [discriminate|].
  destruct (keyb_spec k' k) as [->|Hne].
  - intros [= ->]. now left.
  - intros Hg. right. auto.
Qed.

Lemma dict_get_In d k v : dict_wf d -> In (k, v) d -> dict_get d k = Some v.
Proof.
  unfold dict_wf, dict_keys.
  induction d as [|[k' v'] d IH]; simpl; [tauto|].
  intros Hnd [[= -> ->]|Hin].
  - now rewrite keyb_refl.
  - inversion Hnd as [|? ? Hni Hnd']; subst.
    destruct (keyb_spec k' k) as [->|Hne].
    + exfalso. apply Hni. apply (in_map fst) in Hin. exact Hin.
    + auto.
Qed.

Lemma dict_set_new d k v :
  ~ In k (dict_keys d) -> dict_set d k v = d ++ [(k, v)].
Proof.
  induction d as [|[k' v'] d IH]; simpl; [reflexivity|].
  intros Hni. destruct (keyb_spec k' k) as [->|Hne]; [tauto|].
  rewrite IH; tauto.
Qed.

Lemma dict_keys_set_In d k v :
  In k (dict_keys d) -> dict_keys (dict_set d k v) = dict_keys d.
Proof.
  induction d as [|[k' v'] d IH]; simpl; [tauto|].
  intros Hin. destruct (keyb_spec k' k) as [->|Hne]; simpl; [reflexivity|].
  f_equal. apply IH. destruct Hin; congruence.
Qed.

Lemma dict_keys_set d k v :
  dict_keys (dict_set d k v)
  = if in_dec (fun a b => reflect_dec _ _ (keyb_spec a b)) k (dict_keys d)
    then dict_keys d else dict_keys d ++ [k].
Proof.
  destruct in_dec as [Hin|Hni].
  - now apply dict_keys_set_In.
  - rewrite dict_set_new by assumption. unfold dict_keys. now rewrite map_app.
Qed.

Lemma dict_set_wf d k v : dict_wf d -> dict_wf (dict_set d k v).
Proof.
  unfold dict_wf. rewrite dict_keys_set. destruct in_dec as [Hin|Hni]; [auto|].
  intros Hnd. apply NoDup_app; [assumption|repeat constructor; simpl; tauto|].
  intros x Hx [<-|[]]. tauto.
Qed.

Lemma fold_dict_set_fresh (kvs acc : list (K * V)) :
  NoDup (map fst (acc ++ kvs)) ->
  fold_left (fun d kv => dict_set d (fst kv) (snd kv)) kvs acc = acc ++ kvs.
Proof.
  revert acc. induction kvs as [|[k v] kvs IH]; intros acc Hnd; simpl.
  - now rewrite app_nil_r.
  - rewrite dict_set_new.
    + rewrite IH; rewrite <- app_assoc; [reflexivity | exact Hnd].
    + rewrite map_app in Hnd. simpl in Hnd.
      apply NoDup_remove_2 in Hnd. intro Hin. apply Hnd.
      apply in_or_app. now left.
Qed.

(** A comprehension over distinct keys lists them in iteration order. *)
Lemma dict_of_list_fresh (kvs : list (K * V)) :
  NoDup (map fst kvs) -> dict_of_list kvs = kvs.
Proof. intros Hnd. unfold dict_of_list. now rewrite fold_dict_set_fresh. Qed.

Lemma fold_dict_set_wf (kvs acc : list (K * V)) :
  dict_wf acc ->
  dict_wf (fold_left (fun d kv => dict_set d (fst kv) (snd kv)) kvs acc).
Proof.
  revert acc. induction kvs as [|[k v] kvs IH]; intros acc Hwf; simpl; [assumption|].
  apply IH. now apply dict_set_wf.
Qed.

Lemma dict_of_list_wf (kvs : list (K * V)) : dict_wf (dict_of_list kvs).
Proof. apply fold_dict_set_wf. constructor. Qed.

Lemma dict_get_nth d i k v :
  dict_wf d -> nth_error d i = Some (k, v) -> dict_get d k = Some v.
Proof. intros Hwf Hn. apply dict_get_In; [assumption|]. eapply nth_error_In; eauto. Qed.
End DictFacts.


(* ================================================================== *)
(** * Facts about lists and the result monad                            *)
(* ================================================================== *)

Lemma nth_error_combine_seq {A} (l : list A) s i x :
  nth_error l i = Some x ->
  nth_error (combine (seq s (length l)) l) i = Some (s + i, x).
Proof.
  revert s i. induction l as [|a l IH]; intros s [|i] Hx; simpl in *; try discriminate.
  - injection Hx as <-. now rewrite Nat.add_0_r.
  - rewrite (IH (S s) i Hx). do 2 f_equal. lia.
Qed.

Lemma nth_error_enumerate {A} (l : list A) i x :
  nth_error l i = Some x -> nth_error (enumerate l) i = Some (i, x).
Proof. intros Hx. unfold enumerate. now rewrite (nth_error_combine_seq _ 0 _ Hx). Qed.

Lemma map_snd_enumerate {A} (l : list A) : map snd (enumerate l) = l.
Proof.
  unfold enumerate. generalize 0.
  induction l as [|a l IH]; intros s; simpl; [reflexivity|]. now rewrite IH.
Qed.

Lemma length_enumerate {A} (l : list A) : length (enumerate l) = length l.
Proof. unfold enumerate. rewrite length_combine, length_seq. lia. Qed.

Lemma rmapM_nth {A B} (f : A -> result B) l r i x :
  rmapM f l = Ok r -> nth_error l i = Some x ->
  exists y, f x = Ok y /\ nth_error r i = Some y.
Proof.
  revert r i. induction l as [|a l IH]; intros r i Hr Hx.
  - destruct i; discriminate.
  - simpl in Hr. destruct (f a) as [b|] eqn:Hfa; [|discriminate].
    simpl in Hr. destruct (rmapM f l) as [bs|] eqn:Hl; [|discriminate].
    simpl in Hr. injection Hr as <-.
    destruct i as [|i]; simpl in *.
    + injection Hx as <-. eauto.
    + eapply IH; eauto.
Qed.

Lemma rmapM_length {A B} (f : A -> result B) l r :
  rmapM f l = Ok r -> length r = length l.
Proof.
  revert r. induction l as [|a l IH]; intros r Hr; simpl in Hr.
  - now injection Hr as <-.
  - destruct (f a); [|discriminate]. simpl in Hr.
    destruct (rmapM f l); [|discriminate]. simpl in Hr. injection Hr as <-.
    simpl. f_equal. now apply IH.
Qed.

Lemma rmapM_ext_Ok {A B} (f : A -> result B) (g : A -> B) l :
  (forall x, In x l -> f x = Ok (g x)) -> rmapM f l = Ok (map g l).
Proof.
  induction l as [|a l IH]; intros Hf; simpl; [reflexivity|].
  rewrite Hf by now left. simpl. rewrite IH by (intros; apply Hf; now right).
  reflexivity.
Qed.

Lemma rmapM_keys {A K V W} (key : A -> K) (f : A -> result V)
    (g : A -> V -> W) l r :
  rmapM (fun a => rbind (f a) (fun v => Ok (key a, g a v))) l = Ok r ->
  map fst r = map key l.
Proof.
  revert r. induction l as [|a l IH]; intros r Hr; simpl in Hr.
  - now injection Hr as <-.
  - destruct (f a); [|discriminate]. simpl in Hr.
    destruct (rmapM _ l) eqn:Hl; [|discriminate]. simpl in Hr. injection Hr as <-.
    simpl. f_equal. now apply IH.
Qed.

Lemma NoDup_removelast {A} (l : list A) : NoDup l -> NoDup (removelast l).
Proof.
  induction l as [|a l IH]; intros Hnd; [constructor|].
  inversion Hnd as [|? ? Hni Hnd']; subst.
  destruct l as [|b l]; [constructor|].
  change (removelast (a :: b :: l)) with (a :: removelast (b :: l)).
  constructor; [|auto].
  intro Hin. apply Hni.
  clear -Hin. revert Hin. generalize (b :: l). intros l'.
  induction l' as [|c l' IH]; simpl; [tauto|].
  destruct l'; simpl in *; [tauto|]. intros [->|Hin]; auto.
Qed.

Lemma nth_error_removelast {A} (l : list A) i :
  i + 1 < length l -> nth_error (removelast l) i = nth_error l i.
Proof.
  revert i. induction l as [|a l IH]; intros i Hlt; simpl in *; [lia|].
  destruct l as [|b l]; simpl in *; [lia|].
  destruct i as [|i]; [reflexivity|]. simpl. apply IH. simpl. lia.
Qed.

Lemma length_removelast {A} (l : list A) : length (removelast l) = length l - 1.
Proof.
  induction l as [|a l IH]; [reflexivity|].
  destruct l as [|b l]; [reflexivity|].
  change (removelast (a :: b :: l)) with (a :: removelast (b :: l)).
  change (length (a :: removelast (b :: l))) with (S (length (removelast (b :: l)))).
  rewrite IH. simpl. lia.
Qed.

Lemma list_last_nth {A} (l : list A) x :
  nth_error l (length l - 1) = Some x -> list_last l = Ok x.
Proof.
  intros Hn. unfold list_last.
  destruct (rev l) as [|y r] eqn:Hrev.
  - apply (f_equal (@rev A)) in Hrev. rewrite rev_involutive in Hrev. subst.
    destruct (length (@nil A) - 1); discriminate.
  - apply (f_equal (@rev A)) in Hrev. rewrite rev_involutive in Hrev. subst.
    simpl in Hn. rewrite length_app, length_rev in Hn. simpl in Hn.
    rewrite nth_error_app2 in Hn by (rewrite length_rev; lia).
    rewrite length_rev in Hn.
    replace (length r + 1 - 1 - length r) with 0 in Hn by lia.
    simpl in Hn. congruence.
Qed.


(* ================================================================== *)
(** * The heap                                                          *)
(* ================================================================== *)

Section HeapFacts.
Context `{TA : TorchAttention}.
Implicit Types (h : heap) (o : obj) (l : loc).

Lemma length_heap_update h l o : length (heap_update h l o) = length h.
Proof.
  revert l. induction h as [|o' h IH]; intros [|l]; simpl; auto.
Qed.

Lemma heap_update_eq h l o :
  l < length h -> nth_error (heap_update h l o) l = Some o.
Proof.
  revert l. induction h as [|o' h IH]; intros [|l] Hlt; simpl in *; try lia; auto.
  apply IH. lia.
Qed.

Lemma heap_update_neq h l l' o :
  l <> l' -> nth_error (heap_update h l o) l' = nth_error h l'.
Proof.
  revert l l'. induction h as [|o' h IH]; intros [|l] [|l'] Hne; simpl; auto.
  all: try congruence.
  all: apply IH; congruence.
Qed.

Lemma heap_update_twice h l o1 o2 :
  heap_update (heap_update h l o1) l o2 = heap_update h l o2.
Proof.
  revert l. induction h as [|o' h IH]; intros [|l]; simpl; auto.
  now rewrite IH.
Qed.

Lemma heap_update_same h l o : nth_error h l = Some o -> heap_update h l o = h.
Proof.
  revert l. induction h as [|o' h IH]; intros [|l] Hn; simpl in *; auto.
  all: try congruence.
  all: now rewrite IH.
Qed.

Lemma nth_error_alloc_old h o l :
  l < length h -> nth_error (h ++ [o]) l = nth_error h l.
Proof. intros Hlt. now rewrite nth_error_app1. Qed.

Lemma nth_error_alloc_new h o : nth_error (h ++ [o]) (length h) = Some o.
Proof. rewrite nth_error_app2 by lia. now rewrite Nat.sub_diag. Qed.

Lemma bind_Ok {A B} (m : M A) (k : A -> M B) h a h' :
  m h = Ok (a, h') -> bind m k h = k a h'.
Proof. intros Hm. unfold bind. now rewrite Hm. Qed.

Lemma bind_lift_Ok {A B} (a : A) (k : A -> M B) h :
  bind (lift (Ok a)) k h = k a h.
Proof. reflexivity. Qed.

Lemma bind_ret {A B} (a : A) (k : A -> M B) h : bind (ret a) k h = k a h.
Proof. reflexivity. Qed.

Lemma hgetitem_Ok h l o k v :
  nth_error h l = Some o -> dict_get o k = Some v ->
  hgetitem l k h = Ok (v, h).
Proof.
  intros Hl Hk. unfold hgetitem, bind, load, lift, dict_getitem.
  now rewrite Hl, Hk.
Qed.

Lemma hgetitem2_Ok h l o k1 l' o' k2 t :
  nth_error h l = Some o -> dict_get o k1 = Some (VDict l') ->
  nth_error h l' = Some o' -> dict_get o' k2 = Some (VTensor t) ->
  hgetitem2 l k1 k2 h = Ok (t, h).
Proof.
  intros Hl Hk1 Hl' Hk2. unfold hgetitem2.
  erewrite bind_Ok by (eapply hgetitem_Ok; eauto). simpl.
  unfold bind at 1, ret.
  erewrite bind_Ok by (eapply hgetitem_Ok; eauto). reflexivity.
Qed.

Lemma hsetitem_Ok h l o k v :
  nth_error h l = Some o ->
  hsetitem l k v h = Ok (tt, heap_update h l (dict_set o k v)).
Proof.
  intros Hl. unfold hsetitem, bind, load, store. rewrite Hl. now rewrite Hl.
Qed.

Lemma mapM_pure {A B} (f : A -> M B) (g : A -> B) (xs : list A) h :
  (forall x, In x xs -> f x h = Ok (g x, h)) ->
  mapM f xs h = Ok (map g xs, h).
Proof.
  induction xs as [|x xs IH]; intros Hf; simpl; [reflexivity|].
  erewrite bind_Ok by (apply Hf; now left).
  erewrite bind_Ok by (apply IH; intros; apply Hf; now right).
  reflexivity.
Qed.

Lemma dict_comprehension_pure columns body (g : string -> value) h :
  (forall c, In c columns -> body c h = Ok (g c, h)) ->
  dict_comprehension columns body h
  = Ok (length h, h ++ [dict_of_list (map (fun c => (c, g c)) columns)]).
Proof.
  intros Hb. unfold dict_comprehension.
  erewrite bind_Ok.
  2: { apply mapM_pure with (g := fun c => (c, g c)).
       intros c Hc. erewrite bind_Ok by (apply Hb; exact Hc). reflexivity. }
  reflexivity.
Qed.
End HeapFacts.


(* ================================================================== *)
(** * The cascade                                                       *)
(* ================================================================== *)

Lemma Forall2_nth_l {A B} (P : A -> B -> Prop) l1 l2 i x :
  Forall2 P l1 l2 -> nth_error l1 i = Some x ->
  exists y, nth_error l2 i = Some y /\ P x y.
Proof.
  intros HF. revert i. induction HF as [|a b l1 l2 Hab HF IH]; intros [|i] Hx;
    simpl in *; try discriminate.
  - injection Hx as <-. eauto.
  - eauto.
Qed.

Lemma Forall2_nth_r {A B} (P : A -> B -> Prop) l1 l2 i y :
  Forall2 P l1 l2 -> nth_error l2 i = Some y ->
  exists x, nth_error l1 i = Some x /\ P x y.
Proof.
  intros HF. revert i. induction HF as [|a b l1 l2 Hab HF IH]; intros [|i] Hy;
    simpl in *; try discriminate.
  - injection Hy as <-. eauto.
  - eauto.
Qed.

Lemma Forall2_length' {A B} (P : A -> B -> Prop) l1 l2 :
  Forall2 P l1 l2 -> length l1 = length l2.
Proof. induction 1; simpl; congruence. Qed.

Section CascadeFacts.
Context `{TA : TorchAttention}.
Variables (ini : Init) (tags : list string) (num_labels : NumLabels).
Variables (pos_embeddings proj_dim num_heads : nat) (self : IC2NER).
Hypothesis Hinit :
  IC2NER_init ini tags num_labels pos_embeddings proj_dim num_heads = Ok self.
Hypothesis Hnd : NoDup tags.

Let attn (i : nat) : MultiheadAttention := init_ic2ner_attn ini i proj_dim num_heads.

Lemma init_tags : i2n_tags self = tags.
Proof.
  unfold IC2NER_init in Hinit. destruct (rmapM _ _); [|discriminate].
  simpl in Hinit. now injection Hinit as <-.
Qed.

Lemma init_attn_dict :
  i2n_attn self
  = map (fun ic => (snd ic, attn (fst ic))) (enumerate (removelast tags)).
Proof.
  unfold IC2NER_init in Hinit. destruct (rmapM _ _); [|discriminate].
  simpl in Hinit. injection Hinit as <-. simpl.
  apply dict_of_list_fresh. rewrite map_map. simpl.
  rewrite map_snd_enumerate. now apply NoDup_removelast.
Qed.

Lemma init_attn_keys : dict_keys (i2n_attn self) = removelast tags.
Proof.
  rewrite init_attn_dict. unfold dict_keys. rewrite map_map. simpl.
  apply map_snd_enumerate.
Qed.

Lemma init_attn_get i tag :
  i + 1 < length tags -> nth_error tags i = Some tag ->
  dict_get (i2n_attn self) tag = Some (attn i).
Proof.
  intros Hlt Htag. apply dict_get_nth with (i := i).
  - unfold dict_wf. rewrite init_attn_keys. now apply NoDup_removelast.
  - rewrite init_attn_dict.
    rewrite nth_error_map, (@nth_error_enumerate _ _ i tag); [reflexivity|].
    now rewrite nth_error_removelast.
Qed.

Lemma init_linear_keys : dict_keys (i2n_linear self) = tags.
Proof.
  unfold IC2NER_init in Hinit.
  destruct (rmapM _ _) as [lin|] eqn:Hlin; [|discriminate].
  simpl in Hinit. injection Hinit as <-. simpl.
  apply rmapM_keys with (key := fun ic : nat * string => snd ic)
    (g := fun ic n => init_ic2ner_linear ini (fst ic) pos_embeddings n) in Hlin.
  rewrite map_snd_enumerate in Hlin.
  rewrite dict_of_list_fresh by now rewrite Hlin.
  exact Hlin.
Qed.

Lemma init_linear_get i tag :
  nth_error tags i = Some tag ->
  exists n, dict_get (nl_H_NER num_labels) tag = Some n
            /\ dict_get (i2n_linear self) tag
               = Some (init_ic2ner_linear ini i pos_embeddings n).
Proof.
  intros Htag. pose proof init_linear_keys as Hkeys.
  unfold IC2NER_init in Hinit.
  destruct (rmapM _ _) as [lin|] eqn:Hlin; [|discriminate].
  simpl in Hinit. injection Hinit as <-. simpl in *.
  destruct (rmapM_nth _ _ i Hlin (nth_error_enumerate _ _ Htag)) as (y & Hy & Hny).
  simpl in Hy. unfold dict_getitem in Hy.
  destruct (dict_get (nl_H_NER num_labels) tag) as [n|] eqn:Hn; [|discriminate].
  simpl in Hy. injection Hy as <-.
  exists n. split; [reflexivity|].
  assert (Hfresh : dict_of_list lin = lin).
  { apply dict_of_list_fresh.
    apply rmapM_keys with (key := fun ic : nat * string => snd ic)
    (g := fun ic n => init_ic2ner_linear ini (fst ic) pos_embeddings n) in Hlin.
    rewrite Hlin, map_snd_enumerate. exact Hnd. }
  rewrite Hfresh in *. apply dict_get_nth with (i := i); [|exact Hny].
  unfold dict_wf. now rewrite Hkeys.
Qed.

(** Distinct positions of the hierarchy hold distinct names. *)
Lemma tags_inj i j tag :
  nth_error tags i = Some tag -> nth_error tags j = Some tag -> i = j.
Proof.
  intros Hi Hj. eapply NoDup_nth_error; eauto.
  - apply nth_error_Some. congruence.
  - congruence.
Qed.

(** One turn of the loop. *)
Lemma attn_step_Ok (h : heap) input (oi : obj) ln (d : obj) i tag_i tag_n q kv :
  nth_error h input = Some oi -> dict_get oi "H_NER" = Some (VDict ln) ->
  nth_error h ln = Some d ->
  nth_error tags i = Some tag_i -> nth_error tags (i + 1) = Some tag_n ->
  dict_get d tag_i = Some (VTensor q) -> dict_get d tag_n = Some (VTensor kv) ->
  IC2NER_attn_step self input i h
  = Ok (tt, heap_update h ln
              (dict_set d tag_n (VTensor (fst (mha_forward (attn i) q kv kv))))).
Proof.
  intros Hin Hner Hln Hti Htn Hq Hkv.
  assert (Hlt : i + 1 < length tags) by (apply nth_error_Some; congruence).
  unfold IC2NER_attn_step. rewrite init_tags.
  unfold list_getitem. rewrite Hti, Htn.
  rewrite bind_lift_Ok.
  unfold dict_getitem. erewrite init_attn_get by eassumption.
  rewrite bind_lift_Ok.
  erewrite bind_Ok by (eapply hgetitem2_Ok; eauto).
  rewrite bind_lift_Ok.
  erewrite bind_Ok by (eapply hgetitem2_Ok; eauto).
  erewrite bind_Ok by (eapply hgetitem2_Ok; eauto).
  erewrite bind_Ok by (eapply hgetitem_Ok; eauto).
  unfold as_dict. rewrite bind_ret.
  erewrite hsetitem_Ok by eauto. reflexivity.
Qed.

Lemma length_cascade_spec a i prev rest :
  length (cascade_spec a i prev rest) = length rest.
Proof.
  revert i prev. induction rest as [|x rest IH]; intros i prev; simpl; auto.
Qed.

(** The loop, started at level [k] whose current tensor is [prev], with
    the levels after [k] still holding [rest]. *)
Lemma attn_loop input (oi : obj) ln :
  forall rest k prev (h : heap) (d : obj),
    nth_error h input = Some oi -> dict_get oi "H_NER" = Some (VDict ln) ->
    ln <> input -> nth_error h ln = Some d ->
    (exists tag, nth_error tags k = Some tag
                 /\ dict_get d tag = Some (VTensor prev)) ->
    (forall j x, nth_error rest j = Some x ->
       exists tag, nth_error tags (k + 1 + j) = Some tag
                   /\ dict_get d tag = Some (VTensor x)) ->
    exists d',
      forM_ (seq k (length rest)) (IC2NER_attn_step self input) h
      = Ok (tt, heap_update h ln d')
      /\ dict_keys d' = dict_keys d
      /\ (forall tag, (forall j, k < j -> nth_error tags j <> Some tag) ->
            dict_get d' tag = dict_get d tag)
      /\ (forall j y, nth_error (cascade_spec attn k prev rest) j = Some y ->
            exists tag, nth_error tags (k + 1 + j) = Some tag
                        /\ dict_get d' tag = Some (VTensor y)).
Proof.
  induction rest as [|x rest IH]; intros k prev h d Hin Hner Hne Hln Hprev Hrest.
  - exists d. simpl. unfold ret. rewrite (heap_update_same _ _ Hln).
    repeat split; auto; intros [|j] y; discriminate.
  - destruct Hprev as (tag_k & Htk & Hq).
    destruct (Hrest 0 x eq_refl) as (tag_n & Htn & Hkv).
    rewrite Nat.add_0_r in Htn.
    set (y := fst (mha_forward (attn k) prev x x)).
    set (d1 := dict_set d tag_n (VTensor y)).
    assert (Hlen : ln < length h) by (apply nth_error_Some; congruence).
    assert (Hin1 : nth_error (heap_update h ln d1) input = Some oi)
      by (rewrite heap_update_neq; auto).
    assert (Hln1 : nth_error (heap_update h ln d1) ln = Some d1)
      by now apply heap_update_eq.
    assert (Hprev1 : exists tag, nth_error tags (S k) = Some tag
                                 /\ dict_get d1 tag = Some (VTensor y)).
    { exists tag_n. split; [now rewrite <- Nat.add_1_r|]. apply dict_get_set_eq. }
    assert (Hrest1 : forall j x', nth_error rest j = Some x' ->
              exists tag, nth_error tags (S k + 1 + j) = Some tag
                          /\ dict_get d1 tag = Some (VTensor x')).
    { intros j x' Hx'. destruct (Hrest (S j) x' Hx') as (tag & Ht & Hg).
      exists tag. split; [rewrite <- Ht; f_equal; lia|].
      unfold d1. rewrite dict_get_set_neq; [exact Hg|].
      intros ->. pose proof (tags_inj _ _ Htn Ht). lia. }
    destruct (IH (S k) y (heap_update h ln d1) d1 Hin1 Hner Hne Hln1 Hprev1 Hrest1)
      as (d' & Hrun & Hkeys & Hfix & Hcas).
    exists d'. split; [|split; [|split]].
    + simpl. erewrite bind_Ok by (eapply attn_step_Ok; eauto).
      fold y. fold d1. rewrite Hrun. now rewrite heap_update_twice.
    + rewrite Hkeys. unfold d1. apply dict_keys_set_In.
      destruct (in_dec string_dec tag_n (dict_keys d)) as [Hi|Hni]; [exact Hi|].
      apply dict_get_None in Hni. congruence.
    + intros tag Htag. rewrite Hfix by (intros j Hj; apply Htag; lia).
      unfold d1. apply dict_get_set_neq. intros ->.
      apply (Htag (k + 1)); [lia | exact Htn].
    + intros [|j] y' Hy'; simpl in Hy'.
      * injection Hy' as <-. exists tag_n. split; [now rewrite Nat.add_0_r|].
        rewrite Hfix; [apply dict_get_set_eq|].
        intros j Hj Htj. pose proof (tags_inj _ _ Htn Htj). lia.
      * destruct (Hcas j y' Hy') as (tag & Ht & Hg).
        exists tag. split; [rewrite <- Ht; f_equal; lia | exact Hg].
Qed.
End CascadeFacts.


Lemma Forall2_of_nth {A B} (P : A -> B -> Prop) l1 l2 :
  length l1 = length l2 ->
  (forall i x y, nth_error l1 i = Some x -> nth_error l2 i = Some y -> P x y) ->
  Forall2 P l1 l2.
Proof.
  revert l2. induction l1 as [|a l1 IH]; intros [|b l2] Hlen HP; simpl in *;
    try discriminate; constructor.
  - apply (HP 0); reflexivity.
  - apply IH; [lia|]. intros i x y Hx Hy. apply (HP (S i)); assumption.
Qed.

Section HeapMore.
Context `{TA : TorchAttention}.

Lemma heap_update_app_l (h t : heap) l o :
  l < length h -> heap_update (h ++ t) l o = heap_update h l o ++ t.
Proof.
  revert l. induction h as [|o' h IH]; intros [|l] Hlt; simpl in *; try lia; auto.
  f_equal. apply IH. lia.
Qed.

Lemma heap_update_app_new (h t : heap) o o' :
  heap_update (h ++ o :: t) (length h) o' = h ++ o' :: t.
Proof. induction h as [|o0 h IH]; simpl; [reflexivity|]. now rewrite IH. Qed.
End HeapMore.

Section Run.
Context `{TA : TorchAttention}.
Variables (ini : Init) (tags : list string) (num_labels : NumLabels).
Variables (pos_embeddings proj_dim num_heads : nat) (self : IC2NER).
Hypothesis Hinit :
  IC2NER_init ini tags num_labels pos_embeddings proj_dim num_heads = Ok self.
Hypothesis Hnd : NoDup tags.

Let attn (i : nat) : MultiheadAttention := init_ic2ner_attn ini i proj_dim num_heads.

(** What a call of the cascade returns and what heap it leaves. *)
Lemma IC2NER_forward_run (h : heap) ft (o : obj) ic ln (dn : obj) origs :
  tags <> [] ->
  nth_error h ft = Some o ->
  dict_get o "IC" = Some (VTensor ic) ->
  dict_get o "H_NER" = Some (VDict ln) ->
  nth_error h ln = Some dn ->
  Forall2 (fun tag t => dict_get dn tag = Some (VTensor t)) tags origs ->
  exists d' icd mixd last_ner,
    IC2NER_forward self ft h
    = Ok ((length h + 2, last_ner),
          heap_update h ln d'
          ++ [dict_set o "IC" (VDict (length h + 1)); icd; mixd])
    /\ dict_keys d' = dict_keys dn
    /\ (forall tag, ~ In tag tags -> dict_get d' tag = dict_get dn tag)
    /\ Forall2 (fun tag u => dict_get d' tag = Some (VTensor u))
               tags (hierarchical_attention_spec attn origs)
    /\ nth_error (hierarchical_attention_spec attn origs) (length tags - 1)
       = Some last_ner
    /\ dict_keys icd = tags
    /\ (forall i tag, nth_error tags i = Some tag ->
          exists n, dict_get (nl_H_NER num_labels) tag = Some n
                    /\ dict_get icd tag
                       = Some (VTensor (linear_forward3
                                          (init_ic2ner_linear ini i pos_embeddings n)
                                          (transpose_1_2 ic))))
    /\ dict_keys mixd = tags
    /\ (forall tag a b, In tag tags ->
          dict_get d' tag = Some (VTensor a) ->
          dict_get icd tag = Some (VTensor b) ->
          dict_get mixd tag = Some (VTensor (matmul a b))).
Proof.
  intros Hne Hft Hic Hner Hln Horigs.
  pose proof (Forall2_length' Horigs) as Hlen.
  destruct origs as [|x0 rest]; [destruct tags; [congruence|discriminate]|].
  assert (Hlnlt : ln < length h) by (apply nth_error_Some; congruence).
  set (input := length h).
  set (l_ic := length h + 1).
  set (oi := dict_set o "IC" (VDict l_ic)).
  set (tic := fun c => match dict_get (i2n_linear self) c with
                       | Some lin => linear_forward3 lin (transpose_1_2 ic)
                       | None => ic
                       end).
  set (icd := map (fun c => (c, VTensor (tic c))) tags).
  assert (Hicd_keys : dict_keys icd = tags).
  { unfold icd, dict_keys. rewrite map_map. simpl. apply map_id. }
  assert (Hicd_fresh : dict_of_list icd = icd).
  { apply dict_of_list_fresh. fold (dict_keys icd). now rewrite Hicd_keys. }
  assert (Hicd_get : forall c, In c tags -> dict_get icd c = Some (VTensor (tic c))).
  { intros c Hc. apply dict_get_In.
    - unfold dict_wf. now rewrite Hicd_keys.
    - unfold icd. apply in_map_iff. eauto. }
  (* the heap once [input] is set up *)
  set (h3 := h ++ [oi; icd]).
  assert (Hin3 : nth_error h3 input = Some oi).
  { unfold h3, input. rewrite nth_error_app2 by lia. now rewrite Nat.sub_diag. }
  assert (Hoi_ner : dict_get oi "H_NER" = Some (VDict ln)).
  { unfold oi. rewrite dict_get_set_neq; [exact Hner | discriminate]. }
  assert (Hoi_ic : dict_get oi "IC" = Some (VDict l_ic)) by apply dict_get_set_eq.
  assert (Hln3 : nth_error h3 ln = Some dn).
  { unfold h3. now rewrite nth_error_app1. }
  assert (Hneq : ln <> input) by (unfold input; lia).
  (* the loop *)
  assert (Htags0 : exists t0 trest, tags = t0 :: trest).
  { destruct tags as [|t0 trest]; [congruence|eauto]. }
  destruct Htags0 as (t0 & trest & Htags).
  assert (Hprev : exists tag, nth_error tags 0 = Some tag
                              /\ dict_get dn tag = Some (VTensor x0)).
  { destruct (@Forall2_nth_r _ _ _ _ _ 0 x0 Horigs eq_refl) as (tag & Ht & Hg). eauto. }
  assert (Hrest : forall j x, nth_error rest j = Some x ->
            exists tag, nth_error tags (0 + 1 + j) = Some tag
                        /\ dict_get dn tag = Some (VTensor x)).
  { intros j x Hx.
    destruct (@Forall2_nth_r _ _ _ _ _ (S j) x Horigs Hx) as (tag & Ht & Hg). eauto. }
  destruct (@attn_loop _ _ _ _ _ _ _ _ _ Hinit Hnd input oi ln rest 0 x0 h3 dn
              Hin3 Hoi_ner Hneq Hln3 Hprev Hrest)
    as (d' & Hloop & Hkeys & Hfix & Hcas).
  fold attn in Hcas.
  set (h4 := heap_update h3 ln d') in *.
  assert (Hin4 : nth_error h4 input = Some oi).
  { unfold h4. rewrite heap_update_neq; auto. }
  assert (Hln4 : nth_error h4 ln = Some d').
  { unfold h4. apply heap_update_eq. unfold h3. rewrite length_app. lia. }
  assert (Hic4 : nth_error h4 l_ic = Some icd).
  { unfold h4. rewrite heap_update_neq by (unfold l_ic; lia).
    unfold h3, l_ic. rewrite nth_error_app2 by lia.
    now replace (length h + 1 - length h) with 1 by lia. }
  assert (Hupd : Forall2 (fun tag u => dict_get d' tag = Some (VTensor u))
                   tags (hierarchical_attention_spec attn (x0 :: rest))).
  { apply Forall2_of_nth.
    - simpl. rewrite length_cascade_spec. exact Hlen.
    - intros [|i] tag u Ht Hu; simpl in Hu.
      + injection Hu as <-. destruct Hprev as (tag' & Ht' & Hg').
        assert (tag' = tag) by congruence. subst tag'.
        rewrite Hfix; [exact Hg'|].
        intros j Hj Htj. pose proof (@tags_inj tags Hnd _ _ _ Ht Htj). lia.
      + destruct (Hcas i u Hu) as (tag' & Ht' & Hg').
        change (0 + 1 + i) with (S i) in Ht'. congruence. }
  set (tner := fun c => match dict_get d' c with
                        | Some (VTensor t) => t
                        | _ => ic
                        end).
  assert (Htner : forall c, In c tags -> dict_get d' c = Some (VTensor (tner c))).
  { intros c Hc. apply In_nth_error in Hc. destruct Hc as (i & Hi).
    destruct (Forall2_nth_l _ Hupd Hi) as (u & _ & Hg).
    unfold tner. now rewrite Hg. }
  set (mixd := map (fun c => (c, VTensor (matmul (tner c) (tic c)))) tags).
  assert (Hmix_keys : dict_keys mixd = tags).
  { unfold mixd, dict_keys. rewrite map_map. simpl. apply map_id. }
  assert (Hmix_fresh : dict_of_list mixd = mixd).
  { apply dict_of_list_fresh. fold (dict_keys mixd). now rewrite Hmix_keys. }
  assert (Hlast : exists tag_last, nth_error tags (length tags - 1) = Some tag_last).
  { destruct (nth_error tags (length tags - 1)) eqn:E; [eauto|].
    apply nth_error_None in E. rewrite Htags in E. simpl in E. lia. }
  destruct Hlast as (tag_last & Hlast).
  exists d', icd, mixd, (tner tag_last).
  split; [|repeat split].
  - (* the run *)
    unfold IC2NER_forward. rewrite (@init_tags _ _ _ _ _ _ _ _ _ Hinit).
    erewrite bind_Ok by (unfold load; rewrite Hft; reflexivity).
    erewrite bind_Ok by (unfold alloc; reflexivity).
    fold input.
    assert (Hin1 : nth_error (h ++ [o]) input = Some o) by apply nth_error_alloc_new.
    erewrite bind_Ok.
    2: { apply dict_comprehension_pure with (g := fun c => VTensor (tic c)).
         intros c Hc. apply In_nth_error in Hc. destruct Hc as (i & Hi).
         destruct (@init_linear_get _ _ _ _ _ _ _ _ _ Hinit Hnd _ _ Hi) as (n & _ & Hlin).
         unfold dict_getitem. rewrite Hlin. rewrite bind_lift_Ok.
         erewrite bind_Ok by (eapply hgetitem_Ok; eauto).
         unfold as_tensor. rewrite bind_ret. unfold tic. now rewrite Hlin. }
    fold icd. rewrite Hicd_fresh.
    replace (length (h ++ [o])) with l_ic by (rewrite length_app; reflexivity).
    erewrite bind_Ok.
    2: { apply hsetitem_Ok with (o := o). now rewrite nth_error_app1
           by (rewrite length_app; simpl; unfold input; lia). }
    fold oi.
    match goal with |- bind _ _ ?hh = _ => replace hh with h3 end.
    2: { unfold h3, input. rewrite <- app_assoc. simpl.
         now rewrite heap_update_app_new. }
    replace (length tags - 1) with (length rest) by (simpl in Hlen; lia).
    erewrite bind_Ok by exact Hloop.
    fold h4.
    erewrite bind_Ok.
    2: { apply dict_comprehension_pure
           with (g := fun c => VTensor (matmul (tner c) (tic c))).
         intros c Hc.
         erewrite bind_Ok by (eapply hgetitem2_Ok; eauto).
         erewrite bind_Ok by (eapply hgetitem2_Ok; eauto).
         reflexivity. }
    fold mixd. rewrite Hmix_fresh.
    erewrite bind_Ok.
    2: { eapply hgetitem_Ok with (o := oi); [|exact Hoi_ner].
         rewrite nth_error_app1; [exact Hin4|].
         unfold h4. rewrite length_heap_update. unfold h3, input.
         rewrite length_app. simpl. lia. }
    erewrite list_last_nth by (replace (length rest) with (length tags - 1)
                                 by (simpl in Hlen; lia); exact Hlast).
    rewrite bind_lift_Ok.
    assert (Hlast_in : In tag_last tags) by (eapply nth_error_In; eauto).
    unfold as_dict. rewrite bind_ret.
    erewrite bind_Ok.
    2: { eapply hgetitem_Ok with (o := d'); [|now apply Htner].
         rewrite nth_error_app1; [exact Hln4|].
         unfold h4. rewrite length_heap_update. unfold h3.
         rewrite length_app. simpl. lia. }
    unfold as_tensor. rewrite bind_ret.
    unfold ret. do 2 f_equal.
    + f_equal. unfold h4. rewrite length_heap_update. unfold h3.
      rewrite length_app. simpl. lia.
    + unfold h4, h3. rewrite heap_update_app_l by exact Hlnlt.
      rewrite <- app_assoc. reflexivity.
  - exact Hkeys.
  - intros tag Hni. apply Hfix. intros j _ Htj. apply Hni.
    eapply nth_error_In; eauto.
  - exact Hupd.
  - destruct (Forall2_nth_l _ Hupd Hlast) as (u & Hu & Hg).
    rewrite Hu. f_equal.
    assert (Hlast_in : In tag_last tags) by (eapply nth_error_In; eauto).
    rewrite (Htner _ Hlast_in) in Hg. congruence.
  - exact Hicd_keys.
  - intros i tag Hi.
    destruct (@init_linear_get _ _ _ _ _ _ _ _ _ Hinit Hnd _ _ Hi) as (n & Hn & Hlin).
    exists n. split; [exact Hn|].
    rewrite Hicd_get by (eapply nth_error_In; eauto).
    unfold tic. now rewrite Hlin.
  - exact Hmix_keys.
  - intros tag a b Hin Ha Hb.
    rewrite (Htner _ Hin) in Ha. rewrite (Hicd_get _ Hin) in Hb.
    injection Ha as <-. injection Hb as <-.
    apply dict_get_In.
    + unfold dict_wf. now rewrite Hmix_keys.
    + unfold mixd. apply in_map_iff. eauto.
Qed.
End Run.


Section FoldFacts.
Context `{TA : TorchAttention}.

Lemma cascade_spec_step (a : nat -> MultiheadAttention) :
  forall rest k prev j q kv,
    nth_error (prev :: cascade_spec a k prev rest) j = Some q ->
    nth_error rest j = Some kv ->
    nth_error (cascade_spec a k prev rest) j
    = Some (fst (mha_forward (a (k + j)) q kv kv)).
Proof.
  induction rest as [|x rest IH]; intros k prev [|j] q kv Hq Hkv; simpl in *;
    try discriminate.
  - injection Hq as <-. injection Hkv as <-. now rewrite Nat.add_0_r.
  - rewrite (IH (S k) _ j q kv Hq Hkv). do 4 f_equal. lia.
Qed.

Lemma hierarchical_attention_step (a : nat -> MultiheadAttention) origs i q kv :
  nth_error (hierarchical_attention_spec a origs) i = Some q ->
  nth_error origs (i + 1) = Some kv ->
  nth_error (hierarchical_attention_spec a origs) (i + 1)
  = Some (fst (mha_forward (a i) q kv kv)).
Proof.
  destruct origs as [|x0 rest]; [destruct i; discriminate|].
  rewrite Nat.add_1_r. simpl. intros Hq Hkv.
  now rewrite (cascade_spec_step a rest 0 x0 i Hq Hkv).
Qed.

Lemma length_hierarchical_attention (a : nat -> MultiheadAttention) origs :
  length (hierarchical_attention_spec a origs) = length origs.
Proof. destruct origs; simpl; [reflexivity|]. now rewrite length_cascade_spec. Qed.
End FoldFacts.

Section CascadeClaims.
Context `{TA : TorchAttention}.
Variables (ini : Init) (tags : list string) (num_labels : NumLabels).
Variables (pos_embeddings proj_dim num_heads : nat) (self : IC2NER).

(** C1.  A forward pass of the cascade built for a hierarchy [tags] of
    distinct level names, on a formatted dictionary that holds an IC
    projection and one NER projection per level ([origs], in hierarchy
    order), returns; the projections [upd] it mixes and returns satisfy:
    level 0 is the original one; level [i+1] is the output of the
    attention module created [i]-th, with query the updated level [i] and
    key and value the original level [i+1]; the mix step multiplies
    exactly these by the IC-derived tensors; the returned tensor is the
    last of them; and the modules are keyed by the levels but the last. *)
Theorem C1_attention_stage_is_left_fold
    (h : heap) (ft : loc) (o : obj) (ic : T3) (ln : loc) (dn : obj)
    (origs : list T3) :
  IC2NER_init ini tags num_labels pos_embeddings proj_dim num_heads = Ok self ->
  NoDup tags ->
  tags <> [] ->
  nth_error h ft = Some o ->
  dict_get o "IC" = Some (VTensor ic) ->
  dict_get o "H_NER" = Some (VDict ln) ->
  nth_error h ln = Some dn ->
  Forall2 (fun tag t => dict_get dn tag = Some (VTensor t)) tags origs ->
  exists (upd : list T3) (ner_output : loc) (last_ner : T3) (h' : heap)
         (logits : obj),
    IC2NER_forward self ft h = Ok ((ner_output, last_ner), h')
    /\ length upd = length tags
    /\ nth_error upd 0 = nth_error origs 0
    /\ (forall i q kv,
          nth_error upd i = Some q -> nth_error origs (i + 1) = Some kv ->
          nth_error upd (i + 1)
          = Some (fst (mha_forward
                         (init_ic2ner_attn ini i proj_dim num_heads) q kv kv)))
    /\ nth_error upd (length tags - 1) = Some last_ner
    /\ nth_error h' ner_output = Some logits
    /\ dict_keys logits = tags
    /\ (forall i tag u,
          nth_error tags i = Some tag -> nth_error upd i = Some u ->
          exists n,
            dict_get (nl_H_NER num_labels) tag = Some n
            /\ dict_get logits tag
               = Some (VTensor
                         (matmul u
                            (linear_forward3
                               (init_ic2ner_linear ini i pos_embeddings n)
                               (transpose_1_2 ic)))))
    /\ dict_keys (i2n_attn self) = removelast tags
    /\ length (i2n_attn self) = length tags - 1
    /\ (forall i tag,
          i + 1 < length tags -> nth_error tags i = Some tag ->
          dict_get (i2n_attn self) tag
          = Some (init_ic2ner_attn ini i proj_dim num_heads)).
Proof.
  intros Hinit Hnd Hne Hft Hic Hner Hln Horigs.
  destruct (@IC2NER_forward_run _ _ _ _ _ _ _ _ _ Hinit Hnd h ft o ic ln dn origs
              Hne Hft Hic Hner Hln Horigs)
    as (d' & icd & mixd & last_ner & Hrun & _ & _ & Hupd & Hlast
        & _ & Hicd & Hmk & Hmix).
  set (a := fun i => init_ic2ner_attn ini i proj_dim num_heads) in *.
  exists (hierarchical_attention_spec a origs), (length h + 2), last_ner.
  eexists. exists mixd.
  split; [exact Hrun|].
  split; [rewrite length_hierarchical_attention;
          symmetry; exact (Forall2_length' Horigs)|].
  split; [destruct origs; reflexivity|].
  split; [intros i q kv Hq Hkv;
          exact (@hierarchical_attention_step _ _ a origs i q kv Hq Hkv)|].
  split; [exact Hlast|].
  split.
  { rewrite nth_error_app2 by (rewrite length_heap_update; lia).
    rewrite length_heap_update.
    now replace (length h + 2 - length h) with 2 by lia. }
  split; [exact Hmk|].
  split.
  { intros i tag u Ht Hu.
    destruct (Hicd i tag Ht) as (n & Hn & Hg).
    exists n. split; [exact Hn|].
    destruct (Forall2_nth_l _ Hupd Ht) as (u' & Hu' & Hg').
    assert (u' = u) by congruence. subst u'.
    eapply Hmix; eauto. eapply nth_error_In; eauto. }
  split; [exact (@init_attn_keys _ _ _ _ _ _ _ _ _ Hinit Hnd)|].
  split.
  { rewrite <- length_removelast, <- (@init_attn_keys _ _ _ _ _ _ _ _ _ Hinit Hnd).
    unfold dict_keys. now rewrite length_map. }
  intros i tag Hlt Ht.
  exact (@init_attn_get _ _ _ _ _ _ _ _ _ Hinit Hnd i tag Hlt Ht).
Qed.

(** The caller's dictionaries after a forward pass: the dictionary that
    was passed is as before, but the level dictionary it shares with the
    copy holds the attention output at every level but the first. *)
Lemma IC2NER_forward_frame
    (h : heap) (ft : loc) (o : obj) (ic : T3) (ln : loc) (dn : obj)
    (origs : list T3) :
  IC2NER_init ini tags num_labels pos_embeddings proj_dim num_heads = Ok self ->
  NoDup tags ->
  tags <> [] ->
  nth_error h ft = Some o ->
  dict_get o "IC" = Some (VTensor ic) ->
  dict_get o "H_NER" = Some (VDict ln) ->
  nth_error h ln = Some dn ->
  Forall2 (fun tag t => dict_get dn tag = Some (VTensor t)) tags origs ->
  exists r h' d',
    IC2NER_forward self ft h = Ok (r, h')
    /\ (forall l, l < length h -> l <> ln -> nth_error h' l = nth_error h l)
    /\ nth_error h' ln = Some d'
    /\ Forall2 (fun tag u => dict_get d' tag = Some (VTensor u)) tags
         (hierarchical_attention_spec
            (fun i => init_ic2ner_attn ini i proj_dim num_heads) origs).
Proof.
  intros Hinit Hnd Hne Hft Hic Hner Hln Horigs.
  destruct (@IC2NER_forward_run _ _ _ _ _ _ _ _ _ Hinit Hnd h ft o ic ln dn origs
              Hne Hft Hic Hner Hln Horigs)
    as (d' & icd & mixd & last_ner & Hrun & _ & _ & Hupd & _).
  assert (Hlt : ln < length h) by (apply nth_error_Some; congruence).
  eexists. eexists. exists d'. split; [exact Hrun|]. split; [|split].
  - intros l Hl Hneq. rewrite nth_error_app1 by (rewrite length_heap_update; lia).
    apply heap_update_neq. congruence.
  - rewrite nth_error_app1 by (rewrite length_heap_update; lia).
    now apply heap_update_eq.
  - exact Hupd.
Qed.
End CascadeClaims.


(* ================================================================== *)
(** * The projection layer and the model                                *)
(* ================================================================== *)

Section ModelFacts.
Context `{TA : TorchAttention} `{TR : @Transformers H}.
Variables (ini : Init) (tags : list string).
Hypothesis Hnd : NoDup tags.

Lemma format_linear_dict hidden proj_dim :
  lpf_linear_H_NER (LinearProjFormat_init ini tags hidden proj_dim)
  = map (fun it => (snd it, init_format_H_NER ini (fst it) hidden proj_dim))
        (enumerate tags).
Proof.
  simpl. apply dict_of_list_fresh. rewrite map_map. simpl.
  now rewrite map_snd_enumerate.
Qed.

Lemma format_linear_keys hidden proj_dim :
  dict_keys (lpf_linear_H_NER (LinearProjFormat_init ini tags hidden proj_dim))
  = tags.
Proof.
  rewrite format_linear_dict. unfold dict_keys. rewrite map_map. simpl.
  apply map_snd_enumerate.
Qed.

Lemma format_linear_get hidden proj_dim i tag :
  nth_error tags i = Some tag ->
  dict_get (lpf_linear_H_NER (LinearProjFormat_init ini tags hidden proj_dim)) tag
  = Some (init_format_H_NER ini i hidden proj_dim).
Proof.
  intros Ht. apply dict_get_nth with (i := i).
  - unfold dict_wf. now rewrite format_linear_keys.
  - rewrite format_linear_dict, nth_error_map.
    now rewrite (nth_error_enumerate _ _ Ht).
Qed.

Lemma length_projections hidden proj_dim x :
  length (projections ini tags hidden proj_dim x) = length tags.
Proof. unfold projections. now rewrite length_map, length_enumerate. Qed.

Lemma ner_projections_keys hidden proj_dim x :
  dict_keys (ner_projections ini tags hidden proj_dim x) = tags.
Proof.
  unfold ner_projections, dict_keys.
  assert (Hl : length tags = length (map VTensor (projections ini tags hidden proj_dim x)))
    by now rewrite length_map, length_projections.
  revert Hl. generalize (map VTensor (projections ini tags hidden proj_dim x)).
  clear Hnd. induction tags as [|t ts IH]; intros [|v vs] Hl; simpl in *;
    try discriminate; [reflexivity|].
  f_equal. apply IH. lia.
Qed.

Lemma nth_error_combine {A B} (l1 : list A) (l2 : list B) i x y :
  nth_error l1 i = Some x -> nth_error l2 i = Some y ->
  nth_error (combine l1 l2) i = Some (x, y).
Proof.
  revert l2 i. induction l1 as [|a l1 IH]; intros [|b l2] [|i] Hx Hy;
    simpl in *; try discriminate.
  - congruence.
  - auto.
Qed.

Lemma ner_projections_get hidden proj_dim x :
  Forall2 (fun tag t => dict_get (ner_projections ini tags hidden proj_dim x) tag
                        = Some (VTensor t))
          tags (projections ini tags hidden proj_dim x).
Proof.
  apply Forall2_of_nth; [now rewrite length_projections|].
  intros i tag t Ht Hp. apply dict_get_nth with (i := i).
  - unfold dict_wf. now rewrite ner_projections_keys.
  - unfold ner_projections. apply nth_error_combine; [exact Ht|].
    rewrite nth_error_map, Hp. reflexivity.
Qed.

Lemma LinearProjFormat_forward_run hidden proj_dim x (h : heap) :
  LinearProjFormat_forward (LinearProjFormat_init ini tags hidden proj_dim) x h
  = Ok (length h + 1,
        h ++ [ner_projections ini tags hidden proj_dim x;
              [("IC", VTensor (linear_forward3
                                 (init_format_IC ini hidden proj_dim) x));
               ("H_NER", VDict (length h))]]).
Proof.
  unfold LinearProjFormat_forward.
  set (self := LinearProjFormat_init ini tags hidden proj_dim).
  set (g := fun c => match dict_get (lpf_linear_H_NER self) c with
                     | Some lin => VTensor (linear_forward3 lin x)
                     | None => VTensor x
                     end).
  erewrite bind_Ok.
  2: { apply dict_comprehension_pure with (g := g).
       intros c Hc. apply In_nth_error in Hc. destruct Hc as (i & Hi).
       unfold dict_getitem, g, self.
       rewrite (format_linear_get hidden proj_dim _ Hi).
       now rewrite bind_lift_Ok. }
  assert (Hd : dict_of_list (map (fun c => (c, g c)) tags)
               = ner_projections ini tags hidden proj_dim x).
  { rewrite dict_of_list_fresh by (rewrite map_map; simpl; now rewrite map_id).
    apply nth_error_ext. intros i.
    destruct (nth_error tags i) as [tag|] eqn:Ht.
    - rewrite nth_error_map, Ht. simpl. symmetry.
      unfold ner_projections. apply nth_error_combine; [exact Ht|].
      unfold projections. rewrite !nth_error_map.
      rewrite (nth_error_enumerate _ _ Ht). simpl.
      unfold g, self. now rewrite (format_linear_get hidden proj_dim _ Ht).
    - rewrite nth_error_map, Ht. simpl. symmetry.
      apply nth_error_None. apply nth_error_None in Ht.
      unfold ner_projections. rewrite length_combine. lia. }
  change (lpf_tags self) with tags. rewrite Hd. unfold alloc. simpl lpf_linear_IC.
  rewrite length_app. simpl length. rewrite <- app_assoc. reflexivity.
Qed.
End ModelFacts.


Section ModelClaims.
Context `{TA : TorchAttention} `{TR : @Transformers H}.

(** C9.  The model built from a label-count dictionary uses, as its tag
    hierarchy, the keys of the ['H_NER'] entry in insertion order, and
    nothing else: the projection layer, the cascade and their module
    dictionaries are keyed by it (the attention modules by all levels but
    the last); a forward pass projects, pairs adjacent levels, mixes and
    picks the last level in that order. *)
Theorem C9_hierarchy_order_is_key_order
    (ini : Init) (model_name : string) (num_labels : NumLabels)
    (proj_dim num_heads : nat) (hidden_dropout_prob layer_norm_eps : Float)
    (model : MT_IC_HNER_Model) :
  MT_IC_HNER_Model_init ini model_name num_labels proj_dim num_heads
    hidden_dropout_prob layer_norm_eps = Ok model ->
  dict_wf (nl_H_NER num_labels) ->
  let tags := dict_keys (nl_H_NER num_labels) in
  (forall kvs, NoDup (map fst kvs) -> nl_H_NER num_labels = dict_of_list kvs ->
     tags = map fst kvs)
  /\ m_tags model = tags
  /\ lpf_tags (m_format_layer model) = tags
  /\ dict_keys (lpf_linear_H_NER (m_format_layer model)) = tags
  /\ i2n_tags (m_ic2ner model) = tags
  /\ dict_keys (i2n_linear (m_ic2ner model)) = tags
  /\ dict_keys (i2n_attn (m_ic2ner model)) = removelast tags
  /\ (tags <> [] ->
      forall (input : ModelInput) (h : heap),
      exists out h' ic_logits ner_loc ner_logits last_ner,
        MT_IC_HNER_Model_forward model input h = Ok (out, h')
        /\ nth_error h' out
           = Some [("IC", VLogits ic_logits); ("H_NER", VDict ner_loc)]
        /\ nth_error h' ner_loc = Some ner_logits
        /\ dict_keys ner_logits = tags
        /\ let x := last_hidden_state (m_transformer model)
                      (in_tokens input) (in_attn_mask input) in
           let icp := linear_forward3
                        (init_format_IC ini (m_hidden_size model) proj_dim) x in
           let upd := hierarchical_attention_spec
                        (fun i => init_ic2ner_attn ini i proj_dim num_heads)
                        (projections ini tags (m_hidden_size model) proj_dim x) in
           (forall i tag u,
              nth_error tags i = Some tag -> nth_error upd i = Some u ->
              exists n,
                dict_get (nl_H_NER num_labels) tag = Some n
                /\ dict_get ner_logits tag
                   = Some (VTensor
                             (matmul u
                                (linear_forward3
                                   (init_ic2ner_linear ini i
                                      (m_pos_embeddings model) n)
                                   (transpose_1_2 icp)))))
           /\ nth_error upd (length tags - 1) = Some last_ner
           /\ ic_logits = NER2IC_forward (m_ner2ic model) icp last_ner).
Proof.
  intros Hinit Hwf tags.
  assert (Hnd : NoDup tags) by exact Hwf.
  unfold MT_IC_HNER_Model_init in Hinit.
  destruct (AutoConfig_from_pretrained model_name) as [config|]; [|discriminate].
  simpl in Hinit. fold tags in Hinit.
  set (cfg := config_update config true hidden_dropout_prob layer_norm_eps false) in *.
  destruct (IC2NER_init ini tags num_labels (max_position_embeddings cfg)
              proj_dim num_heads) as [ic2ner|] eqn:Hi2n; [|discriminate].
  simpl in Hinit. injection Hinit as <-. simpl.
  split.
  { intros kvs Hk Heq. unfold tags. rewrite Heq.
    now rewrite dict_of_list_fresh. }
  split; [reflexivity|]. split; [reflexivity|].
  split; [exact (format_linear_keys ini Hnd _ _)|].
  split; [exact (@init_tags _ _ _ _ _ _ _ _ _ Hi2n)|].
  split; [exact (@init_linear_keys _ _ _ _ _ _ _ _ _ Hi2n Hnd)|].
  split; [exact (@init_attn_keys _ _ _ _ _ _ _ _ _ Hi2n Hnd)|].
  intros Hne input h.
  set (x := last_hidden_state (AutoModel_from_config cfg)
              (in_tokens input) (in_attn_mask input)).
  set (icp := linear_forward3 (init_format_IC ini (hidden_size cfg) proj_dim) x).
  set (nerd := ner_projections ini tags (hidden_size cfg) proj_dim x).
  set (fmt := [("IC", VTensor icp); ("H_NER", VDict (length h))] : obj).
  set (h1 := h ++ [nerd; fmt]).
  assert (Hft : nth_error h1 (length h + 1) = Some fmt).
  { unfold h1. rewrite nth_error_app2 by lia.
    now replace (length h + 1 - length h) with 1 by lia. }
  assert (Hln : nth_error h1 (length h) = Some nerd).
  { unfold h1. rewrite nth_error_app2 by lia. now rewrite Nat.sub_diag. }
  destruct (@IC2NER_forward_run _ _ _ _ _ _ _ _ _ Hi2n Hnd h1 (length h + 1) fmt
              icp (length h) nerd
              (projections ini tags (hidden_size cfg) proj_dim x)
              Hne Hft eq_refl eq_refl Hln
              (ner_projections_get ini Hnd _ _ _))
    as (d' & icd & mixd & last_ner & Hrun & _ & _ & Hupd & Hlast
        & _ & Hicd & Hmk & Hmix).
  assert (Hlen1 : length h1 = length h + 2) by (unfold h1; rewrite length_app; simpl; lia).
  set (hf := heap_update h1 (length h) d'
             ++ [dict_set fmt "IC" (VDict (length h1 + 1)); icd; mixd]) in *.
  assert (Hlenf : length hf = length h + 5).
  { unfold hf. rewrite length_app, length_heap_update. simpl. lia. }
  exists (length hf).
  exists (hf ++ [[("IC", VLogits (NER2IC_forward
                                     (NER2IC_init ini num_labels proj_dim)
                                     icp last_ner));
                  ("H_NER", VDict (length h1 + 2))]]).
  exists (NER2IC_forward (NER2IC_init ini num_labels proj_dim) icp last_ner).
  exists (length h1 + 2), mixd, last_ner.
  split.
  { unfold MT_IC_HNER_Model_forward. simpl.
    fold x. unfold bind at 1.
    rewrite (LinearProjFormat_forward_run ini Hnd (hidden_size cfg) proj_dim x h).
    fold icp. fold nerd. fold fmt. fold h1.
    erewrite bind_Ok by exact Hrun. simpl fst. simpl snd.
    erewrite bind_Ok.
    2: { eapply hgetitem_Ok with (o := fmt); [|reflexivity].
         unfold hf. rewrite nth_error_app1 by (rewrite length_heap_update; lia).
         rewrite heap_update_neq by lia. exact Hft. }
    reflexivity. }
  split; [apply nth_error_alloc_new|].
  split.
  { rewrite nth_error_app1 by lia. unfold hf.
    rewrite nth_error_app2 by (rewrite length_heap_update; lia).
    rewrite length_heap_update.
    now replace (length h1 + 2 - length h1) with 2 by lia. }
  split; [exact Hmk|].
  split; [|split; [exact Hlast | reflexivity]].
  intros i tag u Ht Hu.
  destruct (Hicd i tag Ht) as (n & Hn & Hg).
  exists n. split; [exact Hn|].
  destruct (Forall2_nth_l _ Hupd Ht) as (u' & Hu' & Hg').
  assert (u' = u) by congruence. subst u'.
  eapply Hmix; eauto. eapply nth_error_In; eauto.
Qed.
End ModelClaims.


(* ================================================================== *)
(** * The pooling head over exact rationals                             *)
(* ================================================================== *)

Lemma list_as_map_seq {A} (d : A) (l : list A) n :
  length l = n -> l = map (fun i => nth i l d) (seq 0 n).
Proof.
  intros <-. induction l as [|a l IH]; simpl; [reflexivity|].
  f_equal. rewrite <- seq_shift, map_map. exact IH.
Qed.

Lemma map_as_map_seq {A B} (d : A) (f : A -> B) (l : list A) n :
  length l = n -> map f l = map (fun i => f (nth i l d)) (seq 0 n).
Proof.
  intros Hl. rewrite (list_as_map_seq d l Hl) at 1. now rewrite map_map.
Qed.

Lemma combine_as_map_seq {A B} (da : A) (db : B) (a : list A) (b : list B) n :
  length a = n -> length b = n ->
  combine a b = map (fun i => (nth i a da, nth i b db)) (seq 0 n).
Proof.
  intros Ha Hb.
  rewrite (list_as_map_seq (da, db) (combine a b) (n := n))
    by (rewrite length_combine; lia).
  apply map_ext. intros i. apply combine_nth. congruence.
Qed.

Lemma nth_map_seq {A} (f : nat -> A) (d : A) n i :
  i < n -> nth i (map f (seq 0 n)) d = f i.
Proof.
  intros Hi. rewrite (nth_indep _ d (f 0)) by (rewrite length_map, length_seq; exact Hi).
  rewrite (map_nth f (seq 0 n) 0 i). now rewrite seq_nth.
Qed.

Lemma combine_map_map {A B C D} (f : A -> C) (g : B -> D) (a : list A) (b : list B) :
  combine (map f a) (map g b)
  = map (fun ab => (f (fst ab), g (snd ab))) (combine a b).
Proof.
  revert b. induction a as [|x a IH]; intros [|y b]; simpl; try reflexivity.
  now rewrite IH.
Qed.

Module QTFacts.
Import QT.
Local Open Scope Qc_scope.

Lemma Forall_nth_shape (m : list (list Qc)) r c i :
  shape2 m r c -> (i < r)%nat -> length (nth i m []) = c.
Proof.
  intros [Hl HF] Hi. rewrite Forall_forall in HF. apply HF.
  apply nth_In. lia.
Qed.

Lemma shape3_nth (t : list (list (list Qc))) b r c i :
  shape3 t b r c -> (i < b)%nat -> shape2 (nth i t []) r c.
Proof.
  intros [Hl HF] Hi. rewrite Forall_forall in HF. apply HF.
  apply nth_In. lia.
Qed.

Lemma ncols_shape (m : list (list Qc)) r c :
  shape2 m r c -> (0 < r)%nat -> ncols m = c.
Proof.
  intros Hs Hr. unfold ncols.
  replace (hd [] m) with (nth 0 m []) by (destruct m; reflexivity).
  now apply Forall_nth_shape with (r := r).
Qed.

Lemma avg_as_Sum (v : list Qc) n :
  length v = n -> avg v = Sum n (fun i => at1 v i) / of_nat n.
Proof.
  intros Hl. unfold avg, Sum, at1. rewrite Hl.
  now rewrite <- (list_as_map_seq 0 v Hl).
Qed.

Lemma dot_as_Sum (u v : list Qc) n :
  length u = n -> length v = n ->
  dot u v = Sum n (fun i => at1 u i * at1 v i).
Proof.
  intros Hu Hv. unfold dot, Sum, at1.
  rewrite (combine_as_map_seq 0 0 u v Hu Hv), map_map. reflexivity.
Qed.

(** The column means of a matrix with at least one row. *)
Lemma col_means_as_Sum (m : list (list Qc)) r c :
  shape2 m r c -> (0 < r)%nat ->
  col_means m = map (fun j => Sum r (fun i => at2 m i j) / of_nat r) (seq 0 c).
Proof.
  intros Hs Hr. unfold col_means, columns.
  rewrite (ncols_shape Hs Hr), map_map.
  apply map_ext. intros j.
  assert (Hl : length (column m j) = r).
  { unfold column. rewrite length_map. apply Hs. }
  rewrite (avg_as_Sum _ Hl). f_equal. unfold Sum. f_equal.
  apply map_ext. intros i. unfold at1, at2, at1, column.
  destruct Hs as [Hlen _].
  rewrite (map_as_map_seq [] (fun r0 => nth j r0 0) m Hlen).
  destruct (Nat.lt_ge_cases i r) as [Hi|Hi].
  - now rewrite nth_map_seq.
  - rewrite nth_overflow by (rewrite length_map, length_seq; lia).
    rewrite (nth_overflow m) by lia. now destruct j.
Qed.

(** The product of a column vector and a row vector is their outer
    product. *)
Lemma matmul2_outer (u v : list Qc) :
  matmul2 (map (fun a => [a]) u) [v]
  = map (fun a => map (fun j => a * at1 v j) (seq 0 (length v))) u.
Proof.
  unfold matmul2, columns, ncols. simpl hd. rewrite map_map.
  apply map_ext. intros a. rewrite map_map. apply map_ext. intros j.
  unfold column, dot, sum, at1. simpl. ring.
Qed.
End QTFacts.


Module PoolingClaim.
Import QT QTFacts.
Local Open Scope Qc_scope.

Lemma Sum_ext n (f g : nat -> Qc) :
  (forall i, (i < n)%nat -> f i = g i) -> Sum n f = Sum n g.
Proof.
  intros Hfg. unfold Sum. f_equal. apply map_ext_in.
  intros i Hi. apply in_seq in Hi. apply Hfg. lia.
Qed.

(** One example: the pooled vector, entry by entry. *)
Lemma pooled_vector (icb nerb : list (list Qc)) P D :
  shape2 icb P D -> shape2 nerb P D -> (0 < P)%nat ->
  col_means (matmul2 (map (fun r => [avg r]) icb) [col_means nerb])
  = map (fun d =>
           Sum P (fun p => (Sum D (fun c => at2 icb p c) / of_nat D)
                           * (Sum P (fun p' => at2 nerb p' d) / of_nat P))
           / of_nat P)
        (seq 0 D).
Proof.
  intros Hic Hner HP.
  rewrite <- (map_map avg (fun a => [a]) icb).
  rewrite matmul2_outer.
  rewrite (col_means_as_Sum Hner HP).
  set (v := map (fun j => Sum P (fun i => at2 nerb i j) / of_nat P) (seq 0 D)).
  assert (Hv : length v = D) by (unfold v; now rewrite length_map, length_seq).
  rewrite Hv.
  set (F := fun a : Qc => map (fun j => a * at1 v j) (seq 0 D)).
  assert (HlenM : length (map F (map avg icb)) = P).
  { rewrite !length_map. apply Hic. }
  assert (HM : shape2 (map F (map avg icb)) P D).
  { split; [exact HlenM|]. apply Forall_forall. intros row Hrow.
    apply in_map_iff in Hrow. destruct Hrow as (a & <- & _).
    unfold F. now rewrite length_map, length_seq. }
  rewrite (col_means_as_Sum HM HP).
  apply map_ext_in. intros d Hd. apply in_seq in Hd.
  f_equal. apply Sum_ext. intros p Hp.
  unfold at2 at 1.
  rewrite map_map.
  rewrite (map_as_map_seq [] (fun x => F (avg x)) icb (proj1 Hic)).
  rewrite nth_map_seq by exact Hp.
  unfold F, at1 at 1. rewrite nth_map_seq by lia.
  f_equal.
  - rewrite (avg_as_Sum _ (Forall_nth_shape Hic Hp)). reflexivity.
  - unfold v, at1. now rewrite nth_map_seq by lia.
Qed.

Lemma linear_vec_as_Sum (l : linear) (x : list Qc) D n_ic :
  length x = D -> shape2 (weight l) n_ic D -> length (bias l) = n_ic ->
  linear_vec l x
  = map (fun o => Sum D (fun d => at1 x d * at2 (weight l) o d) + at1 (bias l) o)
        (seq 0 n_ic).
Proof.
  intros Hx HW Hb. unfold linear_vec.
  rewrite (combine_as_map_seq [] 0 (weight l) (bias l) (proj1 HW) Hb), map_map.
  apply map_ext_in. intros o Ho. apply in_seq in Ho. simpl.
  rewrite (dot_as_Sum x (nth o (weight l) []) Hx)
    by (apply Forall_nth_shape with (r := n_ic); [exact HW | lia]).
  reflexivity.
Qed.

(** C2.  On an IC projection and a final-level NER projection of shape
    batch x positions x proj_dim, the pooling head returns, for every
    example [b] and IC label [o], the linear map's row [o] applied to the
    vector whose entry [d] is the mean over positions [p] of
    (mean over channels of ic[b][p]) * (mean over positions of ner[b][.][d]),
    plus the bias: one logit vector per example. *)
Theorem C2_pooling_head_formula
    (l : linear) (ic ner : list (list (list Qc))) (B P D n_ic : nat) :
  (0 < P)%nat -> (0 < D)%nat ->
  shape3 ic B P D -> shape3 ner B P D ->
  shape2 (weight l) n_ic D -> length (bias l) = n_ic ->
  @NER2IC_forward QTorch {| n2i_linear := l |} ic ner
  = pooling_spec l ic ner B P D n_ic.
Proof.
  intros HP HD Hic Hner HW Hb.
  unfold NER2IC_forward. simpl.
  unfold linear2, mean_1, matmul3, mean_last_keep, mean_1_keep, pooling_spec.
  rewrite combine_map_map, !map_map. simpl.
  rewrite (combine_as_map_seq [] [] ic ner (proj1 Hic) (proj1 Hner)), map_map.
  apply map_ext_in. intros b Hb'. apply in_seq in Hb'. simpl.
  assert (Hicb : shape2 (nth b ic []) P D) by (apply (shape3_nth Hic); lia).
  assert (Hnerb : shape2 (nth b ner []) P D) by (apply (shape3_nth Hner); lia).
  rewrite (pooled_vector Hicb Hnerb HP).
  rewrite (@linear_vec_as_Sum l _ D n_ic) by
    (try assumption; now rewrite length_map, length_seq).
  apply map_ext. intros o. f_equal. apply Sum_ext. intros d Hd.
  unfold at1 at 1. rewrite nth_map_seq by exact Hd.
  reflexivity.
Qed.
End PoolingClaim.

Lemma C2_pooling_head_formula_witness :
  @NER2IC_forward QTorch {| n2i_linear := PoolingRun.head |}
    PoolingRun.ic PoolingRun.ner
  = QT.pooling_spec PoolingRun.head PoolingRun.ic PoolingRun.ner 1 2 2 2.
Proof.
  apply PoolingClaim.C2_pooling_head_formula.
  - lia.
  - lia.
  - split; [reflexivity|]. repeat constructor.
  - split; [reflexivity|]. repeat constructor.
  - split; [reflexivity|]. repeat constructor.
  - reflexivity.
Defined.

(** The pooled logits of the example: position means 2 and 3 of the IC
    projection, channel means 3 and 3 of the NER tensor, pooled vector
    (15/2, 15/2), logits 15/2 and 16. *)
Example pooling_head_example :
  map (map this)
      (@NER2IC_forward QTorch {| n2i_linear := PoolingRun.head |}
         PoolingRun.ic PoolingRun.ner)
  = [[15 # 2; 16 # 1]]%Q.
Proof. vm_compute. reflexivity. Qed.


(* ================================================================== *)
(** * Sorted lists of distinct elements                                 *)
(* ================================================================== *)

Section UniqueFacts.
Context {A : Type} (ltb : A -> A -> bool).
Hypothesis ltb_irrefl : forall x, ltb x x = false.
Hypothesis ltb_trans :
  forall x y z, ltb x y = true -> ltb y z = true -> ltb x z = true.
Hypothesis ltb_total :
  forall x y, ltb x y = false -> ltb y x = false -> x = y.

Let lt (x y : A) : Prop := ltb x y = true.

Lemma In_uinsert x z l : In z (uinsert ltb x l) <-> z = x \/ In z l.
Proof.
  induction l as [|y l IH]; simpl.
  - intuition.
  - destruct (ltb x y) eqn:Hxy; simpl; [intuition|].
    destruct (ltb y x) eqn:Hyx; simpl.
    + rewrite IH. intuition.
    + rewrite (ltb_total Hxy Hyx). intuition.
Qed.

Lemma In_unique z l : In z (unique ltb l) <-> In z l.
Proof.
  induction l as [|x l IH]; simpl; [tauto|].
  rewrite In_uinsert, IH. intuition.
Qed.

Lemma uinsert_sorted x l :
  StronglySorted lt l -> StronglySorted lt (uinsert ltb x l).
Proof.
  induction 1 as [|y l Hs IH Hall]; simpl.
  - repeat constructor.
  - destruct (ltb x y) eqn:Hxy.
    + constructor; [now constructor|]. constructor; [exact Hxy|].
      eapply Forall_impl; [|exact Hall]. intros z Hz.
      exact (ltb_trans Hxy Hz).
    + destruct (ltb y x) eqn:Hyx; [|now constructor].
      constructor; [exact IH|]. apply Forall_forall. intros z Hz.
      apply In_uinsert in Hz. destruct Hz as [->|Hz]; [exact Hyx|].
      rewrite Forall_forall in Hall. now apply Hall.
Qed.

Lemma unique_sorted l : StronglySorted lt (unique ltb l).
Proof.
  induction l as [|x l IH]; simpl; [constructor|]. now apply uinsert_sorted.
Qed.

Lemma sorted_NoDup l : StronglySorted lt l -> NoDup l.
Proof.
  induction 1 as [|y l Hs IH Hall]; constructor; [|exact IH].
  intros Hin. rewrite Forall_forall in Hall. specialize (Hall y Hin).
  unfold lt in Hall. now rewrite ltb_irrefl in Hall.
Qed.

Lemma unique_NoDup l : NoDup (unique ltb l).
Proof. apply sorted_NoDup, unique_sorted. Qed.

(** Two sorted lists with the same elements are the same list. *)
Lemma sorted_ext l1 l2 :
  StronglySorted lt l1 -> StronglySorted lt l2 ->
  (forall z, In z l1 <-> In z l2) -> l1 = l2.
Proof.
  intros H1. revert l2. induction H1 as [|x l1 Hs1 IH Hall1]; intros l2 H2 Hin.
  - destruct l2 as [|y l2]; [reflexivity|].
    exfalso. apply (Hin y). now left.
  - destruct H2 as [|y l2 Hs2 Hall2].
    + exfalso. apply (Hin x). now left.
    + rewrite Forall_forall in Hall1, Hall2.
      assert (Hxy : x = y).
      { destruct (proj1 (Hin x) (or_introl eq_refl)) as [Hy|Hx2]; [now symmetry|].
        destruct (proj2 (Hin y) (or_introl eq_refl)) as [Hx|Hy1]; [exact Hx|].
        pose proof (Hall2 x Hx2) as Hyx. pose proof (Hall1 y Hy1) as Hxy.
        unfold lt in *. pose proof (ltb_trans Hxy Hyx) as Hxx.
        now rewrite ltb_irrefl in Hxx. }
      subst y. f_equal. apply IH; [exact Hs2|].
      intros z. split; intros Hz.
      * destruct (proj1 (Hin z) (or_intror Hz)) as [Hzx|Hz2]; [|exact Hz2].
        subst z. pose proof (Hall1 x Hz) as Hxx. unfold lt in Hxx.
        now rewrite ltb_irrefl in Hxx.
      * destruct (proj2 (Hin z) (or_intror Hz)) as [Hzx|Hz1]; [|exact Hz1].
        subst z. pose proof (Hall2 x Hz) as Hxx. unfold lt in Hxx.
        now rewrite ltb_irrefl in Hxx.
Qed.

Lemma unique_ext l l' :
  (forall z, In z l <-> In z l') -> unique ltb l = unique ltb l'.
Proof.
  intros Hin. apply sorted_ext; try apply unique_sorted.
  intros z. now rewrite !In_unique.
Qed.

Lemma unique_Permutation l l' :
  Permutation l l' -> unique ltb l = unique ltb l'.
Proof.
  intros Hp. apply unique_ext. intros z. split; apply Permutation_in;
    [exact Hp | now apply Permutation_sym].
Qed.
End UniqueFacts.

Lemma string_compare_OT a b : String.compare a b = String_as_OT.compare a b.
Proof.
  revert b. induction a as [|c a IH]; intros [|c' b]; reflexivity.
Qed.

Lemma string_ltb_lt x y : String.ltb x y = true <-> String_as_OT.lt x y.
Proof.
  unfold String.ltb, String_as_OT.lt.
  pose proof (string_compare_OT x y) as E.
  destruct (String.compare x y); rewrite <- E; split; congruence.
Qed.

Lemma string_ltb_irrefl x : String.ltb x x = false.
Proof.
  destruct (String.ltb x x) eqn:E; [|reflexivity].
  apply string_ltb_lt in E.
  exfalso. exact (StrictOrder_Irreflexive (R := String_as_OT.lt) x E).
Qed.

Lemma string_ltb_trans x y z :
  String.ltb x y = true -> String.ltb y z = true -> String.ltb x z = true.
Proof.
  rewrite !string_ltb_lt.
  exact (StrictOrder_Transitive (R := String_as_OT.lt) x y z).
Qed.

Lemma string_ltb_total x y :
  String.ltb x y = false -> String.ltb y x = false -> x = y.
Proof.
  unfold String.ltb. rewrite (String.compare_antisym y x).
  intros Hxy Hyx.
  destruct (String.compare x y) eqn:E; simpl in *; try discriminate.
  now apply String.compare_eq_iff.
Qed.

Lemma Z_ltb_irrefl x : Z.ltb x x = false.
Proof. apply Z.ltb_irrefl. Qed.

Lemma Z_ltb_trans x y z : Z.ltb x y = true -> Z.ltb y z = true -> Z.ltb x z = true.
Proof. rewrite !Z.ltb_lt. lia. Qed.

Lemma Z_ltb_total x y : Z.ltb x y = false -> Z.ltb y x = false -> x = y.
Proof. rewrite !Z.ltb_ge. lia. Qed.


(* ================================================================== *)
(** * The inference pass of the evaluator                               *)
(* ================================================================== *)

Lemma rmapM_Forall2 {A B} (f : A -> result B) l r :
  rmapM f l = Ok r -> Forall2 (fun x y => f x = Ok y) l r.
Proof.
  revert r. induction l as [|a l IH]; intros r Hr; simpl in Hr.
  - injection Hr as <-. constructor.
  - destruct (f a) as [b|] eqn:Hfa; [|discriminate]. simpl in Hr.
    destruct (rmapM f l) as [bs|]; [|discriminate]. simpl in Hr.
    injection Hr as <-. constructor; auto.
Qed.

Lemma concat_firstn_1 (rows : list (list Z)) :
  Forall (fun r => 1 <= length r) rows ->
  concat (map (firstn 1) rows) = map (fun r => nth 0 r 0%Z) rows.
Proof.
  induction 1 as [|r rows Hr _ IH]; [reflexivity|].
  destruct r as [|x r]; [simpl in Hr; lia|].
  cbn [map concat]. rewrite IH. reflexivity.
Qed.




Section ArgmaxFacts.
Context {S : Type} (ltb : S -> S -> bool).



End ArgmaxFacts.

Section InferenceClaims.
Context `{SC : Scorer} `{EM : EvalModel}.


End InferenceClaims.



Section DecodingClaims.
Context `{SC : Scorer} `{EM : EvalModel}.




End DecodingClaims.


(* ================================================================== *)
(** * Aggregation                                                       *)
(* ================================================================== *)

Lemma concatenate1_inv {A} (arrays : list (ndarray A)) xs :
  concatenate1 arrays = Ok xs ->
  arrays = map Nd1 (map items arrays) /\ xs = concat (map items arrays).
Proof.
  revert xs. induction arrays as [|a arrays IH]; intros xs Hc; simpl in Hc.
  - injection Hc as <-. auto.
  - destruct a as [x|l|t]; try discriminate.
    destruct (concatenate1 arrays) as [ys|]; [|discriminate].
    simpl in Hc. injection Hc as <-.
    destruct (IH ys eq_refl) as (Ha & Hy). simpl. split; congruence.
Qed.

Lemma concatenate2_inv {A} c (arrays : list (ndarray A)) rs :
  concatenate2 c arrays = Ok rs ->
  Forall (fun a => exists t, a = Nd2 t /\ t_ncols t = c) arrays
  /\ rs = concat (map rows_of arrays).
Proof.
  revert rs. induction arrays as [|a arrays IH]; intros rs Hc; simpl in Hc.
  - injection Hc as <-. auto.
  - destruct a as [x|l|t]; try discriminate.
    destruct (Nat.eqb_spec (t_ncols t) c) as [E|E]; [|discriminate].
    destruct (concatenate2 c arrays) as [ys|]; [|discriminate].
    simpl in Hc. injection Hc as <-.
    destruct (IH ys eq_refl) as (Ha & Hy). simpl. split; [|congruence].
    constructor; eauto.
Qed.

Lemma concatenate1_Ok {A} (chunks : list (list A)) :
  concatenate1 (map Nd1 chunks) = Ok (concat chunks).
Proof.
  induction chunks as [|l chunks IH]; simpl; [reflexivity|]. now rewrite IH.
Qed.

Lemma concatenate2_Ok {A} c (arrays : list (ndarray A)) :
  Forall (fun a => exists t, a = Nd2 t /\ t_ncols t = c) arrays ->
  concatenate2 c arrays = Ok (concat (map rows_of arrays)).
Proof.
  induction 1 as [|a arrays (t & -> & Hc) _ IH]; simpl; [reflexivity|].
  rewrite Hc, Nat.eqb_refl, IH. reflexivity.
Qed.

(** Concatenating rank-1 arrays: all of them are rank 1, and the result
    lists their items. *)
Lemma concatenate_Nd1_inv {A} (arrays : list (ndarray A)) xs :
  concatenate arrays = Ok (Nd1 xs) ->
  arrays <> [] /\ arrays = map Nd1 (map items arrays)
  /\ xs = concat (map items arrays).
Proof.
  unfold concatenate. destruct arrays as [|a rest]; [discriminate|].
  destruct a as [x|l|t]; try discriminate.
  - destruct (concatenate1 (Nd1 l :: rest)) as [ys|] eqn:E; [|discriminate].
    intros Hc. simpl in Hc. injection Hc as <-. split; [discriminate|].
    exact (concatenate1_inv _ E).
  - destruct (concatenate2 _ _); simpl; discriminate.
Qed.

Lemma concatenate_Nd2_inv {A} (arrays : list (ndarray A)) t :
  concatenate arrays = Ok (Nd2 t) ->
  arrays <> []
  /\ Forall (fun a => exists t', a = Nd2 t' /\ t_ncols t' = t_ncols t) arrays
  /\ t_rows t = concat (map rows_of arrays).
Proof.
  unfold concatenate. destruct arrays as [|a rest]; [discriminate|].
  destruct a as [x|l|t0]; try discriminate.
  - destruct (concatenate1 _); simpl; discriminate.
  - destruct (concatenate2 (t_ncols t0) (Nd2 t0 :: rest)) as [rs|] eqn:E;
      [|discriminate].
    intros Hc. simpl in Hc. injection Hc as <-. split; [discriminate|].
    exact (concatenate2_inv _ _ E).
Qed.

Lemma concatenate_Nd1_Ok {A} (chunks : list (list A)) :
  chunks <> [] -> concatenate (map Nd1 chunks) = Ok (Nd1 (concat chunks)).
Proof.
  intros Hne. destruct chunks as [|l chunks]; [congruence|].
  unfold concatenate. cbn [map].
  change (Nd1 l :: map Nd1 chunks) with (map (@Nd1 A) (l :: chunks)).
  now rewrite concatenate1_Ok.
Qed.

Lemma concatenate_Nd2_Ok {A} c (arrays : list (ndarray A)) :
  arrays <> [] ->
  Forall (fun a => exists t, a = Nd2 t /\ t_ncols t = c) arrays ->
  concatenate arrays = Ok (Nd2 (mk_tensor2 c (concat (map rows_of arrays)))).
Proof.
  intros Hne Hall. destruct arrays as [|a rest]; [congruence|].
  pose proof Hall as Hall'. inversion Hall as [|? ? (t & -> & Hc) _]; subst.
  unfold concatenate. rewrite (concatenate2_Ok Hall'). reflexivity.
Qed.

(** ** Boolean masks *)

Lemma length_lang_mask la lang : length (lang_mask la lang) = length la.
Proof. unfold lang_mask. apply length_map. Qed.

Lemma select_map {A B} (f : A -> B) mask (l : list A) :
  select mask (map f l) = map f (select mask l).
Proof.
  revert l. induction mask as [|m mask IH]; intros [|x l]; simpl; try reflexivity.
  destruct m; simpl; now rewrite IH.
Qed.

Lemma select_filter {A} (p : A -> bool) (l : list A) :
  select (map p l) l = filter p l.
Proof.
  induction l as [|x l IH]; simpl; [reflexivity|].
  destruct (p x); now rewrite IH.
Qed.


Lemma length_select_mask {A B} mask (l : list A) (l' : list B) :
  length mask = length l -> length mask = length l' ->
  length (select mask l) = length (select mask l').
Proof.
  revert l l'. induction mask as [|m mask IH]; intros [|x l] [|y l'] Hl Hl';
    simpl in *; try discriminate; [reflexivity|].
  destruct m; simpl; rewrite (IH l l') by lia; reflexivity.
Qed.

Lemma filter_map_S (f : nat -> bool) (l : list nat) :
  filter f (map S l) = map S (filter (fun i => f (S i)) l).
Proof.
  induction l as [|i l IH]; simpl; [reflexivity|].
  destruct (f (S i)); simpl; now rewrite IH.
Qed.

Section TakeFacts.
Context {A : Type}.

Lemma take_map_S (idxs : list nat) (x : A) (l : list A) :
  take (map S idxs) (x :: l) = take idxs l.
Proof.
  unfold take. induction idxs as [|i idxs IH]; simpl; [reflexivity|].
  now rewrite IH.
Qed.

Lemma lang_examples_cons (a : string) la lang :
  lang_examples (a :: la) lang
  = (if String.eqb a lang then [0] else []) ++ map S (lang_examples la lang).
Proof.
  unfold lang_examples. cbn [length seq filter nth_error].
  rewrite <- seq_shift, filter_map_S.
  destruct (String.eqb a lang); reflexivity.
Qed.

(** Selecting by the mask of a language takes the examples of that
    language. *)
Lemma select_take la lang (l : list A) :
  length l = length la ->
  select (lang_mask la lang) l = take (lang_examples la lang) l.
Proof.
  revert l. induction la as [|a la IH]; intros [|x l] Hl; simpl in Hl;
    try discriminate; [reflexivity|].
  rewrite lang_examples_cons. cbn [lang_mask map select].
  fold (lang_mask la lang).
  unfold take at 1. rewrite flat_map_app. fold (take (map S (lang_examples la lang)) (x :: l)).
  rewrite take_map_S, <- IH by lia.
  destruct (String.eqb a lang); reflexivity.
Qed.
End TakeFacts.

Lemma In_lang_examples la lang i :
  In i (lang_examples la lang) <-> nth_error la i = Some lang.
Proof.
  unfold lang_examples. rewrite filter_In, in_seq. split.
  - intros [_ H]. destruct (nth_error la i) as [l|]; [|discriminate].
    apply String.eqb_eq in H. now subst.
  - intros H. split.
    + assert (i < length la) by (apply nth_error_Some; congruence). lia.
    + rewrite H. apply String.eqb_refl.
Qed.

Section AggregateFacts.
Context `{SC : Scorer}.

Lemma five_metrics_None (icl ico : list Z) (gold pred : tensor2 pyobj) :
  length icl = length ico ->
  five_metrics None (Nd1 icl) (Nd1 ico) (Nd2 gold) (Nd2 pred)
  = Ok (metrics_of icl ico (t_rows gold) (t_rows pred)).
Proof.
  intros Hl. unfold five_metrics, restrict, accuracy_score, f1_score_macro,
    as_rows, metrics_of. simpl.
  rewrite (proj2 (Nat.eqb_eq _ _) Hl). simpl.
  destruct (computeF1Score (t_rows pred) (t_rows gold)) as [[a b] c].
  reflexivity.
Qed.

Lemma five_metrics_Some mask (icl ico : list Z) (gold pred : tensor2 pyobj) :
  length mask = length icl -> length mask = length ico ->
  length mask = length (t_rows gold) -> length mask = length (t_rows pred) ->
  five_metrics (Some mask) (Nd1 icl) (Nd1 ico) (Nd2 gold) (Nd2 pred)
  = Ok (metrics_of (select mask icl) (select mask ico)
                   (select mask (t_rows gold)) (select mask (t_rows pred))).
Proof.
  intros H1 H2 H3 H4.
  unfold five_metrics, restrict, bool_index, accuracy_score, f1_score_macro,
    as_rows, metrics_of. simpl.
  rewrite <- H1, <- H2, <- H3, <- H4, !Nat.eqb_refl. simpl.
  rewrite (length_select_mask mask icl ico H1 H2), Nat.eqb_refl. simpl.
  destruct (computeF1Score _ _) as [[a b] c]. reflexivity.
Qed.

Lemma five_metrics_None_inv ICL ICO NL NO g :
  five_metrics None ICL ICO NL NO = Ok g ->
  exists icl ico gold pred,
    ICL = Nd1 icl /\ ICO = Nd1 ico /\ NL = Nd2 gold /\ NO = Nd2 pred
    /\ length icl = length ico.
Proof.
  unfold five_metrics, restrict. simpl.
  destruct ICL as [x|icl|t]; try discriminate.
  destruct ICO as [y|ico|t']; try discriminate.
  simpl. destruct (Nat.eqb_spec (length icl) (length ico)) as [E|E];
    [|discriminate]. simpl.
  destruct NO as [z|l|pred]; try discriminate.
  destruct NL as [z|l|gold]; try discriminate.
  intros _. exists icl, ico, gold, pred. auto.
Qed.

Lemma five_metrics_Some_inv mask icl ico gold pred m :
  five_metrics (Some mask) (Nd1 icl) (Nd1 ico) (Nd2 gold) (Nd2 pred) = Ok m ->
  length mask = length icl /\ length mask = length ico
  /\ length mask = length (t_rows gold) /\ length mask = length (t_rows pred).
Proof.
  unfold five_metrics, restrict, bool_index.
  destruct (Nat.eqb_spec (length mask) (length icl)) as [E1|E1]; [|discriminate].
  destruct (Nat.eqb_spec (length mask) (length ico)) as [E2|E2]; [|discriminate].
  cbn [rbind].
  destruct (accuracy_score _ _); [|discriminate]. cbn [rbind].
  destruct (f1_score_macro _ _); [|discriminate]. cbn [rbind].
  destruct (Nat.eqb_spec (length mask) (length (t_rows pred))) as [E3|E3];
    [|discriminate].
  destruct (Nat.eqb_spec (length mask) (length (t_rows gold))) as [E4|E4];
    [|discriminate].
  auto.
Qed.

Lemma language_loop_inv la ICL ICO NL NO :
  forall langs acc lm,
    language_loop langs la ICL ICO NL NO acc = Ok lm ->
    NoDup langs ->
    (forall l, In l langs -> ~ In l (dict_keys acc)) ->
    exists ms,
      lm = acc ++ combine langs ms
      /\ Forall2 (fun l m =>
                    five_metrics (Some (lang_mask la l)) ICL ICO NL NO = Ok m)
                 langs ms.
Proof.
  induction langs as [|lang langs IH]; intros acc lm Hrun Hnd Hfresh;
    simpl in Hrun.
  - injection Hrun as <-. exists []. rewrite app_nil_r. auto.
  - destruct (five_metrics _ _ _ _ _) as [m|] eqn:Hm; [|discriminate].
    simpl in Hrun. inversion Hnd as [|? ? Hni Hnd']; subst.
    rewrite dict_set_new in Hrun by (apply Hfresh; now left).
    destruct (IH _ _ Hrun Hnd') as (ms & Hlm & HF).
    + intros l Hl. unfold dict_keys. rewrite map_app, in_app_iff. simpl.
      intros [Hin|[<-|[]]]; [|contradiction].
      apply (Hfresh l); [now right | exact Hin].
    + exists (m :: ms). split; [|constructor; assumption].
      rewrite Hlm, <- app_assoc. reflexivity.
Qed.

Lemma language_loop_Ok la ICL ICO NL NO :
  forall langs ms acc,
    NoDup langs ->
    (forall l, In l langs -> ~ In l (dict_keys acc)) ->
    Forall2 (fun l m =>
               five_metrics (Some (lang_mask la l)) ICL ICO NL NO = Ok m)
            langs ms ->
    language_loop langs la ICL ICO NL NO acc = Ok (acc ++ combine langs ms).
Proof.
  induction langs as [|lang langs IH]; intros ms acc Hnd Hfresh HF;
    inversion HF as [|? m ? ms' Hm HF']; subst; simpl.
  - now rewrite app_nil_r.
  - rewrite Hm. simpl. inversion Hnd as [|? ? Hni Hnd']; subst.
    rewrite dict_set_new by (apply Hfresh; now left).
    rewrite (IH ms' _ Hnd'); [now rewrite <- app_assoc| |exact HF'].
    intros l Hl. unfold dict_keys. rewrite map_app, in_app_iff. simpl.
    intros [Hin|[<-|[]]]; [|contradiction].
    apply (Hfresh l); [now right | exact Hin].
Qed.
End AggregateFacts.


Lemma Forall2_combine_In {A B} (P : A -> B -> Prop) l1 l2 x :
  Forall2 P l1 l2 -> In x l1 -> exists y, In (x, y) (combine l1 l2) /\ P x y.
Proof.
  induction 1 as [|a b l1 l2 Hab _ IH]; simpl; [tauto|].
  intros [->|Hin]; [eauto|].
  destruct (IH Hin) as (y & Hy & HP). eauto.
Qed.

Lemma Forall2_combine_keys {A B} (P : A -> B -> Prop) l1 l2 :
  Forall2 P l1 l2 -> map fst (combine l1 l2) = l1.
Proof. induction 1; simpl; congruence. Qed.

Section PartitionClaim.
Context `{SC : Scorer} `{EM : EvalModel}.

(** C6.  When an evaluation with a non-empty language array returns: the
    language array has one entry per stacked example; the per-language
    mapping has exactly one key per distinct language, in sorted order;
    the record of a language is the five metrics of the examples at the
    positions where the array holds that language; and these position
    sets are non-empty, pairwise disjoint and cover every example. *)
Theorem C6_per_language_partition
    (tr : Trainer) (val_dtl : list Batch) (language_arr : list string)
    (s : MState) (global_metrics : Metrics) (lang_metrics : dict string Metrics) :
  fst (evaluate_metrics tr val_dtl language_arr s)
  = Ok (global_metrics, lang_metrics) ->
  language_arr <> [] ->
  exists stacked icl ico gold pred,
    fst (stack_predictions tr (dict_invert (eval_dataset_ner2idx tr))
           val_dtl [] s) = Ok stacked
    /\ concatenate (map st_ic_labels stacked) = Ok (Nd1 icl)
    /\ concatenate (map st_ic_output stacked) = Ok (Nd1 ico)
    /\ concatenate (map st_ner_labels stacked) = Ok (Nd2 gold)
    /\ concatenate (map st_ner_output stacked) = Ok (Nd2 pred)
    /\ length icl = length language_arr
    /\ length ico = length language_arr
    /\ length (t_rows gold) = length language_arr
    /\ length (t_rows pred) = length language_arr
    /\ dict_keys lang_metrics = unique String.ltb language_arr
    /\ NoDup (dict_keys lang_metrics)
    /\ (forall lang, In lang (dict_keys lang_metrics) <-> In lang language_arr)
    /\ (forall lang,
          In lang (dict_keys lang_metrics) ->
          dict_get lang_metrics lang
          = Some (metrics_of
                    (take (lang_examples language_arr lang) icl)
                    (take (lang_examples language_arr lang) ico)
                    (take (lang_examples language_arr lang) (t_rows gold))
                    (take (lang_examples language_arr lang) (t_rows pred))))
    /\ (forall lang,
          In lang (dict_keys lang_metrics) ->
          lang_examples language_arr lang <> [])
    /\ (forall l1 l2 i,
          In i (lang_examples language_arr l1) ->
          In i (lang_examples language_arr l2) -> l1 = l2)
    /\ (forall i,
          i < length icl ->
          exists lang, In lang (dict_keys lang_metrics)
                       /\ In i (lang_examples language_arr lang))
    /\ (forall lang i,
          In i (lang_examples language_arr lang) ->
          i < length icl /\ nth_error language_arr i = Some lang).
Proof.
  intros Hrun Hne.
  unfold evaluate_metrics, ebind in Hrun.
  destruct (stack_predictions tr _ val_dtl [] s) as [[stacked|e] s'] eqn:Hst;
    simpl in Hrun; [|discriminate].
  unfold aggregate in Hrun.
  destruct (concatenate (map st_ic_labels stacked)) as [ICL|] eqn:H1; [|discriminate].
  destruct (concatenate (map st_ic_output stacked)) as [ICO|] eqn:H2; [|discriminate].
  destruct (concatenate (map st_ner_labels stacked)) as [NL|] eqn:H3; [|discriminate].
  destruct (concatenate (map st_ner_output stacked)) as [NO|] eqn:H4; [|discriminate].
  cbn [rbind] in Hrun.
  destruct (five_metrics None ICL ICO NL NO) as [g|] eqn:Hg; [|discriminate].
  cbn [rbind] in Hrun.
  destruct (language_loop _ _ _ _ _ _ _) as [lm|] eqn:Hl; [|discriminate].
  cbn [rbind] in Hrun. injection Hrun as <- <-.
  destruct (five_metrics_None_inv _ _ _ _ Hg)
    as (icl & ico & gold & pred & -> & -> & -> & -> & Hlen).
  pose proof (unique_NoDup String.ltb string_ltb_irrefl string_ltb_trans
                string_ltb_total language_arr) as Hnd.
  pose proof (In_unique String.ltb string_ltb_total) as Hin.
  eapply language_loop_inv in Hl; [|exact Hnd|intros ? ? Hk; exact Hk].
  destruct Hl as (ms & Hlm & HF).
  simpl in Hlm. subst lm.
  assert (Hkeys : dict_keys (combine (unique String.ltb language_arr) ms)
                  = unique String.ltb language_arr)
    by exact (Forall2_combine_keys HF).
  (* the mask of any language present has the length of every collection *)
  assert (Hlens : length language_arr = length icl
                  /\ length language_arr = length ico
                  /\ length language_arr = length (t_rows gold)
                  /\ length language_arr = length (t_rows pred)).
  { destruct language_arr as [|l0 la] eqn:Ela; [congruence|].
    assert (Hl0 : In l0 (unique String.ltb (l0 :: la)))
      by (apply (proj2 (Hin l0 (l0 :: la))); now left).
    destruct (Forall2_combine_In _ HF Hl0) as (m0 & _ & Hm0).
    apply five_metrics_Some_inv in Hm0.
    rewrite length_lang_mask in Hm0. exact Hm0. }
  destruct Hlens as (L1 & L2 & L3 & L4).
  exists stacked, icl, ico, gold, pred.
  cbn [fst].
  do 9 (split; [first [reflexivity | congruence | assumption]|]).
  split; [exact Hkeys|].
  split; [now rewrite Hkeys|].
  split; [intros lang; rewrite Hkeys; exact (Hin lang language_arr)|].
  split.
  { intros lang Hlang. rewrite Hkeys in Hlang.
    destruct (Forall2_combine_In _ HF Hlang) as (m & Hm & Hfm).
    rewrite five_metrics_Some in Hfm by (rewrite length_lang_mask; congruence).
    injection Hfm as <-.
    rewrite !select_take in Hm by congruence.
    apply dict_get_In; [|exact Hm].
    unfold dict_wf. now rewrite Hkeys. }
  split.
  { intros lang Hlang Hnil. rewrite Hkeys in Hlang.
    apply (proj1 (Hin lang language_arr)) in Hlang.
    apply In_nth_error in Hlang. destruct Hlang as (i & Hi).
    apply (proj2 (In_lang_examples _ _ _)) in Hi. rewrite Hnil in Hi. exact Hi. }
  split.
  { intros l1 l2 i Hi1 Hi2.
    apply (proj1 (In_lang_examples _ _ _)) in Hi1.
    apply (proj1 (In_lang_examples _ _ _)) in Hi2. congruence. }
  split.
  { intros i Hi. destruct (nth_error language_arr i) as [lang|] eqn:E.
    - exists lang. split; [|now apply In_lang_examples].
      rewrite Hkeys. apply (proj2 (Hin lang language_arr)).
      eapply nth_error_In; eauto.
    - apply nth_error_None in E. lia. }
  intros lang i Hi. apply (proj1 (In_lang_examples _ _ _)) in Hi.
  split; [|exact Hi].
  rewrite <- L1. apply nth_error_Some. congruence.
Qed.
End PartitionClaim.


(* ================================================================== *)
(** * Reordering the batches                                            *)
(* ================================================================== *)

Lemma Permutation_filter' {A} (f : A -> bool) l l' :
  Permutation l l' -> Permutation (filter f l) (filter f l').
Proof.
  induction 1 as [|x l l' _ IH|x y l|l l' l'' _ IH1 _ IH2]; simpl.
  - constructor.
  - destruct (f x); [now constructor | exact IH].
  - destruct (f x), (f y); try reflexivity. apply perm_swap.
  - now transitivity (filter f l').
Qed.

Lemma count_Permutation {A} (f : A -> bool) l l' :
  Permutation l l' -> count f l = count f l'.
Proof.
  intros Hp. unfold count. apply Permutation_length.
  now apply Permutation_filter'.
Qed.

Lemma Permutation_concat_map {A B} (f : A -> list B) l l' :
  Permutation l l' -> Permutation (concat (map f l)) (concat (map f l')).
Proof.
  intros Hp. rewrite <- !flat_map_concat_map. now apply Permutation_flat_map.
Qed.

Lemma map_fst_combine {A B} (l1 : list A) (l2 : list B) :
  length l1 = length l2 -> map fst (combine l1 l2) = l1.
Proof.
  revert l2. induction l1 as [|a l1 IH]; intros [|b l2] Hl; simpl in *;
    try discriminate; [reflexivity|].
  f_equal. apply IH. lia.
Qed.

Lemma map_snd_combine {A B} (l1 : list A) (l2 : list B) :
  length l1 = length l2 -> map snd (combine l1 l2) = l2.
Proof.
  revert l2. induction l1 as [|a l1 IH]; intros [|b l2] Hl; simpl in *;
    try discriminate; [reflexivity|].
  f_equal. apply IH. lia.
Qed.

Lemma rmapM_total {A B} (f : A -> result B) (g : A -> B) l :
  (forall x, In x l -> f x = Ok (g x)) -> rmapM f l = Ok (map g l).
Proof. apply rmapM_ext_Ok. Qed.

Lemma rmapM_In_Ok {A B} (f : A -> result B) l r x :
  rmapM f l = Ok r -> In x l -> exists y, f x = Ok y.
Proof.
  intros Hr Hin. apply In_nth_error in Hin. destruct Hin as (i & Hi).
  destruct (rmapM_nth _ _ _ Hr Hi) as (y & Hy & _). eauto.
Qed.

Section BatchExamples.
Context `{SC : Scorer}.

(** The collections of an aligned batch are the fields of its
    examples. *)
Lemma batch_examples_spec (st : Stacked) (langs : list string) :
  aligned st langs ->
  exists c_gold c_pred,
    st_ic_labels st = Nd1 (map e_gold (batch_examples st langs))
    /\ st_ic_output st = Nd1 (map e_pred (batch_examples st langs))
    /\ st_ner_labels st
       = Nd2 (mk_tensor2 c_gold (map e_ner_gold (batch_examples st langs)))
    /\ st_ner_output st
       = Nd2 (mk_tensor2 c_pred (map e_ner_pred (batch_examples st langs)))
    /\ langs = map e_lang (batch_examples st langs).
Proof.
  intros (xs & ys & gold & pred & H1 & H2 & H3 & H4 & L1 & L2 & L3 & L4).
  exists (t_ncols gold), (t_ncols pred).
  unfold batch_examples. rewrite H1, H2, H3, H4. simpl.
  rewrite !map_map. simpl.
  set (c1 := combine xs ys).
  set (c2 := combine c1 (t_rows gold)).
  set (c3 := combine c2 (t_rows pred)).
  assert (E1 : length c1 = length langs)
    by (unfold c1; rewrite length_combine; lia).
  assert (E2 : length c2 = length langs)
    by (unfold c2; rewrite length_combine; lia).
  assert (E3 : length c3 = length langs)
    by (unfold c3; rewrite length_combine; lia).
  assert (P3 : map fst (combine c3 langs) = c3) by (apply map_fst_combine; lia).
  assert (P2 : map fst c3 = c2) by (apply map_fst_combine; lia).
  assert (P1 : map fst c2 = c1) by (apply map_fst_combine; lia).
  repeat split.
  - f_equal.
    rewrite <- (map_map fst (fun x => fst (fst (fst x)))), P3.
    rewrite <- (map_map fst (fun x => fst (fst x))), P2.
    rewrite <- (map_map fst fst), P1. symmetry. apply map_fst_combine. lia.
  - f_equal.
    rewrite <- (map_map fst (fun x => snd (fst (fst x)))), P3.
    rewrite <- (map_map fst (fun x => snd (fst x))), P2.
    rewrite <- (map_map fst snd), P1. symmetry. apply map_snd_combine. lia.
  - destruct gold as [c rows]. simpl in *. do 2 f_equal.
    rewrite <- (map_map fst (fun x => snd (fst x))), P3.
    rewrite <- (map_map fst snd), P2. symmetry. apply map_snd_combine. lia.
  - destruct pred as [c rows]. simpl in *. do 2 f_equal.
    rewrite <- (map_map fst snd), P3. symmetry. apply map_snd_combine. lia.
  - symmetry. apply map_snd_combine. lia.
Qed.
End BatchExamples.


Lemma combine_map_same {A B C} (f : A -> B) (g : A -> C) (l : list A) :
  combine (map f l) (map g l) = map (fun x => (f x, g x)) l.
Proof. induction l as [|x l IH]; simpl; [reflexivity|]. now rewrite IH. Qed.

Section ExampleMetrics.
Context `{SC : Scorer}.

Lemma f1_of_class_Permutation pairs pairs' c :
  Permutation pairs pairs' -> f1_of_class pairs c = f1_of_class pairs' c.
Proof.
  intros Hp. unfold f1_of_class.
  now rewrite !(count_Permutation _ Hp).
Qed.

Lemma ex_metrics_Permutation (ex ex' : list Example) :
  scorer_order_independent ->
  Permutation ex ex' -> ex_metrics ex = ex_metrics ex'.
Proof.
  intros Hsc Hp. unfold ex_metrics, metrics_of.
  assert (Hs : computeF1Score (map e_ner_pred ex) (map e_ner_gold ex)
               = computeF1Score (map e_ner_pred ex') (map e_ner_gold ex')).
  { pose proof (Hsc (map (fun e => (e_ner_pred e, e_ner_gold e)) ex)
                    (map (fun e => (e_ner_pred e, e_ner_gold e)) ex')
                    (Permutation_map _ Hp)) as Hrows.
    rewrite !map_map in Hrows. exact Hrows. }
  rewrite Hs.
  destruct (computeF1Score (map e_ner_pred ex') (map e_ner_gold ex')) as [[a b] c].
  rewrite !combine_map_same.
  pose proof (Permutation_map (fun e => (e_gold e, e_pred e)) Hp) as Hpairs.
  f_equal.
  - rewrite (count_Permutation _ Hpairs), !length_map.
    now rewrite (Permutation_length Hp).
  - rewrite (unique_Permutation Z.ltb Z_ltb_irrefl Z_ltb_trans Z_ltb_total
               (l := map e_gold ex ++ map e_pred ex)
               (l' := map e_gold ex' ++ map e_pred ex'))
      by (apply Permutation_app; now apply Permutation_map).
    f_equal. apply map_ext. intros cl.
    now apply f1_of_class_Permutation.
Qed.

(** What the aggregation returns on aligned batches whose tag arrays
    have a common width. *)
Lemma aggregate_examples (ps : list (Stacked * list string)) c_gold c_pred :
  ps <> [] ->
  Forall (fun p => aligned (fst p) (snd p)) ps ->
  Forall (fun p => exists t, st_ner_labels (fst p) = Nd2 t /\ t_ncols t = c_gold) ps ->
  Forall (fun p => exists t, st_ner_output (fst p) = Nd2 t /\ t_ncols t = c_pred) ps ->
  aggregate (map fst ps) (concat (map snd ps))
  = Ok (ex_metrics (all_examples ps),
        map (fun lang => (lang, ex_metrics (filter (of_lang lang) (all_examples ps))))
            (unique String.ltb (map e_lang (all_examples ps)))).
Proof.
  intros Hne Hal Hg Hp.
  set (E := all_examples ps).
  assert (Hspec : forall p, In p ps ->
             st_ic_labels (fst p)
             = Nd1 (map e_gold (batch_examples (fst p) (snd p)))
             /\ st_ic_output (fst p)
                = Nd1 (map e_pred (batch_examples (fst p) (snd p)))
             /\ rows_of (st_ner_labels (fst p))
                = map e_ner_gold (batch_examples (fst p) (snd p))
             /\ rows_of (st_ner_output (fst p))
                = map e_ner_pred (batch_examples (fst p) (snd p))
             /\ snd p = map e_lang (batch_examples (fst p) (snd p))).
  { intros p Hin. rewrite Forall_forall in Hal.
    destruct (batch_examples_spec (Hal p Hin))
      as (c1 & c2 & E1 & E2 & E3 & E4 & E5).
    repeat split; try assumption.
    - now rewrite E3.
    - now rewrite E4. }
  assert (Hmapne : forall A (f : Stacked * list string -> A), map f ps <> []).
  { intros A f. destruct ps; [congruence|discriminate]. }
  (* the four collections *)
  assert (C1 : concatenate (map st_ic_labels (map fst ps)) = Ok (Nd1 (map e_gold E))).
  { rewrite map_map.
    rewrite (map_ext_in _ (fun p => Nd1 (map e_gold (batch_examples (fst p) (snd p)))))
      by (intros p Hin; apply (Hspec p Hin)).
    rewrite <- (map_map (fun p => map e_gold (batch_examples (fst p) (snd p))) Nd1).
    rewrite concatenate_Nd1_Ok by apply Hmapne.
    unfold E, all_examples. now rewrite concat_map, map_map. }
  assert (C2 : concatenate (map st_ic_output (map fst ps)) = Ok (Nd1 (map e_pred E))).
  { rewrite map_map.
    rewrite (map_ext_in _ (fun p => Nd1 (map e_pred (batch_examples (fst p) (snd p)))))
      by (intros p Hin; apply (Hspec p Hin)).
    rewrite <- (map_map (fun p => map e_pred (batch_examples (fst p) (snd p))) Nd1).
    rewrite concatenate_Nd1_Ok by apply Hmapne.
    unfold E, all_examples. now rewrite concat_map, map_map. }
  assert (C3 : concatenate (map st_ner_labels (map fst ps))
               = Ok (Nd2 (mk_tensor2 c_gold (map e_ner_gold E)))).
  { rewrite (concatenate_Nd2_Ok (c := c_gold)).
    - do 3 f_equal. rewrite !map_map.
      rewrite (map_ext_in _ (fun p => map e_ner_gold (batch_examples (fst p) (snd p))))
        by (intros p Hin; apply (Hspec p Hin)).
      unfold E, all_examples. now rewrite concat_map, map_map.
    - rewrite map_map. apply Hmapne.
    - rewrite map_map. apply Forall_map. exact Hg. }
  assert (C4 : concatenate (map st_ner_output (map fst ps))
               = Ok (Nd2 (mk_tensor2 c_pred (map e_ner_pred E)))).
  { rewrite (concatenate_Nd2_Ok (c := c_pred)).
    - do 3 f_equal. rewrite !map_map.
      rewrite (map_ext_in _ (fun p => map e_ner_pred (batch_examples (fst p) (snd p))))
        by (intros p Hin; apply (Hspec p Hin)).
      unfold E, all_examples. now rewrite concat_map, map_map.
    - rewrite map_map. apply Hmapne.
    - rewrite map_map. apply Forall_map. exact Hp. }
  assert (Hla : concat (map snd ps) = map e_lang E).
  { rewrite (map_ext_in snd (fun p => map e_lang (batch_examples (fst p) (snd p))))
      by (intros p Hin; apply (Hspec p Hin)).
    unfold E, all_examples. now rewrite concat_map, map_map. }
  unfold aggregate. rewrite C1, C2, C3, C4, Hla. cbn [rbind].
  rewrite five_metrics_None by now rewrite !length_map.
  cbn [rbind t_rows]. fold (ex_metrics E).
  rewrite (@language_loop_Ok _ _ (map e_lang E) _ _ _ _
             (unique String.ltb (map e_lang E))
             (map (fun lang => ex_metrics (filter (of_lang lang) E))
                  (unique String.ltb (map e_lang E)))
             []).
  - cbn [rbind app]. do 2 f_equal.
    generalize (unique String.ltb (map e_lang E)). intros langs.
    induction langs as [|l langs IH]; simpl; [reflexivity|]. now rewrite IH.
  - apply unique_NoDup; [exact string_ltb_irrefl | exact string_ltb_trans
                         | exact string_ltb_total].
  - intros l _ Hin. exact Hin.
  - generalize (unique String.ltb (map e_lang E)). intros langs.
    induction langs as [|l langs IH]; simpl; constructor; [|exact IH].
    rewrite five_metrics_Some
      by (cbn [t_rows]; rewrite length_lang_mask, !length_map; reflexivity).
    cbn [t_rows].
    assert (Hmask : lang_mask (map e_lang E) l = map (of_lang l) E).
    { unfold lang_mask. rewrite map_map. reflexivity. }
    rewrite Hmask, !select_map, select_filter. reflexivity.
Qed.
End ExampleMetrics.


Lemma rmapM_inv_total {A B} (d : B) (f : A -> result B) l r :
  rmapM f l = Ok r ->
  r = map (fun x => match f x with Ok y => y | Err _ => d end) l
  /\ Forall (fun x => f x = Ok (match f x with Ok y => y | Err _ => d end)) l.
Proof.
  revert r. induction l as [|a l IH]; intros r Hr; simpl in Hr.
  - injection Hr as <-. auto.
  - destruct (f a) as [b|] eqn:Hfa; [|discriminate]. simpl in Hr.
    destruct (rmapM f l) as [bs|]; [|discriminate]. simpl in Hr.
    injection Hr as <-. destruct (IH bs eq_refl) as (-> & HF).
    simpl. rewrite Hfa. split; [reflexivity|].
    constructor; [now rewrite Hfa | exact HF].
Qed.

Section ReorderingFacts.
Context `{SC : Scorer} `{EM : EvalModel}.

Lemma evaluate_metrics_fst tr val_dtl la s :
  fst (evaluate_metrics tr val_dtl la s)
  = rbind (fst (stack_predictions tr (dict_invert (eval_dataset_ner2idx tr))
                  val_dtl [] s))
          (fun stacked => aggregate stacked la).
Proof.
  unfold evaluate_metrics, ebind, elift.
  destruct (stack_predictions _ _ _ _ _) as [[st|e] s']; reflexivity.
Qed.

Lemma stack_predictions_frozen_run tr idx val_dtl :
  frozen ->
  forall acc s,
    fst (stack_predictions tr idx val_dtl acc s)
    = rbind (rmapM (fun b => fst (stack_batch tr idx b s)) val_dtl)
            (fun sts => Ok (acc ++ sts)).
Proof.
  intros Hfr. induction val_dtl as [|b bs IH]; intros acc s; simpl.
  - now rewrite app_nil_r.
  - unfold ebind.
    assert (Hb : snd (stack_batch tr idx b s) = s).
    { unfold stack_batch. specialize (Hfr s (labels b) (fields b)).
      destruct (model_call s (labels b) (fields b)) as [out s']. exact Hfr. }
    destruct (stack_batch tr idx b s) as [[st|e] s']; simpl in Hb; subst s';
      simpl; [|reflexivity].
    rewrite IH. destruct (rmapM _ bs) as [sts|]; simpl; [|reflexivity].
    now rewrite <- app_assoc.
Qed.

Lemma aggregate_inv (sts : list Stacked) la r :
  aggregate sts la = Ok r ->
  sts <> []
  /\ exists c_gold c_pred,
       Forall (fun st => exists t, st_ner_labels st = Nd2 t /\ t_ncols t = c_gold) sts
       /\ Forall (fun st => exists t, st_ner_output st = Nd2 t /\ t_ncols t = c_pred) sts.
Proof.
  unfold aggregate.
  destruct (concatenate (map st_ic_labels sts)) as [ICL|]; [|discriminate].
  destruct (concatenate (map st_ic_output sts)) as [ICO|]; [|discriminate].
  destruct (concatenate (map st_ner_labels sts)) as [NL|] eqn:H3; [|discriminate].
  destruct (concatenate (map st_ner_output sts)) as [NO|] eqn:H4; [|discriminate].
  cbn [rbind].
  destruct (five_metrics None ICL ICO NL NO) as [g|] eqn:Hg; [|discriminate].
  intros _.
  destruct (five_metrics_None_inv _ _ _ _ Hg)
    as (icl & ico & gold & pred & -> & -> & -> & -> & _).
  apply concatenate_Nd2_inv in H3, H4.
  destruct H3 as (Hne & Hg3 & _). destruct H4 as (_ & Hp4 & _).
  split; [intros ->; now apply Hne|].
  exists (t_ncols gold), (t_ncols pred).
  rewrite Forall_map in Hg3, Hp4. auto.
Qed.

(** C4, as the code has it.  For a frozen model and a sequence scorer
    that does not depend on the order of the sequences: when every batch
    stacks one entry per example and comes with one language per
    example, reordering the batches together with their languages leaves
    the global metrics and the per-language metrics as they were. *)
Theorem C4_aligned_reordering_preserves_metrics
    (tr : Trainer) (bl bl' : list (Batch * list string)) (s : MState)
    (r : Metrics * dict string Metrics) :
  frozen ->
  scorer_order_independent ->
  Permutation bl bl' ->
  (forall b ls st,
      In (b, ls) bl ->
      fst (stack_batch tr (dict_invert (eval_dataset_ner2idx tr)) b s) = Ok st ->
      aligned st ls) ->
  fst (evaluate_metrics tr (map fst bl) (concat (map snd bl)) s) = Ok r ->
  fst (evaluate_metrics tr (map fst bl') (concat (map snd bl')) s) = Ok r.
Proof.
  intros Hfr Hsc Hperm Hal Hrun.
  set (idx := dict_invert (eval_dataset_ner2idx tr)) in *.
  set (f := fun b => fst (stack_batch tr idx b s)).
  set (d := {| st_ic_labels := Nd1 []; st_ic_output := Nd1 [];
               st_ner_labels := Nd1 []; st_ner_output := Nd1 [] |}).
  set (stf := fun b => match f b with Ok st => st | Err _ => d end).
  set (pair := fun p : Batch * list string => (stf (fst p), snd p)).
  rewrite evaluate_metrics_fst, (stack_predictions_frozen_run _ _ _ Hfr) in Hrun.
  rewrite evaluate_metrics_fst, (stack_predictions_frozen_run _ _ _ Hfr).
  fold idx in Hrun |- *. fold f in Hrun |- *.
  destruct (rmapM f (map fst bl)) as [sts|] eqn:Hsts; [|discriminate].
  cbn [rbind app] in Hrun.
  destruct (rmapM_inv_total d _ _ Hsts) as (-> & Hok). fold stf in Hok, Hrun.
  rewrite Forall_map in Hok.
  (* the original batches, as pairs of stacked entries and languages *)
  assert (Hfst : forall l, map stf (map fst l) = map fst (map pair l))
    by (intros l; now rewrite !map_map).
  assert (Hsnd : forall l, map snd l = map snd (map pair l))
    by (intros l; now rewrite map_map).
  destruct (aggregate_inv _ _ Hrun) as (Hne & c1 & c2 & Hc1 & Hc2).
  assert (Hal_ps : Forall (fun p => aligned (fst p) (snd p)) (map pair bl)).
  { rewrite Forall_map. apply Forall_forall. intros [b ls] Hin. simpl.
    apply (Hal b ls); [exact Hin|].
    rewrite Forall_forall in Hok. exact (Hok _ Hin). }
  assert (Hc1_ps : Forall (fun p => exists t, st_ner_labels (fst p) = Nd2 t
                                              /\ t_ncols t = c1) (map pair bl)).
  { rewrite Hfst in Hc1. now rewrite Forall_map in Hc1. }
  assert (Hc2_ps : Forall (fun p => exists t, st_ner_output (fst p) = Nd2 t
                                              /\ t_ncols t = c2) (map pair bl)).
  { rewrite Hfst in Hc2. now rewrite Forall_map in Hc2. }
  assert (Hne_ps : map pair bl <> []).
  { intros E. apply Hne. destruct bl; [reflexivity|discriminate]. }
  rewrite Hfst, (Hsnd bl) in Hrun.
  rewrite (aggregate_examples Hne_ps Hal_ps Hc1_ps Hc2_ps) in Hrun.
  injection Hrun as <-.
  (* the reordered batches *)
  assert (Hperm_ps : Permutation (map pair bl) (map pair bl'))
    by now apply Permutation_map.
  assert (Hok' : forall b, In b (map fst bl') -> f b = Ok (stf b)).
  { intros b Hin.
    apply (Permutation_in _ (Permutation_sym (Permutation_map fst Hperm))) in Hin.
    apply in_map_iff in Hin. destruct Hin as (p & <- & Hp).
    rewrite Forall_forall in Hok. exact (Hok _ Hp). }
  rewrite (rmapM_total f stf _ Hok'). cbn [rbind app].
  rewrite Hfst, (Hsnd bl').
  rewrite (@aggregate_examples _ _ (map pair bl') c1 c2).
  - pose proof (Permutation_concat_map
                  (fun p => batch_examples (fst p) (snd p)) Hperm_ps) as HE.
    fold (all_examples (map pair bl)) in HE.
    fold (all_examples (map pair bl')) in HE.
    f_equal. f_equal.
    + symmetry. now apply ex_metrics_Permutation.
    + rewrite (unique_Permutation String.ltb string_ltb_irrefl string_ltb_trans
                 string_ltb_total (Permutation_map e_lang HE)).
      apply map_ext. intros lang. f_equal. symmetry.
      apply ex_metrics_Permutation; [exact Hsc|].
      now apply Permutation_filter'.
  - intros E. apply Hne_ps. rewrite E in Hperm_ps.
    now apply Permutation_sym, Permutation_nil in Hperm_ps.
  - exact (Permutation_Forall Hperm_ps Hal_ps).
  - exact (Permutation_Forall Hperm_ps Hc1_ps).
  - exact (Permutation_Forall Hperm_ps Hc2_ps).
Qed.
End ReorderingFacts.


(* ================================================================== *)
(** * Construction of the cascade                                       *)
(* ================================================================== *)

Lemma rmapM_Ok_iff {A B} (f : A -> result B) (l : list A) :
  match rmapM f l with
  | Ok r => forall x, In x l -> exists y, f x = Ok y
  | Err e => exists x, In x l /\ f x = Err e
  end.
Proof.
  induction l as [|a l IH]; simpl; [intros x []|].
  destruct (f a) as [b|e] eqn:Hfa; simpl.
  - destruct (rmapM f l) as [bs|e]; simpl.
    + intros x [<-|Hin]; eauto.
    + destruct IH as (x & Hin & Hx). eauto.
  - eauto.
Qed.

Lemma In_enumerate {A} (l : list A) (ix : nat * A) :
  In ix (enumerate l) -> In (snd ix) l.
Proof.
  intros Hin. rewrite <- (map_snd_enumerate l). now apply in_map.
Qed.

Section Construction.
Context `{TA : TorchAttention} `{TR : @Transformers H}.

Lemma IC2NER_init_Ok_keys
    (ini : Init) (tags : list string) (num_labels : NumLabels)
    (pos_embeddings proj_dim num_heads : nat) (self : IC2NER) :
  IC2NER_init ini tags num_labels pos_embeddings proj_dim num_heads = Ok self ->
  forall tag, In tag tags -> In tag (dict_keys (nl_H_NER num_labels)).
Proof.
  unfold IC2NER_init.
  match goal with
  | |- context [rmapM ?f ?l] => pose proof (rmapM_Ok_iff f l) as Hm;
                                destruct (rmapM f l) as [lin|e]
  end; simpl; [|discriminate].
  intros _ tag Hin.
  apply In_nth_error in Hin. destruct Hin as (i & Hi).
  destruct (Hm (i, tag)) as (y & Hy).
  { eapply nth_error_In. apply nth_error_enumerate. exact Hi. }
  simpl in Hy. unfold dict_getitem in Hy.
  destruct (dict_get (nl_H_NER num_labels) tag) eqn:Hg; [|discriminate].
  destruct (in_dec string_dec tag (dict_keys (nl_H_NER num_labels))) as [Hk|Hk];
    [exact Hk|].
  apply dict_get_None in Hk. congruence.
Qed.

Lemma IC2NER_init_Err
    (ini : Init) (tags : list string) (num_labels : NumLabels)
    (pos_embeddings proj_dim num_heads : nat) (e : exn) :
  IC2NER_init ini tags num_labels pos_embeddings proj_dim num_heads = Err e ->
  e = KeyError
  /\ exists tag, In tag tags /\ dict_get (nl_H_NER num_labels) tag = None.
Proof.
  unfold IC2NER_init.
  match goal with
  | |- context [rmapM ?f ?l] => pose proof (rmapM_Ok_iff f l) as Hm;
                                destruct (rmapM f l) as [lin|e']
  end; simpl; [discriminate|].
  intros [= <-].
  destruct Hm as (ix & Hin & Hx). unfold dict_getitem in Hx.
  destruct (dict_get (nl_H_NER num_labels) (snd ix)) eqn:Hg;
    simpl in Hx; [discriminate|].
  injection Hx as <-. split; [reflexivity|].
  exists (snd ix). split; [now apply In_enumerate | exact Hg].
Qed.

(** X1.  When a level of the hierarchy has no label count in
    [num_labels['H_NER']], the constructor of the cascade raises
    [KeyError]: the counts are looked up, for the layers that reshape the
    IC projection, before any attention module is created. *)
Theorem IC2NER_init_missing_label_count
    (ini : Init) (tags : list string) (num_labels : NumLabels)
    (pos_embeddings proj_dim num_heads : nat) (tag : string) :
  In tag tags ->
  dict_get (nl_H_NER num_labels) tag = None ->
  IC2NER_init ini tags num_labels pos_embeddings proj_dim num_heads
  = Err KeyError.
Proof.
  intros Hin Hnone.
  destruct (IC2NER_init ini tags num_labels pos_embeddings proj_dim num_heads)
    as [self|e] eqn:Hi.
  - exfalso. apply dict_get_None in Hnone. apply Hnone.
    exact (IC2NER_init_Ok_keys _ _ _ _ _ _ Hi tag Hin).
  - destruct (IC2NER_init_Err _ _ _ _ _ _ Hi) as (-> & _). reflexivity.
Qed.
End Construction.

(* ================================================================== *)
(** * What a call of the cascade writes                                 *)
(* ================================================================== *)

Section CascadeEdge.
Context `{TA : TorchAttention}.

(** A cascade without levels: the comprehensions and the loop have
    nothing to do, and [self.tags[-1]] raises. *)
Lemma IC2NER_forward_no_level (self : IC2NER) (h : heap) (ft : loc) (o : obj)
    (v : value) :
  i2n_tags self = [] -> nth_error h ft = Some o ->
  dict_get o "H_NER" = Some v ->
  IC2NER_forward self ft h = Err IndexError.
Proof.
  intros Htags Hft Hner. unfold IC2NER_forward. rewrite Htags.
  erewrite bind_Ok by (unfold load; rewrite Hft; reflexivity).
  erewrite bind_Ok by (unfold alloc; reflexivity).
  erewrite bind_Ok by (unfold dict_comprehension; simpl; reflexivity).
  erewrite bind_Ok.
  2: { apply hsetitem_Ok with (o := o).
       rewrite nth_error_app1 by (rewrite length_app; simpl; lia).
       apply nth_error_alloc_new. }
  simpl forM_. rewrite bind_ret.
  erewrite bind_Ok by (unfold dict_comprehension; simpl; reflexivity).
  erewrite bind_Ok.
  2: { eapply hgetitem_Ok
         with (o := dict_set o "IC" (VDict (length (h ++ [o])))) (v := v).
       - rewrite nth_error_app1
           by (rewrite length_heap_update, !length_app; simpl; lia).
         apply heap_update_eq. rewrite !length_app. simpl. lia.
       - rewrite dict_get_set_neq; [exact Hner | discriminate]. }
  reflexivity.
Qed.
End CascadeEdge.

Section Footprint.
Context `{TA : TorchAttention}.
Variables (ini : Init) (tags : list string) (num_labels : NumLabels).
Variables (pos_embeddings proj_dim num_heads : nat) (self : IC2NER).

Let attn (i : nat) : MultiheadAttention := init_ic2ner_attn ini i proj_dim num_heads.

(** X4.  A call of the cascade allocates three dictionaries and writes to
    no dictionary that existed before but the level dictionary reached
    from its argument.  There it keeps the keys and their order, and
    changes no entry but those of the levels after the first. *)
Theorem IC2NER_forward_footprint
    (h : heap) (ft : loc) (o : obj) (ic : T3) (ln : loc) (dn : obj)
    (origs : list T3) :
  IC2NER_init ini tags num_labels pos_embeddings proj_dim num_heads = Ok self ->
  NoDup tags ->
  tags <> [] ->
  nth_error h ft = Some o ->
  dict_get o "IC" = Some (VTensor ic) ->
  dict_get o "H_NER" = Some (VDict ln) ->
  nth_error h ln = Some dn ->
  Forall2 (fun tag t => dict_get dn tag = Some (VTensor t)) tags origs ->
  exists r h' d',
    IC2NER_forward self ft h = Ok (r, h')
    /\ length h' = length h + 3
    /\ (forall l, l < length h -> l <> ln -> nth_error h' l = nth_error h l)
    /\ nth_error h' ln = Some d'
    /\ dict_keys d' = dict_keys dn
    /\ (forall tag, ~ In tag (tl tags) -> dict_get d' tag = dict_get dn tag).
Proof.
  intros Hinit Hnd Hne Hft Hic Hner Hln Horigs.
  destruct (@IC2NER_forward_run _ _ _ _ _ _ _ _ _ Hinit Hnd h ft o ic ln dn origs
              Hne Hft Hic Hner Hln Horigs)
    as (d' & icd & mixd & last_ner & Hrun & Hkeys & Hfix & Hupd & _).
  assert (Hlt : ln < length h) by (apply nth_error_Some; congruence).
  eexists. eexists. exists d'. split; [exact Hrun|].
  split; [|split; [|split; [|split]]].
  - rewrite length_app, length_heap_update. simpl. lia.
  - intros l Hl Hneq. rewrite nth_error_app1 by (rewrite length_heap_update; lia).
    apply heap_update_neq. congruence.
  - rewrite nth_error_app1 by (rewrite length_heap_update; lia).
    now apply heap_update_eq.
  - exact Hkeys.
  - intros tag Hni.
    destruct (in_dec string_dec tag tags) as [Hin|Hnin]; [|now apply Hfix].
    destruct tags as [|t0 trest]; [contradiction|].
    destruct Hin as [<-|Hin]; [|contradiction].
    inversion Horigs as [|? x0 ? rest Hx0 Hrest]; subst.
    inversion Hupd as [|? ? ? ? Hu0 _]; subst. congruence.
Qed.

(** X6.  Calling the cascade a second time on the same formatted
    dictionary does not repeat the first call: the level dictionary it
    reads is the one the first call has overwritten, so the second call
    folds the attention over the outputs of the first. *)
Theorem IC2NER_forward_second_call_reads_first_outputs
    (h : heap) (ft : loc) (o : obj) (ic : T3) (ln : loc) (dn : obj)
    (origs : list T3) :
  IC2NER_init ini tags num_labels pos_embeddings proj_dim num_heads = Ok self ->
  NoDup tags ->
  tags <> [] ->
  ft <> ln ->
  nth_error h ft = Some o ->
  dict_get o "IC" = Some (VTensor ic) ->
  dict_get o "H_NER" = Some (VDict ln) ->
  nth_error h ln = Some dn ->
  Forall2 (fun tag t => dict_get dn tag = Some (VTensor t)) tags origs ->
  let once := hierarchical_attention_spec attn origs in
  let twice := hierarchical_attention_spec attn once in
  exists out1 last1 h1 out2 last2 h2 d2,
    IC2NER_forward self ft h = Ok ((out1, last1), h1)
    /\ IC2NER_forward self ft h1 = Ok ((out2, last2), h2)
    /\ nth_error once (length tags - 1) = Some last1
    /\ nth_error twice (length tags - 1) = Some last2
    /\ nth_error h2 ln = Some d2
    /\ Forall2 (fun tag u => dict_get d2 tag = Some (VTensor u)) tags twice.
Proof.
  intros Hinit Hnd Hne Hneq Hft Hic Hner Hln Horigs once twice.
  destruct (@IC2NER_forward_run _ _ _ _ _ _ _ _ _ Hinit Hnd h ft o ic ln dn origs
              Hne Hft Hic Hner Hln Horigs)
    as (d1 & icd1 & mixd1 & last1 & Hrun1 & _ & _ & Hupd1 & Hlast1 & _).
  fold attn in Hupd1, Hlast1. fold once in Hupd1, Hlast1.
  assert (Hlnlt : ln < length h) by (apply nth_error_Some; congruence).
  assert (Hftlt : ft < length h) by (apply nth_error_Some; congruence).
  set (h1 := heap_update h ln d1
             ++ [dict_set o "IC" (VDict (length h + 1)); icd1; mixd1]) in *.
  assert (Hft1 : nth_error h1 ft = Some o).
  { unfold h1. rewrite nth_error_app1 by (rewrite length_heap_update; lia).
    rewrite heap_update_neq by congruence. exact Hft. }
  assert (Hln1 : nth_error h1 ln = Some d1).
  { unfold h1. rewrite nth_error_app1 by (rewrite length_heap_update; lia).
    now apply heap_update_eq. }
  destruct (@IC2NER_forward_run _ _ _ _ _ _ _ _ _ Hinit Hnd h1 ft o ic ln d1 once
              Hne Hft1 Hic Hner Hln1 Hupd1)
    as (d2 & icd2 & mixd2 & last2 & Hrun2 & _ & _ & Hupd2 & Hlast2 & _).
  fold attn in Hupd2, Hlast2. fold twice in Hupd2, Hlast2.
  assert (Hlen1 : length h1 = length h + 3).
  { unfold h1. rewrite length_app, length_heap_update. simpl. lia. }
  exists (length h + 2), last1, h1, (length h1 + 2), last2.
  eexists. exists d2.
  split; [exact Hrun1|]. split; [exact Hrun2|].
  split; [exact Hlast1|]. split; [exact Hlast2|].
  split; [|exact Hupd2].
  rewrite nth_error_app1 by (rewrite length_heap_update; lia).
  apply heap_update_eq. lia.
Qed.
End Footprint.

Section SingleLevel.
Context `{TA : TorchAttention}.
Variables (ini : Init) (tag : string) (num_labels : NumLabels).
Variables (pos_embeddings proj_dim num_heads : nat) (self : IC2NER).

(** X5.  With a hierarchy of one level the cascade applies no attention:
    it returns the projection of that level as it found it, and leaves
    every dictionary that existed before the call as it was. *)
Theorem IC2NER_forward_single_level
    (h : heap) (ft : loc) (o : obj) (ic : T3) (ln : loc) (dn : obj) (x : T3) :
  IC2NER_init ini [tag] num_labels pos_embeddings proj_dim num_heads = Ok self ->
  nth_error h ft = Some o ->
  dict_get o "IC" = Some (VTensor ic) ->
  dict_get o "H_NER" = Some (VDict ln) ->
  nth_error h ln = Some dn ->
  dict_get dn tag = Some (VTensor x) ->
  exists (lin : Linear) (input : obj),
    dict_get (i2n_linear self) tag = Some lin
    /\ i2n_attn self = []
    /\ IC2NER_forward self ft h
       = Ok ((length h + 2, x),
             h ++ [input;
                   [(tag, VTensor (linear_forward3 lin (transpose_1_2 ic)))];
                   [(tag, VTensor (matmul x (linear_forward3 lin
                                               (transpose_1_2 ic))))]]).
Proof.
  intros Hinit Hft Hic Hner Hln Hx.
  assert (Hnd : NoDup [tag]) by (constructor; [intros []|constructor]).
  destruct (@init_linear_get _ _ _ _ _ _ _ _ _ Hinit Hnd 0 tag eq_refl)
    as (n & _ & Hlin).
  pose proof (@init_attn_dict _ _ _ _ _ _ _ _ _ Hinit Hnd) as Hattn.
  simpl in Hattn.
  set (lin := init_ic2ner_linear ini 0 pos_embeddings n) in *.
  set (oi := dict_set o "IC" (VDict (length h + 1))).
  exists lin, oi. split; [exact Hlin|]. split; [exact Hattn|].
  assert (Hlnlt : ln < length h) by (apply nth_error_Some; congruence).
  set (icd := [(tag, VTensor (linear_forward3 lin (transpose_1_2 ic)))] : obj).
  set (h3 := h ++ [oi; icd]).
  assert (Hin3 : nth_error h3 (length h) = Some oi).
  { unfold h3. rewrite nth_error_app2 by lia. now rewrite Nat.sub_diag. }
  assert (Hic3 : nth_error h3 (length h + 1) = Some icd).
  { unfold h3. rewrite nth_error_app2 by lia.
    now replace (length h + 1 - length h) with 1 by lia. }
  assert (Hln3 : nth_error h3 ln = Some dn).
  { unfold h3. now rewrite nth_error_app1. }
  assert (Hoi_ner : dict_get oi "H_NER" = Some (VDict ln)).
  { unfold oi. rewrite dict_get_set_neq; [exact Hner | discriminate]. }
  assert (Hoi_ic : dict_get oi "IC" = Some (VDict (length h + 1)))
    by apply dict_get_set_eq.
  assert (Hicd : dict_get icd tag
                 = Some (VTensor (linear_forward3 lin (transpose_1_2 ic)))).
  { unfold icd. simpl. now rewrite String.eqb_refl. }
  unfold IC2NER_forward. rewrite (@init_tags _ _ _ _ _ _ _ _ _ Hinit).
  erewrite bind_Ok by (unfold load; rewrite Hft; reflexivity).
  erewrite bind_Ok by (unfold alloc; reflexivity).
  erewrite bind_Ok.
  2: { apply dict_comprehension_pure
         with (g := fun _ => VTensor (linear_forward3 lin (transpose_1_2 ic))).
       intros c [<-|[]].
       unfold dict_getitem. rewrite Hlin, bind_lift_Ok.
       erewrite bind_Ok
         by (eapply hgetitem_Ok; [apply nth_error_alloc_new | exact Hic]).
       reflexivity. }
  change (dict_of_list (map (fun c : string => (c, VTensor (linear_forward3 lin
                                                    (transpose_1_2 ic)))) [tag]))
    with icd.
  erewrite bind_Ok.
  2: { apply hsetitem_Ok with (o := o).
       rewrite nth_error_app1 by (rewrite length_app; simpl; lia).
       apply nth_error_alloc_new. }
  replace (length (h ++ [o])) with (length h + 1) by (rewrite length_app; reflexivity).
  fold oi.
  match goal with |- bind _ _ ?hh = _ => replace hh with h3 end.
  2: { unfold h3. rewrite <- app_assoc. simpl. now rewrite heap_update_app_new. }
  simpl forM_. rewrite bind_ret.
  erewrite bind_Ok.
  2: { apply dict_comprehension_pure
         with (g := fun _ => VTensor (matmul x (linear_forward3 lin
                                                  (transpose_1_2 ic)))).
       intros c [<-|[]].
       erewrite bind_Ok by (eapply hgetitem2_Ok; eauto).
       erewrite bind_Ok by (eapply hgetitem2_Ok; eauto).
       reflexivity. }
  erewrite bind_Ok.
  2: { eapply hgetitem_Ok with (o := oi); [|exact Hoi_ner].
       rewrite nth_error_app1; [exact Hin3|].
       unfold h3. rewrite length_app. simpl. lia. }
  change (list_last [tag]) with (Ok tag). rewrite bind_lift_Ok.
  unfold as_dict. rewrite bind_ret.
  erewrite bind_Ok.
  2: { eapply hgetitem_Ok with (o := dn); [|exact Hx].
       rewrite nth_error_app1; [exact Hln3|].
       unfold h3. rewrite length_app. simpl. lia. }
  unfold as_tensor. rewrite bind_ret.
  unfold ret. unfold h3. rewrite length_app. simpl length.
  rewrite <- app_assoc. reflexivity.
Qed.
End SingleLevel.

(* ================================================================== *)
(** * Missing entries of the formatted dictionary                       *)
(* ================================================================== *)

Section HeapErrors.
Context `{TA : TorchAttention}.

Lemma bind_Err {A B} (m : M A) (k : A -> M B) (h : heap) e :
  m h = Err e -> bind m k h = Err e.
Proof. intros Hm. unfold bind. now rewrite Hm. Qed.

Lemma hgetitem_KeyError (h : heap) l (o : obj) k :
  nth_error h l = Some o -> dict_get o k = None ->
  hgetitem l k h = Err KeyError.
Proof.
  intros Hl Hk. unfold hgetitem, bind, load, lift, dict_getitem.
  now rewrite Hl, Hk.
Qed.

Lemma hgetitem2_KeyError (h : heap) l (o : obj) k1 l' (o' : obj) k2 :
  nth_error h l = Some o -> dict_get o k1 = Some (VDict l') ->
  nth_error h l' = Some o' -> dict_get o' k2 = None ->
  hgetitem2 l k1 k2 h = Err KeyError.
Proof.
  intros Hl Hk1 Hl' Hk2. unfold hgetitem2.
  erewrite bind_Ok by (eapply hgetitem_Ok; eauto). simpl.
  unfold bind at 1, ret.
  apply bind_Err. eapply hgetitem_KeyError; eauto.
Qed.

Lemma forM__app {A} (l1 l2 : list A) (body : A -> M unit) (h : heap) :
  forM_ (l1 ++ l2) body h = bind (forM_ l1 body) (fun _ => forM_ l2 body) h.
Proof.
  revert h. induction l1 as [|x l1 IH]; intros h; simpl; [reflexivity|].
  unfold bind in *. destruct (body x h) as [[[] h']|e]; [|reflexivity].
  apply IH.
Qed.

Lemma dict_comprehension_head_Err c columns body (h : heap) e :
  body c h = Err e -> dict_comprehension (c :: columns) body h = Err e.
Proof.
  intros Hb. unfold dict_comprehension. apply bind_Err. simpl.
  apply bind_Err. now apply bind_Err.
Qed.
End HeapErrors.

Section MissingEntries.
Context `{TA : TorchAttention}.
Variables (ini : Init) (tags : list string) (num_labels : NumLabels).
Variables (pos_embeddings proj_dim num_heads : nat) (self : IC2NER).
Hypothesis Hinit :
  IC2NER_init ini tags num_labels pos_embeddings proj_dim num_heads = Ok self.
Hypothesis Hnd : NoDup tags.

Let attn (i : nat) : MultiheadAttention := init_ic2ner_attn ini i proj_dim num_heads.

(** The heap once the copy of the argument holds the IC dictionary. *)
Lemma IC2NER_forward_prefix (h : heap) ft (o : obj) ic
    (k : unit -> M (loc * T3)) :
  nth_error h ft = Some o ->
  dict_get o "IC" = Some (VTensor ic) ->
  exists icd : obj,
    forall rest : loc -> unit -> M (loc * T3),
      bind (load ft) (fun o =>
      bind (alloc o) (fun input =>
      bind (dict_comprehension (i2n_tags self) (fun column =>
              bind (lift (dict_getitem (i2n_linear self) column)) (fun lin =>
              bind (hgetitem input "IC") (fun v =>
              bind (as_tensor v) (fun ic =>
              ret (VTensor (linear_forward3 lin (transpose_1_2 ic))))))))
           (fun l_ic =>
      bind (hsetitem input "IC" (VDict l_ic)) (rest input)))) h
      = rest (length h) tt
          (h ++ [dict_set o "IC" (VDict (length h + 1)); icd]).
Proof.
  intros Hft Hic.
  set (tic := fun c => match dict_get (i2n_linear self) c with
                       | Some lin => linear_forward3 lin (transpose_1_2 ic)
                       | None => ic
                       end).
  exists (dict_of_list (map (fun c => (c, VTensor (tic c))) tags)).
  intros rest. rewrite (@init_tags _ _ _ _ _ _ _ _ _ Hinit).
  erewrite bind_Ok by (unfold load; rewrite Hft; reflexivity).
  erewrite bind_Ok by (unfold alloc; reflexivity).
  erewrite bind_Ok.
  2: { apply dict_comprehension_pure with (g := fun c => VTensor (tic c)).
       intros c Hc. apply In_nth_error in Hc. destruct Hc as (i & Hi).
       destruct (@init_linear_get _ _ _ _ _ _ _ _ _ Hinit Hnd _ _ Hi) as (n & _ & Hlin).
       unfold dict_getitem. rewrite Hlin. rewrite bind_lift_Ok.
       erewrite bind_Ok
         by (eapply hgetitem_Ok; [apply nth_error_alloc_new | exact Hic]).
       unfold as_tensor. rewrite bind_ret. unfold tic. now rewrite Hlin. }
  erewrite bind_Ok.
  2: { apply hsetitem_Ok with (o := o).
       rewrite nth_error_app1 by (rewrite length_app; simpl; lia).
       apply nth_error_alloc_new. }
  replace (length (h ++ [o])) with (length h + 1) by (rewrite length_app; reflexivity).
  f_equal. rewrite <- app_assoc. simpl. now rewrite heap_update_app_new.
Qed.

(** X8.  A formatted dictionary without the ['IC'] entry makes the call
    raise [KeyError] (the hierarchy being non-empty, the entry is read
    for its first level). *)
Theorem IC2NER_forward_missing_IC (h : heap) (ft : loc) (o : obj) :
  tags <> [] ->
  nth_error h ft = Some o ->
  dict_get o "IC" = None ->
  IC2NER_forward self ft h = Err KeyError.
Proof.
  intros Hne Hft Hic. unfold IC2NER_forward.
  rewrite (@init_tags _ _ _ _ _ _ _ _ _ Hinit).
  destruct tags as [|t0 trest] eqn:Htags; [congruence|].
  erewrite bind_Ok by (unfold load; rewrite Hft; reflexivity).
  erewrite bind_Ok by (unfold alloc; reflexivity).
  apply bind_Err. apply dict_comprehension_head_Err.
  assert (Ht0 : nth_error tags 0 = Some t0) by (rewrite Htags; reflexivity).
  rewrite <- Htags in Hinit, Hnd.
  destruct (@init_linear_get _ _ _ _ _ _ _ _ _ Hinit Hnd _ _ Ht0) as (n & _ & Hlin).
  unfold dict_getitem. rewrite Hlin, bind_lift_Ok.
  apply bind_Err.
  eapply hgetitem_KeyError; [apply nth_error_alloc_new | exact Hic].
Qed.

(** X9.  A level dictionary that lacks the projection of a level, the
    levels before it holding tensors, makes the call raise [KeyError]:
    in the loop when the level is read as the query or the key of an
    attention module, or in the mix for a hierarchy of one level. *)
Theorem IC2NER_forward_missing_level
    (h : heap) (ft : loc) (o : obj) (ic : T3) (ln : loc) (dn : obj)
    (j : nat) (tag_j : string) (present : list T3) :
  nth_error h ft = Some o ->
  dict_get o "IC" = Some (VTensor ic) ->
  dict_get o "H_NER" = Some (VDict ln) ->
  nth_error h ln = Some dn ->
  nth_error tags j = Some tag_j ->
  dict_get dn tag_j = None ->
  Forall2 (fun tag t => dict_get dn tag = Some (VTensor t))
          (firstn j tags) present ->
  IC2NER_forward self ft h = Err KeyError.
Proof.
  intros Hft Hic Hner Hln Hj Hmiss Hpres.
  assert (Hjlt : j < length tags) by (apply nth_error_Some; congruence).
  assert (Hlnlt : ln < length h) by (apply nth_error_Some; congruence).
  destruct (IC2NER_forward_prefix h ft (fun _ => ret (0, ic)) Hft Hic)
    as (icd & Hpre).
  unfold IC2NER_forward.
  rewrite (Hpre (fun input _ =>
    bind (forM_ (seq 0 (length (i2n_tags self) - 1))
                (IC2NER_attn_step self input)) (fun _ =>
    bind (dict_comprehension (i2n_tags self) (fun column =>
            bind (hgetitem2 input "H_NER" column) (fun ner =>
            bind (hgetitem2 input "IC" column) (fun ic =>
            ret (VTensor (matmul ner ic)))))) (fun ner_output =>
    bind (hgetitem input "H_NER") (fun v =>
    bind (lift (list_last (i2n_tags self))) (fun tag_last =>
    bind (as_dict v) (fun l_ner =>
    bind (hgetitem l_ner tag_last) (fun t =>
    bind (as_tensor t) (fun last_ner =>
    ret (ner_output, last_ner)))))))))).
  clear Hpre.
  set (input := length h).
  set (oi := dict_set o "IC" (VDict (length h + 1))).
  set (h3 := h ++ [oi; icd]).
  assert (Hin3 : nth_error h3 input = Some oi).
  { unfold h3, input. rewrite nth_error_app2 by lia. now rewrite Nat.sub_diag. }
  assert (Hoi_ner : dict_get oi "H_NER" = Some (VDict ln)).
  { unfold oi. rewrite dict_get_set_neq; [exact Hner | discriminate]. }
  assert (Hln3 : nth_error h3 ln = Some dn).
  { unfold h3. now rewrite nth_error_app1. }
  assert (Hneq : ln <> input) by (unfold input; lia).
  rewrite (@init_tags _ _ _ _ _ _ _ _ _ Hinit).
  destruct j as [|j].
  - (* the first level is missing *)
    destruct tags as [|t0 [|t1 trest]] eqn:Htags; [simpl in Hjlt; lia| |].
    + simpl in Hj. injection Hj as ->.
      simpl forM_. rewrite bind_ret.
      apply bind_Err. apply dict_comprehension_head_Err.
      apply bind_Err. eapply hgetitem2_KeyError; eauto.
    + simpl in Hj. injection Hj as ->.
      apply bind_Err. simpl seq. simpl forM_. apply bind_Err.
      rewrite <- Htags in *.
      assert (Ht0 : nth_error tags 0 = Some tag_j) by (rewrite Htags; reflexivity).
      unfold IC2NER_attn_step. rewrite (@init_tags _ _ _ _ _ _ _ _ _ Hinit).
      unfold list_getitem. rewrite Ht0, bind_lift_Ok.
      unfold dict_getitem.
      erewrite (@init_attn_get _ _ _ _ _ _ _ _ _ Hinit Hnd 0 tag_j)
        by (try exact Ht0; rewrite Htags; simpl; lia).
      rewrite bind_lift_Ok.
      apply bind_Err. eapply hgetitem2_KeyError; eauto.
  - (* a later level is missing: the loop reaches the turn that reads it *)
    apply bind_Err.
    replace (length tags - 1) with (j + (length tags - 1 - j)) by lia.
    rewrite seq_app, forM__app.
    assert (Hlenp : length present = S j).
    { rewrite <- (Forall2_length' Hpres), length_firstn. lia. }
    destruct present as [|x0 rest]; [discriminate|].
    assert (Hlr : length rest = j) by (simpl in Hlenp; lia).
    assert (Hprev : exists tag, nth_error tags 0 = Some tag
                                /\ dict_get dn tag = Some (VTensor x0)).
    { destruct (@Forall2_nth_r _ _ _ _ _ 0 x0 Hpres eq_refl) as (tag & Ht & Hg).
      rewrite nth_error_firstn in Ht. simpl in Ht. eauto. }
    assert (Hrest : forall i x, nth_error rest i = Some x ->
              exists tag, nth_error tags (0 + 1 + i) = Some tag
                          /\ dict_get dn tag = Some (VTensor x)).
    { intros i x Hx.
      destruct (@Forall2_nth_r _ _ _ _ _ (S i) x Hpres Hx) as (tag & Ht & Hg).
      rewrite nth_error_firstn in Ht.
      destruct (S i <? S j) eqn:E; [|discriminate]. eauto. }
    destruct (@attn_loop _ _ _ _ _ _ _ _ _ Hinit Hnd input oi ln rest 0 x0 h3 dn
                Hin3 Hoi_ner Hneq Hln3 Hprev Hrest)
      as (d' & Hloop & Hkeys & Hfix & Hcas).
    rewrite Hlr in Hloop.
    erewrite bind_Ok by exact Hloop.
    set (h4 := heap_update h3 ln d').
    assert (Hin4 : nth_error h4 input = Some oi).
    { unfold h4. rewrite heap_update_neq; auto. }
    assert (Hln4 : nth_error h4 ln = Some d').
    { unfold h4. apply heap_update_eq. unfold h3. rewrite length_app. lia. }
    assert (Hmiss' : dict_get d' tag_j = None).
    { apply dict_get_None. rewrite Hkeys. now apply dict_get_None. }
    assert (Hq : exists tag q, nth_error tags j = Some tag
                               /\ dict_get d' tag = Some (VTensor q)).
    { destruct j as [|j'].
      - destruct Hprev as (tag & Ht & Hg). exists tag, x0. split; [exact Ht|].
        rewrite Hfix; [exact Hg|].
        intros i Hi Hti. pose proof (@tags_inj tags Hnd _ _ _ Ht Hti). lia.
      - destruct (nth_error (cascade_spec attn 0 x0 rest) j') as [y|] eqn:Hy.
        + destruct (Hcas j' y Hy) as (tag & Ht & Hg). exists tag, y.
          split; [exact Ht | exact Hg].
        + apply nth_error_None in Hy. rewrite length_cascade_spec in Hy. lia. }
    destruct Hq as (tag_q & q & Htq & Hgq).
    destruct (length tags - 1 - j) as [|m] eqn:Hm; [lia|].
    simpl seq. simpl forM_. apply bind_Err.
    unfold IC2NER_attn_step. rewrite (@init_tags _ _ _ _ _ _ _ _ _ Hinit).
    unfold list_getitem. rewrite Htq, bind_lift_Ok.
    unfold dict_getitem.
    erewrite (@init_attn_get _ _ _ _ _ _ _ _ _ Hinit Hnd j tag_q)
      by (try exact Htq; lia).
    rewrite bind_lift_Ok.
    erewrite bind_Ok by (eapply hgetitem2_Ok; eauto).
    replace (j + 1) with (S j) by lia. rewrite Hj, bind_lift_Ok.
    apply bind_Err. eapply hgetitem2_KeyError; eauto.
Qed.
End MissingEntries.

(* ================================================================== *)
(** * The model: empty hierarchy, and what a forward pass writes        *)
(* ================================================================== *)

Section ModelEdge.
Context `{TA : TorchAttention} `{TR : @Transformers H}.

(** X3.  A model built from a label-count dictionary whose ['H_NER']
    entry is empty is constructed without error, but every forward pass
    raises [IndexError]: the cascade has no last level to return. *)
Theorem MT_IC_HNER_Model_forward_empty_hierarchy
    (ini : Init) (model_name : string) (num_labels : NumLabels)
    (proj_dim num_heads : nat) (hidden_dropout_prob layer_norm_eps : Float)
    (model : MT_IC_HNER_Model) :
  MT_IC_HNER_Model_init ini model_name num_labels proj_dim num_heads
    hidden_dropout_prob layer_norm_eps = Ok model ->
  nl_H_NER num_labels = [] ->
  forall (input : ModelInput) (h : heap),
    MT_IC_HNER_Model_forward model input h = Err IndexError.
Proof.
  intros Hinit Hnl input h.
  unfold MT_IC_HNER_Model_init in Hinit.
  destruct (AutoConfig_from_pretrained model_name) as [config|]; [|discriminate].
  simpl in Hinit.
  set (cfg := config_update config true hidden_dropout_prob layer_norm_eps false) in *.
  rewrite Hnl in Hinit. simpl in Hinit. injection Hinit as <-.
  unfold MT_IC_HNER_Model_forward. simpl.
  set (x := last_hidden_state (AutoModel_from_config cfg)
              (in_tokens input) (in_attn_mask input)).
  unfold bind at 1.
  rewrite (@LinearProjFormat_forward_run _ _ ini [] (NoDup_nil _)
             (hidden_size cfg) proj_dim x h).
  apply bind_Err.
  eapply IC2NER_forward_no_level with (v := VDict (length h)).
  - reflexivity.
  - rewrite nth_error_app2 by lia.
    replace (length h + 1 - length h) with 1 by lia. reflexivity.
  - reflexivity.
Qed.

(** X7.  A forward pass of the model writes to no dictionary that existed
    before the call: the heap it leaves is the one it found, followed by
    the six dictionaries it has created, the last of them being the
    returned one.  (The level dictionary that the cascade overwrites is
    one of the six.) *)
Theorem MT_IC_HNER_Model_forward_only_allocates
    (ini : Init) (model_name : string) (num_labels : NumLabels)
    (proj_dim num_heads : nat) (hidden_dropout_prob layer_norm_eps : Float)
    (model : MT_IC_HNER_Model) :
  MT_IC_HNER_Model_init ini model_name num_labels proj_dim num_heads
    hidden_dropout_prob layer_norm_eps = Ok model ->
  dict_wf (nl_H_NER num_labels) ->
  nl_H_NER num_labels <> [] ->
  forall (input : ModelInput) (h : heap),
  exists new : heap,
    MT_IC_HNER_Model_forward model input h = Ok (length h + 5, h ++ new)
    /\ length new = 6.
Proof.
  intros Hinit Hwf Hnl input h.
  set (tags := dict_keys (nl_H_NER num_labels)).
  assert (Hnd : NoDup tags) by exact Hwf.
  assert (Hne : tags <> []).
  { unfold tags, dict_keys. destruct (nl_H_NER num_labels); [congruence|discriminate]. }
  unfold MT_IC_HNER_Model_init in Hinit.
  destruct (AutoConfig_from_pretrained model_name) as [config|]; [|discriminate].
  simpl in Hinit. fold tags in Hinit.
  set (cfg := config_update config true hidden_dropout_prob layer_norm_eps false) in *.
  destruct (IC2NER_init ini tags num_labels (max_position_embeddings cfg)
              proj_dim num_heads) as [ic2ner|] eqn:Hi2n; [|discriminate].
  simpl in Hinit. injection Hinit as <-.
  set (x := last_hidden_state (AutoModel_from_config cfg)
              (in_tokens input) (in_attn_mask input)).
  set (icp := linear_forward3 (init_format_IC ini (hidden_size cfg) proj_dim) x).
  set (nerd := ner_projections ini tags (hidden_size cfg) proj_dim x).
  set (fmt := [("IC", VTensor icp); ("H_NER", VDict (length h))] : obj).
  set (h1 := h ++ [nerd; fmt]).
  assert (Hft : nth_error h1 (length h + 1) = Some fmt).
  { unfold h1. rewrite nth_error_app2 by lia.
    now replace (length h + 1 - length h) with 1 by lia. }
  assert (Hln : nth_error h1 (length h) = Some nerd).
  { unfold h1. rewrite nth_error_app2 by lia. now rewrite Nat.sub_diag. }
  destruct (@IC2NER_forward_run _ _ _ _ _ _ _ _ _ Hi2n Hnd h1 (length h + 1) fmt
              icp (length h) nerd
              (projections ini tags (hidden_size cfg) proj_dim x)
              Hne Hft eq_refl eq_refl Hln
              (ner_projections_get ini Hnd _ _ _))
    as (d' & icd & mixd & last_ner & Hrun & _).
  assert (Hlen1 : length h1 = length h + 2)
    by (unfold h1; rewrite length_app; simpl; lia).
  assert (Hh1 : heap_update h1 (length h) d' = h ++ [d'; fmt]).
  { unfold h1. apply heap_update_app_new. }
  rewrite Hh1 in Hrun.
  set (oi := dict_set fmt "IC" (VDict (length h1 + 1))) in *.
  set (out := [("IC", VLogits (NER2IC_forward
                                 (NER2IC_init ini num_labels proj_dim)
                                 icp last_ner));
               ("H_NER", VDict (length h1 + 2))] : obj).
  exists [d'; fmt; oi; icd; mixd; out]. split; [|reflexivity].
  unfold MT_IC_HNER_Model_forward. simpl.
  fold x. unfold bind at 1.
  rewrite (LinearProjFormat_forward_run ini Hnd (hidden_size cfg) proj_dim x h).
  fold icp. fold nerd. fold fmt. fold h1.
  erewrite bind_Ok by exact Hrun. simpl fst. simpl snd.
  erewrite bind_Ok.
  2: { eapply hgetitem_Ok with (o := fmt); [|reflexivity].
       rewrite <- app_assoc. rewrite nth_error_app2 by lia.
       now replace (length h + 1 - length h) with 1 by lia. }
  simpl as_tensor. rewrite bind_ret. unfold alloc. fold out.
  rewrite <- !app_assoc. simpl app.
  do 2 f_equal. rewrite !length_app. simpl. lia.
Qed.
End ModelEdge.


(* ================================================================== *)
(** * The pooling head: what it keeps of its two inputs                 *)
(* ================================================================== *)

Module PoolingFacts.
Import QT QTFacts PoolingClaim.
Local Open Scope Qc_scope.













End PoolingFacts.




(* ================================================================== *)
(** * The tag table and its inverse                                     *)
(* ================================================================== *)

Section InvertFacts.
Context {K V : Type} `{PyKey K}.

Lemma dict_of_list_snoc (kvs : list (K * V)) k v :
  dict_of_list (kvs ++ [(k, v)]) = dict_set (dict_of_list kvs) k v.
Proof. unfold dict_of_list. now rewrite fold_left_app. Qed.

(** In a comprehension the last pair of a key decides its value. *)
Lemma dict_of_list_last (l1 l2 : list (K * V)) k v :
  ~ In k (map fst l2) ->
  dict_get (dict_of_list (l1 ++ (k, v) :: l2)) k = Some v.
Proof.
  induction l2 as [|[k' v'] l2 IH] using rev_ind; intros Hni.
  - rewrite dict_of_list_snoc. apply dict_get_set_eq.
  - rewrite app_comm_cons, app_assoc, dict_of_list_snoc.
    rewrite map_app, in_app_iff in Hni. simpl in Hni.
    rewrite dict_get_set_neq by (intros ->; tauto).
    apply IH. tauto.
Qed.

Lemma dict_of_list_get_In (kvs : list (K * V)) k v :
  dict_get (dict_of_list kvs) k = Some v -> In (k, v) kvs.
Proof.
  induction kvs as [|[k' v'] kvs IH] using rev_ind; intros Hg.
  - discriminate.
  - rewrite dict_of_list_snoc in Hg. apply in_or_app.
    destruct (keyb_spec k' k) as [->|Hneq].
    + rewrite dict_get_set_eq in Hg. injection Hg as ->. right. now left.
    + rewrite dict_get_set_neq in Hg by exact Hneq. left. now apply IH.
Qed.
End InvertFacts.

Section Invert.
Context {K V : Type} `{PyKey K} `{PyKey V}.

Lemma dict_invert_last (d1 d2 : dict K V) k v :
  (forall k', ~ In (k', v) d2) ->
  dict_get (dict_invert (d1 ++ (k, v) :: d2)) v = Some k.
Proof.
  intros Hlast. unfold dict_invert. rewrite map_app. simpl.
  apply dict_of_list_last. rewrite map_map. simpl.
  intros Hin. apply in_map_iff in Hin. destruct Hin as ([k' v'] & Hv & Hin).
  simpl in Hv. subst v'. exact (Hlast k' Hin).
Qed.

(** X13.  When several keys of a dictionary share a value, the inverted
    dictionary maps the value to the key that comes last: for the tag
    table, an id shared by two tags is decoded to the later tag, never to
    the earlier one. *)
Theorem dict_invert_keeps_last_key (d1 d2 : dict K V) (k : K) (v : V) :
  (forall k', ~ In (k', v) d2) ->
  dict_get (dict_invert (d1 ++ (k, v) :: d2)) v = Some k
  /\ forall k0, k0 <> k ->
       dict_get (dict_invert (d1 ++ (k, v) :: d2)) v <> Some k0.
Proof.
  intros Hlast. pose proof (@dict_invert_last d1 d2 k v Hlast) as Hg.
  split; [exact Hg|]. intros k0 Hneq. rewrite Hg. congruence.
Qed.

(** The tag of an id, when ids are pairwise distinct. *)
Lemma dict_invert_get (d : dict K V) k v :
  dict_wf d ->
  (forall k k' v, dict_get d k = Some v -> dict_get d k' = Some v -> k = k') ->
  dict_get d k = Some v -> dict_get (dict_invert d) v = Some k.
Proof.
  intros Hwf Hinj Hg. pose proof (dict_get_Some_In _ _ Hg) as Hin.
  apply in_split in Hin. destruct Hin as (d1 & d2 & ->).
  apply dict_invert_last. intros k' Hin'.
  assert (Hk' : dict_get (d1 ++ (k, v) :: d2) k' = Some v).
  { apply dict_get_In; [exact Hwf|]. apply in_or_app. right. now right. }
  pose proof (Hinj _ _ _ Hg Hk') as <-.
  unfold dict_wf, dict_keys in Hwf. rewrite map_app in Hwf. simpl in Hwf.
  apply NoDup_remove_2 in Hwf. apply Hwf. apply in_or_app. right.
  apply in_map_iff. exists (k, v). auto.
Qed.

(** X12.  The inverse of a dictionary whose values are pairwise distinct
    inverts it exactly: a value is mapped to a key if and only if the
    dictionary maps that key to that value.  For the evaluator,
    [idx2ner.get(ner2idx[tag])] is [tag], and an integer that is no id of
    [ner2idx] has no tag. *)
Theorem dict_invert_round_trip (d : dict K V) :
  dict_wf d ->
  (forall k k' v, dict_get d k = Some v -> dict_get d k' = Some v -> k = k') ->
  forall k v, dict_get (dict_invert d) v = Some k <-> dict_get d k = Some v.
Proof.
  intros Hwf Hinj k v. split.
  - intros Hg. unfold dict_invert in Hg. apply dict_of_list_get_In in Hg.
    apply in_map_iff in Hg. destruct Hg as ([k' v'] & Heq & Hin).
    simpl in Heq. injection Heq as -> ->. now apply dict_get_In.
  - now apply dict_invert_get.
Qed.
End Invert.

(** X14.  Decoding inverts the encoding: an array of ids obtained from
    tags of a tag table with pairwise distinct ids is decoded, by the
    evaluator's [np.vectorize(idx2ner.get)], to exactly those tags. *)
Theorem vectorize_get_decodes_encoded_tags
    (ner2idx : dict string Z) (a : tensor2 Z) (tags : list (list string)) :
  dict_wf ner2idx ->
  (forall k k' v, dict_get ner2idx k = Some v -> dict_get ner2idx k' = Some v ->
                  k = k') ->
  Forall2 (Forall2 (fun i tag => dict_get ner2idx tag = Some i)) (t_rows a) tags ->
  concat (t_rows a) <> [] ->
  vectorize_get (dict_invert ner2idx) a
  = Ok (mk_tensor2 (t_ncols a) (map (map PStr) tags)).
Proof.
  intros Hwf Hinj Henc Hne. unfold vectorize_get.
  destruct (concat (t_rows a)) as [|x0 rest]; [congruence|].
  do 2 f_equal. clear Hne.
  induction Henc as [|row trow rows trows Hrow _ IH]; simpl; [reflexivity|].
  f_equal; [|exact IH].
  induction Hrow as [|i tag row trow Hi _ IHr]; simpl; [reflexivity|].
  f_equal; [|exact IHr].
  apply (@dict_invert_get _ _ _ _ ner2idx tag i Hwf Hinj) in Hi. now rewrite Hi.
Qed.


(* ================================================================== *)
(** * The evaluator: model calls, failures and the language array       *)
(* ================================================================== *)

Section EvaluatorRuns.
Context `{SC : Scorer} `{EM : EvalModel}.

Lemma stack_batch_snd (tr : Trainer) idx (b : Batch) (s : MState) :
  snd (stack_batch tr idx b s) = snd (model_call s (labels b) (fields b)).
Proof.
  unfold stack_batch. now destruct (model_call s (labels b) (fields b)).
Qed.


(** When no batch fails, the model has been called on every batch, in
    order, and every batch has stacked one entry. *)
Lemma stack_predictions_state (tr : Trainer) idx (bl : list Batch) :
  forall acc s sts,
    fst (stack_predictions tr idx bl acc s) = Ok sts ->
    snd (stack_predictions tr idx bl acc s)
    = fold_left (fun s b => snd (model_call s (labels b) (fields b))) bl s
    /\ length sts = length acc + length bl.
Proof.
  induction bl as [|b bl IH]; intros acc s sts Hrun; simpl in *.
  - injection Hrun as <-. split; [reflexivity | lia].
  - unfold ebind in *. pose proof (stack_batch_snd tr idx b s) as Hs.
    destruct (stack_batch tr idx b s) as [[st|e] s']; simpl in Hs; subst s';
      [|discriminate].
    destruct (IH _ _ _ Hrun) as (Hst & Hlen). split; [exact Hst|].
    rewrite Hlen, length_app. simpl. lia.
Qed.

(** Every batch of a completed inference pass has stacked its entry. *)
Lemma stack_predictions_In (tr : Trainer) idx (bl : list Batch) :
  forall acc s sts b,
    fst (stack_predictions tr idx bl acc s) = Ok sts ->
    In b bl ->
    exists s' st, fst (stack_batch tr idx b s') = Ok st /\ In st sts.
Proof.
  induction bl as [|b0 bl IH]; intros acc s sts b Hrun Hin; [contradiction|].
  simpl in Hrun. unfold ebind in Hrun.
  destruct (stack_batch tr idx b0 s) as [[st0|e] s0] eqn:Hb0; [|discriminate].
  assert (Hacc : forall x, In x (acc ++ [st0]) -> In x sts).
  { clear -Hrun. revert Hrun. generalize (acc ++ [st0]) as acc'. revert s0 sts.
    induction bl as [|b bl IHb]; intros s0 sts acc' Hrun x Hx; simpl in Hrun.
    - injection Hrun as <-. exact Hx.
    - unfold ebind in Hrun.
      destruct (stack_batch tr idx b s0) as [[st|e] s1]; [|discriminate].
      eapply IHb; [exact Hrun|]. apply in_or_app. now left. }
  destruct Hin as [<-|Hin].
  - exists s, st0. rewrite Hb0. split; [reflexivity|].
    apply Hacc. apply in_or_app. right. now left.
  - eapply IH; eauto.
Qed.

(** An empty data loader makes the evaluation raise [ValueError]
    (there is nothing to concatenate); the model is not called. *)
Lemma evaluate_metrics_empty_loader
    (tr : Trainer) (language_arr : list string) (s : MState) :
  evaluate_metrics tr [] language_arr s = (Err ValueError, s).
Proof. reflexivity. Qed.

(** X15.  When no batch fails, the evaluator has called the model exactly
    once on every batch, in the order of the data loader, whatever the
    aggregation does afterwards: the state it leaves is the one these
    calls leave, and one entry per batch has been stacked. *)
Theorem evaluate_metrics_calls_model_once_per_batch
    (tr : Trainer) (val_dtl : list Batch) (language_arr : list string)
    (s : MState) (stacked : list Stacked) :
  fst (stack_predictions tr (dict_invert (eval_dataset_ner2idx tr))
         val_dtl [] s) = Ok stacked ->
  snd (evaluate_metrics tr val_dtl language_arr s)
  = fold_left (fun s b => snd (model_call s (labels b) (fields b))) val_dtl s
  /\ length stacked = length val_dtl.
Proof.
  intros Hrun. destruct (stack_predictions_state _ _ _ _ _ Hrun) as (Hst & Hlen).
  split; [|exact Hlen].
  unfold evaluate_metrics, ebind, elift.
  destruct (stack_predictions tr _ val_dtl [] s) as [[sts|e] s'];
    simpl in *; [exact Hst | discriminate].
Qed.

End EvaluatorRuns.

Section LanguageArray.
Context `{SC : Scorer} `{EM : EvalModel}.

(** What a returning aggregation has computed. *)
Lemma aggregate_Ok_inv (sts : list Stacked) (la : list string) g lm :
  aggregate sts la = Ok (g, lm) ->
  exists icl ico gold pred,
    concatenate (map st_ic_labels sts) = Ok (Nd1 icl)
    /\ concatenate (map st_ic_output sts) = Ok (Nd1 ico)
    /\ concatenate (map st_ner_labels sts) = Ok (Nd2 gold)
    /\ concatenate (map st_ner_output sts) = Ok (Nd2 pred)
    /\ length icl = length ico
    /\ g = metrics_of icl ico (t_rows gold) (t_rows pred)
    /\ language_loop (unique String.ltb la) la
         (Nd1 icl) (Nd1 ico) (Nd2 gold) (Nd2 pred) [] = Ok lm.
Proof.
  unfold aggregate.
  destruct (concatenate (map st_ic_labels sts)) as [ICL|]; [|discriminate].
  destruct (concatenate (map st_ic_output sts)) as [ICO|]; [|discriminate].
  destruct (concatenate (map st_ner_labels sts)) as [NL|]; [|discriminate].
  destruct (concatenate (map st_ner_output sts)) as [NO|]; [|discriminate].
  cbn [rbind].
  destruct (five_metrics None ICL ICO NL NO) as [g'|] eqn:Hg; [|discriminate].
  cbn [rbind].
  destruct (language_loop _ _ _ _ _ _ _) as [lm'|] eqn:Hl; [|discriminate].
  cbn [rbind]. intros [= <- <-].
  destruct (five_metrics_None_inv _ _ _ _ Hg)
    as (icl & ico & gold & pred & -> & -> & -> & -> & Hlen).
  rewrite (@five_metrics_None _ _ icl ico gold pred Hlen) in Hg. injection Hg as <-.
  exists icl, ico, gold, pred. repeat split; assumption.
Qed.

Lemma aggregate_Ok (sts : list Stacked) (la : list string) icl ico gold pred :
  concatenate (map st_ic_labels sts) = Ok (Nd1 icl) ->
  concatenate (map st_ic_output sts) = Ok (Nd1 ico) ->
  concatenate (map st_ner_labels sts) = Ok (Nd2 gold) ->
  concatenate (map st_ner_output sts) = Ok (Nd2 pred) ->
  length icl = length ico ->
  aggregate sts la
  = rbind (language_loop (unique String.ltb la) la
             (Nd1 icl) (Nd1 ico) (Nd2 gold) (Nd2 pred) [])
          (fun lm => Ok (metrics_of icl ico (t_rows gold) (t_rows pred), lm)).
Proof.
  intros H1 H2 H3 H4 Hlen. unfold aggregate.
  rewrite H1, H2, H3, H4. cbn [rbind].
  rewrite (@five_metrics_None _ _ icl ico gold pred Hlen). reflexivity.
Qed.

Lemma unique_nonempty (la : list string) :
  la <> [] -> exists l0 rest, unique String.ltb la = l0 :: rest.
Proof.
  intros Hne. destruct la as [|a la]; [congruence|].
  destruct (unique String.ltb (a :: la)) as [|l0 rest] eqn:E; [|eauto].
  exfalso.
  assert (Hin : In a (unique String.ltb (a :: la)))
    by (apply (In_unique String.ltb string_ltb_total); now left).
  rewrite E in Hin. exact Hin.
Qed.

(** The collections of a returning aggregation have one entry per entry
    of a non-empty language array. *)
Lemma language_loop_lengths (la : list string) icl ico gold pred lm :
  la <> [] ->
  language_loop (unique String.ltb la) la
    (Nd1 icl) (Nd1 ico) (Nd2 gold) (Nd2 pred) [] = Ok lm ->
  length la = length icl /\ length la = length ico
  /\ length la = length (t_rows gold) /\ length la = length (t_rows pred).
Proof.
  intros Hne Hl.
  destruct (unique_nonempty Hne) as (l0 & rest & Hu). rewrite Hu in Hl.
  simpl in Hl.
  destruct (five_metrics (Some (lang_mask la l0)) (Nd1 icl) (Nd1 ico)
              (Nd2 gold) (Nd2 pred)) as [m|] eqn:Hm; [|discriminate].
  apply five_metrics_Some_inv in Hm. now rewrite length_lang_mask in Hm.
Qed.

(** X17.  The global metrics do not depend on the language array, and an
    empty language array is accepted whatever the number of examples: the
    evaluation then returns the same global metrics and an empty
    per-language mapping, and leaves the model in the same state. *)
Theorem evaluate_metrics_global_ignores_language_arr
    (tr : Trainer) (val_dtl : list Batch) (language_arr : list string)
    (s : MState) (global_metrics : Metrics) (lang_metrics : dict string Metrics) :
  fst (evaluate_metrics tr val_dtl language_arr s)
  = Ok (global_metrics, lang_metrics) ->
  evaluate_metrics tr val_dtl [] s
  = (Ok (global_metrics, []), snd (evaluate_metrics tr val_dtl language_arr s)).
Proof.
  unfold evaluate_metrics, ebind, elift.
  destruct (stack_predictions tr _ val_dtl [] s) as [[sts|e] s'];
    simpl; [|discriminate].
  intros Hagg.
  destruct (aggregate_Ok_inv _ _ Hagg)
    as (icl & ico & gold & pred & H1 & H2 & H3 & H4 & Hlen & -> & _).
  now rewrite (aggregate_Ok _ [] H1 H2 H3 H4 Hlen).
Qed.

(** X18.  A non-empty language array whose length is not the number of
    evaluated examples makes the evaluation raise [IndexError] (at the
    first boolean mask): the length for which an evaluation returns is
    the only one. *)
Theorem evaluate_metrics_language_length_mismatch
    (tr : Trainer) (val_dtl : list Batch) (la0 la : list string) (s : MState)
    (r0 : Metrics * dict string Metrics) :
  fst (evaluate_metrics tr val_dtl la0 s) = Ok r0 ->
  la0 <> [] -> la <> [] ->
  length la <> length la0 ->
  fst (evaluate_metrics tr val_dtl la s) = Err IndexError.
Proof.
  rewrite !evaluate_metrics_fst.
  destruct (fst (stack_predictions tr _ val_dtl [] s)) as [sts|e];
    simpl; [|discriminate].
  destruct r0 as [g lm]. intros Hagg Hne0 Hne Hlen.
  destruct (aggregate_Ok_inv _ _ Hagg)
    as (icl & ico & gold & pred & H1 & H2 & H3 & H4 & Hl & _ & Hloop).
  destruct (@language_loop_lengths la0 icl ico gold pred lm Hne0 Hloop) as (L1 & _).
  rewrite (aggregate_Ok _ la H1 H2 H3 H4 Hl).
  destruct (unique_nonempty Hne) as (l0 & rest & ->).
  simpl. unfold five_metrics, restrict, bool_index.
  rewrite length_lang_mask.
  destruct (length la =? length icl) eqn:E; [|reflexivity].
  apply Nat.eqb_eq in E. congruence.
Qed.

Lemma unique_single (lang : string) (la : list string) :
  la <> [] -> Forall (eq lang) la -> unique String.ltb la = [lang].
Proof.
  induction la as [|a la IH]; intros Hne HF; [congruence|].
  inversion HF as [|? ? <- HF']; subst. simpl.
  destruct la as [|b la]; [reflexivity|].
  rewrite IH by (try discriminate; exact HF'). simpl.
  now rewrite string_ltb_irrefl.
Qed.

Lemma select_all_true {A} (mask : list bool) (l : list A) :
  Forall (eq true) mask -> length mask = length l -> select mask l = l.
Proof.
  revert l. induction mask as [|m mask IH]; intros [|x l] HF Hl;
    simpl in *; try discriminate; [reflexivity|].
  inversion HF as [|? ? <- HF']; subst. f_equal. apply IH; [exact HF' | lia].
Qed.

Lemma lang_mask_single (lang : string) (la : list string) :
  Forall (eq lang) la -> Forall (eq true) (lang_mask la lang).
Proof.
  induction 1 as [|a la <- _ IH]; simpl; constructor; [|exact IH].
  now rewrite String.eqb_refl.
Qed.

(** X19.  When every example has the same language, the per-language
    mapping of a returning evaluation has that language as its only key,
    and its record is the record of global metrics. *)
Theorem evaluate_metrics_single_language
    (tr : Trainer) (val_dtl : list Batch) (language_arr : list string)
    (lang : string) (s : MState)
    (global_metrics : Metrics) (lang_metrics : dict string Metrics) :
  language_arr <> [] ->
  Forall (eq lang) language_arr ->
  fst (evaluate_metrics tr val_dtl language_arr s)
  = Ok (global_metrics, lang_metrics) ->
  lang_metrics = [(lang, global_metrics)].
Proof.
  intros Hne HF. rewrite evaluate_metrics_fst.
  destruct (fst (stack_predictions tr _ val_dtl [] s)) as [sts|e];
    simpl; [|discriminate].
  intros Hagg.
  destruct (aggregate_Ok_inv _ _ Hagg)
    as (icl & ico & gold & pred & _ & _ & _ & _ & Hl & -> & Hloop).
  destruct (@language_loop_lengths language_arr icl ico gold pred lang_metrics Hne Hloop)
    as (L1 & L2 & L3 & L4).
  rewrite (unique_single Hne HF) in Hloop. simpl in Hloop.
  rewrite five_metrics_Some in Hloop by (rewrite length_lang_mask; assumption).
  pose proof (lang_mask_single HF) as Hall.
  rewrite !(fun A (l : list A) => @select_all_true A _ l Hall) in Hloop
    by (rewrite length_lang_mask; assumption).
  simpl in Hloop. now injection Hloop as <-.
Qed.
End LanguageArray.

(* ================================================================== *)
(** * The evaluator: batches it cannot process                          *)
(* ================================================================== *)

Section BatchEdges.
Context `{SC : Scorer} `{EM : EvalModel}.

Lemma stack_batch_ic_labels (tr : Trainer) idx (b : Batch) (s : MState) st :
  fst (stack_batch tr idx b s) = Ok st ->
  st_ic_labels st = split_ic_labels (labels b).
Proof.
  unfold stack_batch.
  destruct (model_call s (labels b) (fields b)) as [out s']. simpl.
  destruct (predict_ic tr out); [|discriminate]. simpl.
  destruct (predict_ner tr out); [|discriminate]. simpl.
  destruct (vectorize_get idx (split_ner_labels (labels b))); [|discriminate].
  simpl. destruct (vectorize_get idx _); [|discriminate]. simpl.
  now intros [= <-].
Qed.

Lemma split_ic_labels_single (l : tensor2 Z) (r : list Z) :
  wf2 l -> 1 <= t_ncols l -> t_rows l = [r] ->
  split_ic_labels l = Nd0 (nth 0 r 0%Z).
Proof.
  destruct l as [c rows]. unfold wf2. simpl. intros Hwf Hc ->.
  inversion Hwf as [|? ? Hr _]; subst.
  destruct r as [|x r]; [simpl in Hc; lia|].
  unfold split_ic_labels, slice_cols_to, squeeze. simpl. reflexivity.
Qed.

(** X20.  A data loader with a batch of exactly one example makes the
    evaluation fail: the squeeze turns the IC label of that batch into a
    scalar, which cannot be concatenated (or the run has failed before on
    another batch). *)
Theorem evaluate_metrics_single_example_batch
    (tr : Trainer) (val_dtl : list Batch) (language_arr : list string)
    (s : MState) (batch : Batch) (r : list Z) :
  In batch val_dtl ->
  wf2 (labels batch) ->
  1 <= t_ncols (labels batch) ->
  t_rows (labels batch) = [r] ->
  exists e, fst (evaluate_metrics tr val_dtl language_arr s) = Err e.
Proof.
  intros Hin Hwf Hc Hr.
  destruct (fst (evaluate_metrics tr val_dtl language_arr s)) as [[g lm]|e] eqn:Hrun;
    [exfalso|eauto].
  rewrite evaluate_metrics_fst in Hrun.
  destruct (fst (stack_predictions tr _ val_dtl [] s)) as [sts|e] eqn:Hst;
    simpl in Hrun; [|discriminate].
  destruct (aggregate_Ok_inv _ _ Hrun) as (icl & _ & _ & _ & H1 & _).
  destruct (stack_predictions_In _ _ _ _ _ batch Hst Hin) as (s' & st & Hb & Hst').
  apply stack_batch_ic_labels in Hb.
  rewrite (split_ic_labels_single Hwf Hc Hr) in Hb.
  apply concatenate_Nd1_inv in H1. destruct H1 as (_ & Harr & _).
  assert (Hin' : In (st_ic_labels st) (map st_ic_labels sts)) by now apply in_map.
  rewrite Harr, Hb in Hin'. apply in_map_iff in Hin'.
  destruct Hin' as (xs & Hxs & _). discriminate.
Qed.

Lemma concat_short_rows (rows : list (list Z)) :
  Forall (fun r => length r <= 1) rows -> concat (map (skipn 1) rows) = [].
Proof.
  induction 1 as [|r rows Hr _ IH]; [reflexivity|].
  cbn [map concat]. rewrite IH, app_nil_r.
  destruct r as [|x [|y r]]; simpl in *; try reflexivity; lia.
Qed.

(** X21.  A batch whose label tensor has no NER column, or no row, makes
    the evaluation of that batch raise [ValueError] once the model has
    answered and both predictions are computed: [np.vectorize] refuses an
    array without elements. *)
Theorem stack_batch_without_ner_labels
    (tr : Trainer) (idx2ner : dict Z string) (batch : Batch) (s : MState)
    (ic_output : list nat) (ner_output : tensor2 nat) :
  let output := fst (model_call s (labels batch) (fields batch)) in
  predict_ic tr output = Ok ic_output ->
  predict_ner tr output = Ok ner_output ->
  wf2 (labels batch) ->
  t_ncols (labels batch) <= 1 \/ t_rows (labels batch) = [] ->
  fst (stack_batch tr idx2ner batch s) = Err ValueError.
Proof.
  intros output Hic Hner Hwf Hshape. unfold stack_batch.
  subst output.
  destruct (model_call s (labels batch) (fields batch)) as [out s'].
  simpl in *. rewrite Hic, Hner. simpl.
  assert (Hempty : concat (t_rows (split_ner_labels (labels batch))) = []).
  { unfold split_ner_labels, slice_cols_from. simpl.
    apply concat_short_rows. destruct Hshape as [Hc|Hr].
    - unfold wf2 in Hwf. eapply Forall_impl; [|exact Hwf].
      simpl. intros a Ha. lia.
    - rewrite Hr. constructor. }
  unfold vectorize_get at 1. rewrite Hempty. reflexivity.
Qed.
End BatchEdges.

(* ================================================================== *)
(** * The evaluator: what a returning run says about its inputs         *)
(* ================================================================== *)

Section ReturningRuns.
Context `{SC : Scorer} `{EM : EvalModel}.

(** The entries of a completed inference pass, batch by batch. *)
Lemma stack_predictions_Forall2 (tr : Trainer) idx (bl : list Batch) :
  forall acc s sts,
    fst (stack_predictions tr idx bl acc s) = Ok sts ->
    exists new,
      sts = acc ++ new
      /\ Forall2 (fun b st => exists s', fst (stack_batch tr idx b s') = Ok st)
                 bl new.
Proof.
  induction bl as [|b bl IH]; intros acc s sts Hrun; simpl in Hrun.
  - injection Hrun as <-. exists []. split; [now rewrite app_nil_r | constructor].
  - unfold ebind in Hrun.
    destruct (stack_batch tr idx b s) as [[st|e] s0] eqn:Hb; [|discriminate].
    destruct (IH _ _ _ Hrun) as (new & -> & HF).
    exists (st :: new). split; [now rewrite <- app_assoc|].
    constructor; [|exact HF]. exists s. now rewrite Hb.
Qed.

Lemma stack_batch_ner_labels (tr : Trainer) idx (b : Batch) (s : MState) st :
  fst (stack_batch tr idx b s) = Ok st ->
  exists t, st_ner_labels st = Nd2 t /\ t_ncols t = t_ncols (labels b) - 1.
Proof.
  unfold stack_batch.
  destruct (model_call s (labels b) (fields b)) as [out s']. simpl.
  destruct (predict_ic tr out); [|discriminate]. simpl.
  destruct (predict_ner tr out); [|discriminate]. simpl.
  destruct (vectorize_get idx (split_ner_labels (labels b))) as [gold|] eqn:Hg;
    [|discriminate].
  simpl. destruct (vectorize_get idx (ids_of _)); [|discriminate]. simpl.
  intros Heq. injection Heq as Heq. subst st.
  exists gold. split; [reflexivity|].
  unfold vectorize_get in Hg.
  destruct (concat (t_rows (split_ner_labels (labels b)))); [discriminate|].
  injection Hg as <-. reflexivity.
Qed.

(** The squeezed IC labels, when they are an array, have one entry per
    row of the label tensor. *)
Lemma split_ic_labels_Nd1 (l : tensor2 Z) (xs : list Z) :
  wf2 l -> 1 <= t_ncols l -> split_ic_labels l = Nd1 xs ->
  length xs = length (t_rows l).
Proof.
  destruct l as [c rows]. unfold wf2. simpl. intros Hwf Hc.
  assert (Hrows : Forall (fun r => 1 <= length r) rows).
  { eapply Forall_impl; [|exact Hwf]. simpl. intros r Hr. lia. }
  unfold split_ic_labels, slice_cols_to, squeeze. cbn [t_rows t_ncols].
  replace (Nat.min 1 c) with 1 by lia. rewrite length_map.
  rewrite (concat_firstn_1 Hrows).
  cbn [filter]. change (1 =? 1) with true. cbn [negb].
  destruct (length rows =? 1) eqn:E; cbn [negb].
  - destruct rows as [|r [|r' rows]]; discriminate.
  - intros [= <-]. now rewrite length_map.
Qed.

(** X25.  A returning evaluation with a non-empty language array has been
    given one language per labelled example: the length of the array is
    the total number of rows of the batches' label tensors. *)
Theorem evaluate_metrics_language_arr_length
    (tr : Trainer) (val_dtl : list Batch) (language_arr : list string)
    (s : MState) (r : Metrics * dict string Metrics) :
  fst (evaluate_metrics tr val_dtl language_arr s) = Ok r ->
  language_arr <> [] ->
  Forall (fun b => wf2 (labels b) /\ 1 <= t_ncols (labels b)) val_dtl ->
  length language_arr
  = list_sum (map (fun b => length (t_rows (labels b))) val_dtl).
Proof.
  rewrite evaluate_metrics_fst.
  destruct (fst (stack_predictions tr _ val_dtl [] s)) as [sts|e] eqn:Hst;
    simpl; [|discriminate].
  destruct r as [g lm]. intros Hagg Hne Hwf.
  destruct (aggregate_Ok_inv _ _ Hagg)
    as (icl & ico & gold & pred & H1 & _ & _ & _ & _ & _ & Hloop).
  destruct (@language_loop_lengths _ _ language_arr icl ico gold pred lm Hne Hloop)
    as (L1 & _).
  rewrite L1.
  apply concatenate_Nd1_inv in H1. destruct H1 as (_ & Harr & ->).
  destruct (stack_predictions_Forall2 _ _ _ _ _ Hst) as (new & -> & HF).
  simpl in Harr |- *. clear Hst Hagg Hloop L1.
  induction HF as [|b st bl new (s' & Hb) _ IH]; [reflexivity|].
  inversion Hwf as [|? ? (Hw & Hc) Hwf']; subst.
  simpl in Harr. injection Harr as Hhd Htl.
  simpl. rewrite length_app, (IH Hwf' Htl). f_equal.
  apply stack_batch_ic_labels in Hb. rewrite Hb in Hhd.
  rewrite Hb. rewrite Hhd. simpl.
  now apply split_ic_labels_Nd1.
Qed.

(** X26.  In a returning evaluation all the batches have label tensors of
    the same width: decoded NER labels of different widths cannot be
    concatenated. *)
Theorem evaluate_metrics_label_width
    (tr : Trainer) (val_dtl : list Batch) (language_arr : list string)
    (s : MState) (r : Metrics * dict string Metrics) (b1 b2 : Batch) :
  fst (evaluate_metrics tr val_dtl language_arr s) = Ok r ->
  In b1 val_dtl -> In b2 val_dtl ->
  1 <= t_ncols (labels b1) -> 1 <= t_ncols (labels b2) ->
  t_ncols (labels b1) = t_ncols (labels b2).
Proof.
  rewrite evaluate_metrics_fst.
  destruct (fst (stack_predictions tr _ val_dtl [] s)) as [sts|e] eqn:Hst;
    simpl; [|discriminate].
  intros Hagg Hin1 Hin2 Hc1 Hc2.
  destruct (aggregate_inv _ _ Hagg) as (_ & c_gold & _ & Hgold & _).
  rewrite Forall_forall in Hgold.
  destruct (stack_predictions_In _ _ _ _ _ b1 Hst Hin1) as (s1 & st1 & Hb1 & Hst1).
  destruct (stack_predictions_In _ _ _ _ _ b2 Hst Hin2) as (s2 & st2 & Hb2 & Hst2).
  destruct (stack_batch_ner_labels _ _ _ _ Hb1) as (t1 & Ht1 & Hw1).
  destruct (stack_batch_ner_labels _ _ _ _ Hb2) as (t2 & Ht2 & Hw2).
  destruct (Hgold _ Hst1) as (t1' & Ht1' & Hc1').
  destruct (Hgold _ Hst2) as (t2' & Ht2' & Hc2').
  assert (t1' = t1) by congruence. assert (t2' = t2) by congruence. subst.
  lia.
Qed.
End ReturningRuns.


(* ================================================================== *)
(** * The predictions: which logits decide which label                  *)
(* ================================================================== *)

Section ArgmaxOrder.
Context {S : Type} (ltb : S -> S -> bool).
Hypothesis ltb_irrefl : forall a, ltb a a = false.
Hypothesis ltb_trans :
  forall a b c, ltb a b = true -> ltb b c = true -> ltb a c = true.
Hypothesis ltb_cotrans :
  forall a b c, ltb a b = true -> ltb a c = true \/ ltb c b = true.

(** The scan keeps the first largest element of what it has seen. *)
Lemma argmax_from_spec (l : list S) :
  forall (seen : list S) best vbest,
    nth_error seen best = Some vbest ->
    (forall j x, nth_error seen j = Some x -> ltb vbest x = false) ->
    (forall j x, j < best -> nth_error seen j = Some x -> ltb x vbest = true) ->
    exists v,
      nth_error (seen ++ l) (argmax_from ltb best vbest (length seen) l) = Some v
      /\ (forall j x, nth_error (seen ++ l) j = Some x -> ltb v x = false)
      /\ (forall j x, j < argmax_from ltb best vbest (length seen) l ->
            nth_error (seen ++ l) j = Some x -> ltb x v = true).
Proof.
  induction l as [|y l IH]; intros seen best vbest Hb Hmax Hfirst.
  - simpl. rewrite app_nil_r. exists vbest. auto.
  - simpl.
    assert (Hlen : length (seen ++ [y]) = length seen + 1)
      by (rewrite length_app; reflexivity).
    assert (Hblt : best < length seen) by (apply nth_error_Some; congruence).
    replace (seen ++ y :: l) with ((seen ++ [y]) ++ l)
      by (rewrite <- app_assoc; reflexivity).
    rewrite <- Hlen.
    destruct (ltb vbest y) eqn:Hlt.
    + apply IH.
      * rewrite nth_error_app2 by lia. now rewrite Nat.sub_diag.
      * intros j x Hx.
        destruct (Nat.lt_ge_cases j (length seen)) as [Hj|Hj].
        -- rewrite nth_error_app1 in Hx by exact Hj.
           pose proof (Hmax j x Hx) as Hvx.
           destruct (ltb y x) eqn:Hyx; [|reflexivity].
           rewrite (ltb_trans Hlt Hyx) in Hvx. discriminate.
        -- rewrite nth_error_app2 in Hx by exact Hj.
           destruct (j - length seen) as [|k]; simpl in Hx.
           ++ injection Hx as <-. apply ltb_irrefl.
           ++ destruct k; discriminate.
      * intros j x Hj Hx. rewrite nth_error_app1 in Hx by exact Hj.
        pose proof (Hmax j x Hx) as Hvx.
        destruct (ltb_cotrans x Hlt) as [H1|H1]; [congruence | exact H1].
    + apply IH.
      * rewrite nth_error_app1 by exact Hblt. exact Hb.
      * intros j x Hx.
        destruct (Nat.lt_ge_cases j (length seen)) as [Hj|Hj].
        -- rewrite nth_error_app1 in Hx by exact Hj. eapply Hmax; eauto.
        -- rewrite nth_error_app2 in Hx by exact Hj.
           destruct (j - length seen) as [|k]; simpl in Hx.
           ++ injection Hx as <-. exact Hlt.
           ++ destruct k; discriminate.
      * intros j x Hj Hx. rewrite nth_error_app1 in Hx by lia.
        eapply Hfirst; eauto.
Qed.

Lemma argmax_row_spec (l : list S) i :
  argmax_row ltb l = Ok i ->
  exists v,
    nth_error l i = Some v
    /\ (forall j x, nth_error l j = Some x -> ltb v x = false)
    /\ (forall j x, j < i -> nth_error l j = Some x -> ltb x v = true).
Proof.
  destruct l as [|x0 l]; simpl; [discriminate|]. intros [= <-].
  apply (@argmax_from_spec l [x0] 0 x0).
  - reflexivity.
  - intros [|[|j]] x Hx; simpl in Hx; try discriminate.
    injection Hx as <-. apply ltb_irrefl.
  - intros j x Hj. lia.
Qed.
End ArgmaxOrder.

Lemma nth_error_firstn_Some {A} (l : list A) n j x :
  nth_error (firstn n l) j = Some x <-> j < n /\ nth_error l j = Some x.
Proof.
  rewrite nth_error_firstn. destruct (j <? n) eqn:E.
  - apply Nat.ltb_lt in E. tauto.
  - apply Nat.ltb_ge in E. split; [discriminate|]. intros [Hj _]. lia.
Qed.

Lemma length_chunks {A} n k (l : list A) : length (chunks n k l) = k.
Proof. revert l. induction k as [|k IH]; intros l; simpl; auto. Qed.

Lemma chunks_nth {A} n k (l : list A) p :
  p < k -> nth_error (chunks n k l) p = Some (firstn n (skipn (p * n) l)).
Proof.
  revert l p. induction k as [|k IH]; intros l p Hp; [lia|].
  destruct p as [|p]; simpl; [reflexivity|].
  rewrite IH by lia. rewrite skipn_skipn. do 3 f_equal. lia.
Qed.

Lemma chunks_concat {A} n (rows : list (list A)) :
  Forall (fun r => length r = n) rows ->
  chunks n (length rows) (concat rows) = rows.
Proof.
  induction 1 as [|r rows Hr _ IH]; [reflexivity|].
  cbn [length chunks concat]. subst n.
  rewrite firstn_app, Nat.sub_diag, firstn_all, firstn_O, app_nil_r.
  rewrite skipn_app, Nat.sub_diag, skipn_all, skipn_O. simpl. now rewrite IH.
Qed.

Lemma chunks_exact {A} n k (l : list A) :
  length l = k * n -> Forall (fun c => length c = n) (chunks n k l).
Proof.
  revert l. induction k as [|k IH]; intros l Hl; simpl; constructor.
  - rewrite length_firstn. simpl in Hl. lia.
  - apply IH. rewrite length_skipn. simpl in Hl. lia.
Qed.

Lemma length_concat_uniform {A} n (rows : list (list A)) :
  Forall (fun r => length r = n) rows ->
  length (concat rows) = length rows * n.
Proof.
  induction 1 as [|r rows Hr _ IH]; [reflexivity|].
  simpl. rewrite length_app, IH. lia.
Qed.

Section Predictions.
Context `{SC : Scorer} `{EM : EvalModel}.

(** The index that [argmax_row] gives for a row with an element. *)
Let pick (c : list Score) : nat :=
  match c with
  | [] => 0
  | x :: c' => argmax_from score_ltb 0 x 1 c'
  end.

Lemma argmax_row_pick (c : list Score) :
  c <> [] -> argmax_row score_ltb c = Ok (pick c).
Proof. destruct c; [congruence | reflexivity]. Qed.

(** The reshape and the arg-max of the NER logits, on rows of one
    length. *)
Lemma predict_ner_run (tr : Trainer) (output : tensor2 Score) :
  wf2 output ->
  let n_ic := model_num_labels_IC tr in
  let L := model_max_length tr in
  let n := model_num_labels_NER tr in
  let size := length (t_rows output) * (t_ncols output - n_ic) in
  L * n <> 0 -> size mod (L * n) = 0 ->
  predict_ner tr output
  = Ok (mk_tensor2 L
          (map (fun m => map pick (chunks n L m))
               (chunks (L * n) (size / (L * n))
                       (concat (map (skipn n_ic) (t_rows output)))))).
Proof.
  intros Hwf n_ic L n size Hblock Hmod.
  assert (Hrows : Forall (fun r => length r = t_ncols output - n_ic)
                         (map (skipn n_ic) (t_rows output))).
  { apply Forall_map. eapply Forall_impl; [|exact Hwf].
    simpl. intros r Hr. rewrite length_skipn. now rewrite Hr. }
  assert (Hsize : length (concat (map (skipn n_ic) (t_rows output))) = size).
  { rewrite (length_concat_uniform Hrows), length_map. reflexivity. }
  unfold predict_ner, reshape3, slice_cols_from. cbn [t_rows].
  fold n_ic L n. rewrite Hsize.
  rewrite (proj2 (Nat.eqb_neq _ _) Hblock).
  rewrite (proj2 (Nat.eqb_eq _ _) Hmod). cbn [negb rbind].
  unfold argmax3.
  assert (Hn : n <> 0) by (intros E; apply Hblock; rewrite E; lia).
  assert (HL : L <> 0) by (intros E; apply Hblock; rewrite E; lia).
  set (blocks := chunks (L * n) (size / (L * n))
                        (concat (map (skipn n_ic) (t_rows output)))).
  assert (Hblocks : Forall (fun m => length m = L * n) blocks).
  { apply chunks_exact. rewrite Hsize.
    pose proof (Nat.div_mod size (L * n) Hblock) as Hd. rewrite Hmod in Hd. lia. }
  rewrite (rmapM_total (rmapM (argmax_row score_ltb)) (map pick)).
  - rewrite map_map. reflexivity.
  - intros m' Hm'. apply in_map_iff in Hm'. destruct Hm' as (m & <- & Hm).
    apply rmapM_total. intros c Hc. apply argmax_row_pick.
    rewrite Forall_forall in Hblocks.
    pose proof (@chunks_exact _ n L m ltac:(rewrite (Hblocks m Hm); lia)) as Hex.
    rewrite Forall_forall in Hex. specialize (Hex c Hc).
    destruct c; [simpl in Hex; lia | discriminate].
Qed.

(** X22.  The predicted IC label of an example is the position of the
    first largest logit among the first [num_labels['IC']] logits of its
    output row; the logits after them play no part.  (For an order on
    the logits that is a strict weak order.) *)
Theorem predict_ic_is_first_maximum
    (tr : Trainer) (output : tensor2 Score) (ic_output : list nat) :
  (forall a, score_ltb a a = false) ->
  (forall a b c, score_ltb a b = true -> score_ltb b c = true ->
                 score_ltb a c = true) ->
  (forall a b c, score_ltb a b = true ->
                 score_ltb a c = true \/ score_ltb c b = true) ->
  predict_ic tr output = Ok ic_output ->
  Forall2 (fun row i =>
             exists v,
               i < model_num_labels_IC tr
               /\ nth_error row i = Some v
               /\ (forall j x, j < model_num_labels_IC tr ->
                     nth_error row j = Some x -> score_ltb v x = false)
               /\ (forall j x, j < i ->
                     nth_error row j = Some x -> score_ltb x v = true))
          (t_rows output) ic_output.
Proof.
  intros Hirr Htr Hco Hrun. unfold predict_ic, argmax2, slice_cols_to in Hrun.
  cbn [t_ncols t_rows] in Hrun.
  destruct (_ =? 0); [discriminate|].
  apply rmapM_Forall2 in Hrun.
  remember (map (firstn (model_num_labels_IC tr)) (t_rows output)) as rows' eqn:E.
  revert E. generalize (t_rows output) as rows.
  induction Hrun as [|row' i rows' r Hi _ IH]; intros rows E.
  - destruct rows; [constructor | discriminate].
  - destruct rows as [|row rows]; [discriminate|].
    simpl in E. injection E as -> ->.
    constructor; [|now apply IH].
    destruct (argmax_row_spec score_ltb Hirr Htr Hco _ Hi) as (v & Hv & Hmax & Hfirst).
    apply nth_error_firstn_Some in Hv. destruct Hv as (Hlt & Hv).
    exists v. split; [exact Hlt|]. split; [exact Hv|]. split.
    + intros j x Hj Hx. apply (Hmax j). apply nth_error_firstn_Some. auto.
    + intros j x Hj Hx. apply (Hfirst j); [exact Hj|].
      apply nth_error_firstn_Some. split; [lia | exact Hx].
Qed.

(** X23.  When each output row holds the IC logits followed by
    [max_length] blocks of [num_labels['NER']] logits, the NER prediction
    has one row of [max_length] ids per example, and the id at position
    [p] of an example is the arg-max of the block of its row that starts
    at column [num_labels['IC'] + p * num_labels['NER']]. *)
Theorem predict_ner_layout (tr : Trainer) (output : tensor2 Score) :
  let n_ic := model_num_labels_IC tr in
  let L := model_max_length tr in
  let n := model_num_labels_NER tr in
  wf2 output ->
  t_ncols output = n_ic + L * n ->
  0 < L -> 0 < n ->
  exists t,
    predict_ner tr output = Ok t
    /\ t_ncols t = L
    /\ Forall2 (fun row ids =>
                  length ids = L
                  /\ forall p, p < L ->
                       exists i,
                         nth_error ids p = Some i
                         /\ argmax_row score_ltb
                              (firstn n (skipn (n_ic + p * n) row)) = Ok i)
               (t_rows output) (t_rows t).
Proof.
  intros n_ic L n Hwf Hcols HL Hn.
  assert (Hblock : L * n <> 0) by nia.
  assert (Hw : t_ncols output - n_ic = L * n) by lia.
  assert (Hmod : (length (t_rows output) * (t_ncols output - n_ic)) mod (L * n) = 0).
  { rewrite Hw. apply Nat.Div0.mod_mul. }
  eexists. split; [apply (predict_ner_run tr Hwf Hblock Hmod)|].
  fold n_ic L n. split; [reflexivity|]. cbn [t_rows].
  rewrite Hw, Nat.div_mul by exact Hblock.
  assert (Hrows : Forall (fun r => length r = L * n)
                         (map (skipn n_ic) (t_rows output))).
  { apply Forall_map. eapply Forall_impl; [|exact Hwf].
    simpl. intros r Hr. rewrite length_skipn. lia. }
  rewrite <- (length_map (skipn n_ic) (t_rows output)).
  rewrite (chunks_concat Hrows), map_map.
  clear Hmod Hrows. unfold wf2 in Hwf.
  induction Hwf as [|row rows Hrow _ IH]; simpl; constructor; [|exact IH].
  split; [now rewrite length_map, length_chunks|].
  intros p Hp. exists (pick (firstn n (skipn (n_ic + p * n) row))).
  split.
  - rewrite nth_error_map, (chunks_nth _ _ Hp). simpl.
    rewrite skipn_skipn.
    now replace (p * n + n_ic) with (n_ic + p * n) by lia.
  - apply argmax_row_pick. intros E. apply (f_equal (@length Score)) in E.
    rewrite length_firstn, length_skipn, Hrow, Hcols in E. simpl in E.
    assert (Hle : S p * n <= L * n) by (apply Nat.mul_le_mono_r; lia).
    simpl in Hle. lia.
Qed.

(** X24.  The reshape of the NER logits checks the total number of
    logits only: it raises [RuntimeError] when [max_length *
    num_labels['NER']] is zero or does not divide that number, and
    otherwise returns as many rows of [max_length] ids as there are full
    blocks, which need not be the number of examples. *)
Theorem predict_ner_reshape (tr : Trainer) (output : tensor2 Score) :
  let block := model_max_length tr * model_num_labels_NER tr in
  let size := length (t_rows output)
              * (t_ncols output - model_num_labels_IC tr) in
  wf2 output ->
  (block = 0 \/ size mod block <> 0 -> predict_ner tr output = Err RuntimeError)
  /\ (block <> 0 -> size mod block = 0 ->
      exists t,
        predict_ner tr output = Ok t
        /\ t_ncols t = model_max_length tr
        /\ length (t_rows t) = size / block
        /\ Forall (fun ids => length ids = model_max_length tr) (t_rows t)).
Proof.
  intros block size Hwf. split.
  - intros Hbad.
    assert (Hrows : Forall (fun r => length r
                                     = t_ncols output - model_num_labels_IC tr)
                           (map (skipn (model_num_labels_IC tr)) (t_rows output))).
    { apply Forall_map. eapply Forall_impl; [|exact Hwf].
      simpl. intros r Hr. rewrite length_skipn. now rewrite Hr. }
    unfold predict_ner, reshape3, slice_cols_from. cbn [t_rows].
    rewrite (length_concat_uniform Hrows), length_map.
    fold size. fold block.
    destruct (block =? 0) eqn:E0; [reflexivity|].
    apply Nat.eqb_neq in E0.
    destruct Hbad as [Hb|Hm]; [contradiction|].
    rewrite (proj2 (Nat.eqb_neq _ _) Hm). reflexivity.
  - intros Hblock Hmod. eexists.
    split; [apply (predict_ner_run tr Hwf Hblock Hmod)|].
    split; [reflexivity|]. cbn [t_rows]. split.
    + now rewrite length_map, length_chunks.
    + apply Forall_map. apply Forall_forall. intros m _.
      now rewrite length_map, length_chunks.
Qed.
End Predictions.


Lemma NoDup_tags3 : NoDup SymRun.tags3.
Proof.
  repeat constructor; simpl; intros Hin;
    repeat (destruct Hin as [Hin|Hin]; [discriminate|]); exact Hin.
Qed.

Lemma tags3_nonempty : SymRun.tags3 <> [].
Proof. discriminate. Qed.


Lemma C1_attention_stage_is_left_fold_witness :
  exists upd ner_output last_ner h' logits,
    IC2NER_forward SymRun.cascade3 1 SymRun.heap3 = Ok ((ner_output, last_ner), h')
    /\ length upd = 3
    /\ nth_error upd 0 = Some (Sym.Var "c")
    /\ nth_error upd 2 = Some last_ner
    /\ nth_error h' ner_output = Some logits
    /\ dict_keys logits = SymRun.tags3.
Proof.
  destruct (@C1_attention_stage_is_left_fold _ _ Sym.init SymRun.tags3
              SymRun.num_labels3 4 16 4 SymRun.cascade3
              SymRun.heap3 1 SymRun.formatted3 (Sym.Var "ic") 0 SymRun.levels3
              [Sym.Var "c"; Sym.Var "m"; Sym.Var "f"]
              eq_refl NoDup_tags3 tags3_nonempty
              eq_refl eq_refl eq_refl eq_refl
              ltac:(repeat constructor))
    as (upd & ner_output & last_ner & h' & logits & Hrun & Hlen & H0 & _ & Hlast
        & Hout & Hkeys & _).
  exists upd, ner_output, last_ner, h', logits.
  repeat split; assumption.
Defined.

(** C7, on the cascade for three levels run on symbolic tensors: after the
    call the caller's level dictionary (location 0, reached from the
    dictionary that was passed) holds attention outputs at the second and
    third level.  The dictionary that was passed (location 1) is as
    before. *)
Lemma C7_caller_level_dictionary_is_overwritten :
  exists (r : loc * Sym.term) (h' : @heap Sym.torch),
    IC2NER_forward SymRun.cascade3 1 SymRun.heap3 = Ok (r, h')
    /\ nth_error SymRun.heap3 0 = Some SymRun.levels3
    /\ nth_error h' 0 = Some SymRun.levels3_after
    /\ nth_error h' 0 <> nth_error SymRun.heap3 0
    /\ nth_error h' 1 = nth_error SymRun.heap3 1.
Proof.
  eexists. eexists. split; [vm_compute; reflexivity|].
  repeat split; try reflexivity. discriminate.
Qed.

Lemma C9_hierarchy_order_is_key_order_witness :
  exists model,
    @MT_IC_HNER_Model_init _ _ Sym.transformers Sym.init "backbone"
      SymRun.num_labels3 16 4 tt tt = Ok model
    /\ m_tags model = SymRun.tags3
    /\ i2n_tags (m_ic2ner model) = SymRun.tags3
    /\ dict_keys (i2n_attn (m_ic2ner model)) = ["coarse"; "mid"].
Proof.
  eexists. split; [reflexivity|].
  destruct (@C9_hierarchy_order_is_key_order _ _ Sym.transformers Sym.init "backbone"
              SymRun.num_labels3 16 4 tt tt _ eq_refl NoDup_tags3)
    as (_ & Ht & _ & _ & Hi & _ & Ha & _).
  repeat split; assumption.
Defined.


(* ================================================================== *)
(** * The cascade and the model on symbolic tensors                     *)
(* ================================================================== *)

Lemma IC2NER_init_missing_label_count_witness :
  IC2NER_init Sym.init ["coarse"; "span"] SymRun.num_labels3 4 16 4
  = Err KeyError.
Proof.
  apply (@IC2NER_init_missing_label_count _ _ Sym.init ["coarse"; "span"]
           SymRun.num_labels3 4 16 4 "span").
  - simpl. tauto.
  - reflexivity.
Defined.

Lemma MT_IC_HNER_Model_forward_empty_hierarchy_witness :
  exists model,
    @MT_IC_HNER_Model_init _ _ Sym.transformers Sym.init "backbone"
      SymRun.num_labels0 16 4 tt tt = Ok model
    /\ MT_IC_HNER_Model_forward model
         SymRun.input3 []
       = Err IndexError.
Proof.
  eexists. split; [reflexivity|].
  apply (@MT_IC_HNER_Model_forward_empty_hierarchy _ _ Sym.transformers Sym.init
           "backbone" SymRun.num_labels0 16 4 tt tt _
           eq_refl eq_refl).
Defined.

Lemma IC2NER_forward_footprint_witness :
  exists (r : loc * Sym.term) (h' : @heap Sym.torch) (d' : @obj Sym.torch),
    IC2NER_forward SymRun.cascade3 1 SymRun.heap3 = Ok (r, h')
    /\ length h' = 5
    /\ nth_error h' 1 = Some SymRun.formatted3
    /\ nth_error h' 0 = Some d'
    /\ dict_keys d' = SymRun.tags3
    /\ dict_get d' "coarse" = Some (@VTensor Sym.torch (Sym.Var "c")).
Proof.
  destruct (@IC2NER_forward_footprint _ _ Sym.init SymRun.tags3
              SymRun.num_labels3 4 16 4 SymRun.cascade3
              SymRun.heap3 1 SymRun.formatted3 (Sym.Var "ic") 0 SymRun.levels3
              [Sym.Var "c"; Sym.Var "m"; Sym.Var "f"]
              eq_refl NoDup_tags3 tags3_nonempty
              eq_refl eq_refl eq_refl eq_refl
              ltac:(repeat constructor))
    as (r & h' & d' & Hrun & Hlen & Hframe & Hd & Hkeys & Hfix).
  exists r, h', d'.
  split; [exact Hrun|]. split; [exact Hlen|].
  split; [apply (Hframe 1); [simpl; lia | discriminate]|].
  split; [exact Hd|]. split; [exact Hkeys|].
  rewrite Hfix; [reflexivity|].
  simpl. intros [Hm|[Hf|[]]]; discriminate.
Defined.

Lemma IC2NER_forward_second_call_reads_first_outputs_witness :
  exists (out1 : loc) (last1 : Sym.term) (h1 : @heap Sym.torch)
         (out2 : loc) (last2 : Sym.term) (h2 : @heap Sym.torch)
         (d2 : @obj Sym.torch),
    IC2NER_forward SymRun.cascade3 1 SymRun.heap3 = Ok ((out1, last1), h1)
    /\ IC2NER_forward SymRun.cascade3 1 h1 = Ok ((out2, last2), h2)
    /\ last1 = Sym.AttnOut 1 (Sym.AttnOut 0 (Sym.Var "c") (Sym.Var "m") (Sym.Var "m"))
                 (Sym.Var "f") (Sym.Var "f")
    /\ last2 = Sym.AttnOut 1
                 (Sym.AttnOut 0 (Sym.Var "c")
                    (Sym.AttnOut 0 (Sym.Var "c") (Sym.Var "m") (Sym.Var "m"))
                    (Sym.AttnOut 0 (Sym.Var "c") (Sym.Var "m") (Sym.Var "m")))
                 last1 last1
    /\ nth_error h2 0 = Some d2
    /\ dict_get d2 "fine" = Some (@VTensor Sym.torch last2).
Proof.
  destruct (@IC2NER_forward_second_call_reads_first_outputs _ _ Sym.init
              SymRun.tags3 SymRun.num_labels3 4 16 4 SymRun.cascade3
              SymRun.heap3 1 SymRun.formatted3 (Sym.Var "ic") 0 SymRun.levels3
              [Sym.Var "c"; Sym.Var "m"; Sym.Var "f"]
              eq_refl NoDup_tags3 tags3_nonempty ltac:(discriminate)
              eq_refl eq_refl eq_refl eq_refl
              ltac:(repeat constructor))
    as (out1 & last1 & h1 & out2 & last2 & h2 & d2
        & Hrun1 & Hrun2 & Hl1 & Hl2 & Hd2 & Hupd).
  exists out1, last1, h1, out2, last2, h2, d2.
  simpl in Hl1, Hl2. injection Hl1 as Hl1. injection Hl2 as Hl2.
  split; [exact Hrun1|]. split; [exact Hrun2|].
  split; [now symmetry|]. split; [subst last1; now symmetry|].
  split; [exact Hd2|].
  destruct (@Forall2_nth_l _ _ _ _ _ 2 "fine" Hupd eq_refl) as (u & Hu & Hg).
  simpl in Hu. rewrite Hg. congruence.
Defined.

Lemma IC2NER_forward_single_level_witness :
  exists (self : @IC2NER Sym.torch Sym.attention) (input : @obj Sym.torch),
    IC2NER_init Sym.init ["coarse"] SymRun.num_labels3 4 16 4 = Ok self
    /\ IC2NER_forward self 1 SymRun.heap3
       = Ok ((4, Sym.Var "c"),
             SymRun.heap3
             ++ [input;
                 [("coarse", @VTensor Sym.torch (Sym.Lin 2 0 (Sym.Transpose (Sym.Var "ic"))))];
                 [("coarse", @VTensor Sym.torch (Sym.Matmul (Sym.Var "c")
                                        (Sym.Lin 2 0 (Sym.Transpose (Sym.Var "ic")))))]]).
Proof.
  destruct (@IC2NER_forward_single_level _ _ Sym.init "coarse" SymRun.num_labels3
              4 16 4 _ SymRun.heap3 1 SymRun.formatted3 (Sym.Var "ic") 0
              SymRun.levels3 (Sym.Var "c")
              eq_refl eq_refl eq_refl eq_refl eq_refl eq_refl)
    as (lin & input & Hlin & _ & Hrun).
  eexists. exists input. split; [reflexivity|].
  simpl in Hlin. injection Hlin as <-. exact Hrun.
Defined.

Lemma MT_IC_HNER_Model_forward_only_allocates_witness :
  exists (model : @MT_IC_HNER_Model Sym.torch Sym.attention Sym.transformers)
         (new : @heap Sym.torch),
    @MT_IC_HNER_Model_init _ _ Sym.transformers Sym.init "backbone"
      SymRun.num_labels3 16 4 tt tt = Ok model
    /\ MT_IC_HNER_Model_forward model
         SymRun.input3 SymRun.heap3
       = Ok (7, SymRun.heap3 ++ new)
    /\ length new = 6.
Proof.
  destruct (@MT_IC_HNER_Model_forward_only_allocates _ _ Sym.transformers Sym.init
              "backbone" SymRun.num_labels3 16 4 tt tt _ eq_refl NoDup_tags3
              ltac:(discriminate)
              SymRun.input3 SymRun.heap3)
    as (new & Hrun & Hlen).
  eexists. exists new. split; [reflexivity|]. split; [exact Hrun | exact Hlen].
Defined.

Lemma IC2NER_forward_missing_IC_witness :
  IC2NER_forward SymRun.cascade3 1 SymRun.heap_no_IC
  = Err KeyError.
Proof.
  apply (@IC2NER_forward_missing_IC _ _ Sym.init SymRun.tags3 SymRun.num_labels3
           4 16 4 SymRun.cascade3 eq_refl NoDup_tags3
           SymRun.heap_no_IC 1 [("H_NER", VDict 0)]
           tags3_nonempty eq_refl eq_refl).
Defined.

Lemma IC2NER_forward_missing_level_witness :
  IC2NER_forward SymRun.cascade3 1
    SymRun.heap_no_mid
  = Err KeyError.
Proof.
  apply (@IC2NER_forward_missing_level _ _ Sym.init SymRun.tags3 SymRun.num_labels3
           4 16 4 SymRun.cascade3 eq_refl NoDup_tags3
           SymRun.heap_no_mid
           1 SymRun.formatted3 (Sym.Var "ic") 0
           SymRun.levels_no_mid
           1 "mid" [Sym.Var "c"]
           eq_refl eq_refl eq_refl eq_refl eq_refl eq_refl
           ltac:(repeat constructor)).
Defined.


(* ================================================================== *)
(** * The inference pass on the small evaluation set                    *)
(* ================================================================== *)

Import QMetrics.




(** The hypothesis of C5 is needed: the evaluator never switches the model
    to evaluation mode, and with a model whose calls advance its state a
    second evaluation from the state the first one left returns other
    values. *)
Example evaluate_metrics_depends_on_model_state :
  let first := @evaluate_metrics QMetrics.sklearn QMetrics.scorer
                 QMetrics.dropout_model EvalRun.trainer
                 [EvalRun.batch_a_dropout] ["en"; "en"] 0 in
  let second := @evaluate_metrics QMetrics.sklearn QMetrics.scorer
                  QMetrics.dropout_model EvalRun.trainer
                  [EvalRun.batch_a_dropout] ["en"; "en"] (snd first) in
  fst first = Ok (EvalRun.all_right, [("en", EvalRun.all_right)])
  /\ fst second = Ok (EvalRun.after_dropout, [("en", EvalRun.after_dropout)]).
Proof. split; vm_compute; reflexivity. Qed.




(** A batch of one example makes the stacked IC labels impossible to
    concatenate: the evaluation aborts. *)
Example single_example_batch_aborts :
  fst (evaluate_metrics EvalRun.trainer [EvalRun.batch_a; EvalRun.batch_single]
         ["en"; "en"; "fr"] tt)
  = Err ValueError.
Proof. vm_compute. reflexivity. Qed.


Import QMetrics.

(* ================================================================== *)
(** * Aggregation on the small evaluation set                           *)
(* ================================================================== *)

Lemma token_scorer_order_independent :
  @scorer_order_independent QMetrics.sklearn QMetrics.scorer.
Proof.
  intros rows rows' Hp. simpl. unfold QMetrics.token_scorer, QMetrics.tokens.
  rewrite !combine_map_same.
  assert (Hid : forall l : list (list pyobj * list pyobj),
             map (fun x => (fst x, snd x)) l = l).
  { intros l. rewrite <- (map_id l) at 2. apply map_ext. now intros [a b]. }
  rewrite !Hid.
  pose proof (Permutation_concat_map (fun pg => combine (fst pg) (snd pg)) Hp) as Ht.
  now rewrite !(Permutation_length (Permutation_filter' _ Ht)).
Qed.

Lemma C4_aligned_reordering_preserves_metrics_witness :
  fst (evaluate_metrics EvalRun.trainer
         (map fst [(EvalRun.batch_b, ["fr"; "fr"]); (EvalRun.batch_a, ["en"; "en"])])
         (concat (map snd [(EvalRun.batch_b, ["fr"; "fr"]);
                           (EvalRun.batch_a, ["en"; "en"])])) tt)
  = Ok (EvalRun.ic_half, [("en", EvalRun.all_right); ("fr", EvalRun.ic_wrong)]).
Proof.
  apply (@C4_aligned_reordering_preserves_metrics QMetrics.sklearn QMetrics.scorer
           QMetrics.table_model EvalRun.trainer
           [(EvalRun.batch_a, ["en"; "en"]); (EvalRun.batch_b, ["fr"; "fr"])]
           [(EvalRun.batch_b, ["fr"; "fr"]); (EvalRun.batch_a, ["en"; "en"])]
           tt).
  - intros s l f. reflexivity.
  - exact token_scorer_order_independent.
  - apply perm_swap.
  - intros b ls st [Hin|[Hin|[]]] Hst; injection Hin as <- <-;
      vm_compute in Hst; injection Hst as <-;
      unfold aligned; simpl; do 4 eexists; repeat split; reflexivity.
  - vm_compute. reflexivity.
Defined.

(** C4 as stated fails: with the language array left as it is, swapping
    the two batches swaps the per-language records (the global record is
    the same). *)
Lemma C4_fixed_language_array_counterexample :
  fst (evaluate_metrics EvalRun.trainer [EvalRun.batch_a; EvalRun.batch_b]
         EvalRun.languages tt)
  = Ok (EvalRun.ic_half, [("en", EvalRun.all_right); ("fr", EvalRun.ic_wrong)])
  /\ fst (evaluate_metrics EvalRun.trainer [EvalRun.batch_b; EvalRun.batch_a]
            EvalRun.languages tt)
     = Ok (EvalRun.ic_half, [("en", EvalRun.ic_wrong); ("fr", EvalRun.all_right)])
  /\ ~ (forall (tr : Trainer) (val_dtl val_dtl' : list (@Batch QMetrics.table_model))
               (la : list string),
          Permutation val_dtl val_dtl' ->
          fst (evaluate_metrics tr val_dtl la tt)
          = fst (evaluate_metrics tr val_dtl' la tt)).
Proof.
  assert (H1 : fst (evaluate_metrics EvalRun.trainer
                      [EvalRun.batch_a; EvalRun.batch_b] EvalRun.languages tt)
               = Ok (EvalRun.ic_half,
                     [("en", EvalRun.all_right); ("fr", EvalRun.ic_wrong)]))
    by (vm_compute; reflexivity).
  assert (H2 : fst (evaluate_metrics EvalRun.trainer
                      [EvalRun.batch_b; EvalRun.batch_a] EvalRun.languages tt)
               = Ok (EvalRun.ic_half,
                     [("en", EvalRun.ic_wrong); ("fr", EvalRun.all_right)]))
    by (vm_compute; reflexivity).
  split; [exact H1|]. split; [exact H2|].
  intros Hclaim.
  pose proof (Hclaim EvalRun.trainer [EvalRun.batch_a; EvalRun.batch_b]
                [EvalRun.batch_b; EvalRun.batch_a] EvalRun.languages
                (perm_swap _ _ _)) as E.
  rewrite H1, H2 in E. discriminate E.
Qed.

Lemma C6_per_language_partition_witness :
  dict_keys [("en", EvalRun.all_right); ("fr", EvalRun.ic_wrong)]
  = unique String.ltb EvalRun.languages
  /\ lang_examples EvalRun.languages "en" = [0; 1]
  /\ lang_examples EvalRun.languages "fr" = [2; 3].
Proof.
  destruct (@C6_per_language_partition QMetrics.sklearn QMetrics.scorer
              QMetrics.table_model EvalRun.trainer
              [EvalRun.batch_a; EvalRun.batch_b] EvalRun.languages tt
              EvalRun.ic_half
              [("en", EvalRun.all_right); ("fr", EvalRun.ic_wrong)])
    as (stacked & icl & ico & gold & pred & _ & _ & _ & _ & _ & _ & _ & _ & _
        & Hkeys & _).
  - vm_compute. reflexivity.
  - discriminate.
  - split; [exact Hkeys|]. split; reflexivity.
Defined.


(* ================================================================== *)
(** * The tag table and the evaluator on the small evaluation set       *)
(* ================================================================== *)

Import QMetrics.

Lemma ner2idx_ids_distinct :
  forall k k' v,
    dict_get (eval_dataset_ner2idx EvalRun.trainer) k = Some v ->
    dict_get (eval_dataset_ner2idx EvalRun.trainer) k' = Some v -> k = k'.
Proof.
  intros k k' v Hk Hk'.
  apply dict_get_Some_In in Hk. apply dict_get_Some_In in Hk'.
  destruct Hk as [Hk|[Hk|[]]]; destruct Hk' as [Hk'|[Hk'|[]]]; congruence.
Qed.

Lemma ner2idx_wf : dict_wf (eval_dataset_ner2idx EvalRun.trainer).
Proof.
  repeat constructor; simpl; intros Hin;
    repeat (destruct Hin as [Hin|Hin]; [discriminate|]); exact Hin.
Qed.

Lemma dict_invert_round_trip_witness :
  dict_get (dict_invert (eval_dataset_ner2idx EvalRun.trainer)) 1%Z = Some "B-x"
  /\ dict_get (eval_dataset_ner2idx EvalRun.trainer) "B-x" = Some 1%Z.
Proof.
  split; [|reflexivity].
  apply (proj2 (@dict_invert_round_trip _ _ _ _ (eval_dataset_ner2idx EvalRun.trainer)
                  ner2idx_wf ner2idx_ids_distinct "B-x" 1%Z)).
  reflexivity.
Defined.

Lemma dict_invert_keeps_last_key_witness :
  dict_get (dict_invert EvalRun.ner2idx_shared) 1%Z = Some "I-x"
  /\ dict_get (dict_invert EvalRun.ner2idx_shared) 1%Z <> Some "B-x".
Proof.
  destruct (@dict_invert_keeps_last_key _ _ _
              [("O", 0%Z); ("B-x", 1%Z)] [] "I-x" 1%Z
              ltac:(intros k' [])) as (Hlast & Hnot).
  split; [exact Hlast|]. apply Hnot. discriminate.
Defined.

Lemma vectorize_get_decodes_encoded_tags_witness :
  vectorize_get (dict_invert (eval_dataset_ner2idx EvalRun.trainer))
    (mk_tensor2 2 [[0; 1]; [1; 0]]%Z)
  = Ok (mk_tensor2 2 [[PStr "O"; PStr "B-x"]; [PStr "B-x"; PStr "O"]]).
Proof.
  apply (@vectorize_get_decodes_encoded_tags
           (eval_dataset_ner2idx EvalRun.trainer)
           (mk_tensor2 2 [[0; 1]; [1; 0]]%Z)
           [["O"; "B-x"]; ["B-x"; "O"]]
           ner2idx_wf ner2idx_ids_distinct).
  - repeat constructor.
  - discriminate.
Defined.

Lemma evaluate_metrics_calls_model_once_per_batch_witness :
  snd (@evaluate_metrics QMetrics.sklearn QMetrics.scorer QMetrics.dropout_model
         EvalRun.trainer [EvalRun.batch_a_dropout; EvalRun.batch_a_dropout]
         ["en"; "en"; "fr"; "fr"] 0)
  = 2.
Proof.
  destruct (@evaluate_metrics_calls_model_once_per_batch
              QMetrics.sklearn QMetrics.scorer QMetrics.dropout_model
              EvalRun.trainer [EvalRun.batch_a_dropout; EvalRun.batch_a_dropout]
              ["en"; "en"; "fr"; "fr"] 0 _ eq_refl) as (Hstate & _).
  exact Hstate.
Defined.


Lemma evaluate_metrics_global_ignores_language_arr_witness :
  evaluate_metrics EvalRun.trainer [EvalRun.batch_a; EvalRun.batch_b] [] tt
  = (Ok (EvalRun.ic_half, []),
     snd (evaluate_metrics EvalRun.trainer [EvalRun.batch_a; EvalRun.batch_b]
            EvalRun.languages tt)).
Proof.
  apply (@evaluate_metrics_global_ignores_language_arr
           QMetrics.sklearn QMetrics.scorer QMetrics.table_model
           EvalRun.trainer [EvalRun.batch_a; EvalRun.batch_b] EvalRun.languages tt
           EvalRun.ic_half [("en", EvalRun.all_right); ("fr", EvalRun.ic_wrong)]).
  vm_compute. reflexivity.
Defined.

Lemma evaluate_metrics_language_length_mismatch_witness :
  fst (evaluate_metrics EvalRun.trainer [EvalRun.batch_a; EvalRun.batch_b]
         ["en"; "fr"; "en"] tt)
  = Err IndexError.
Proof.
  apply (@evaluate_metrics_language_length_mismatch
           QMetrics.sklearn QMetrics.scorer QMetrics.table_model
           EvalRun.trainer [EvalRun.batch_a; EvalRun.batch_b]
           EvalRun.languages ["en"; "fr"; "en"] tt
           (EvalRun.ic_half, [("en", EvalRun.all_right); ("fr", EvalRun.ic_wrong)])).
  - vm_compute. reflexivity.
  - discriminate.
  - discriminate.
  - simpl. lia.
Defined.

Lemma evaluate_metrics_single_language_witness :
  exists g lm,
    fst (evaluate_metrics EvalRun.trainer [EvalRun.batch_a; EvalRun.batch_b]
           ["en"; "en"; "en"; "en"] tt) = Ok (g, lm)
    /\ g = EvalRun.ic_half
    /\ lm = [("en", g)].
Proof.
  assert (Hrun : fst (evaluate_metrics EvalRun.trainer
                        [EvalRun.batch_a; EvalRun.batch_b]
                        ["en"; "en"; "en"; "en"] tt)
                 = Ok (EvalRun.ic_half, [("en", EvalRun.ic_half)]))
    by (vm_compute; reflexivity).
  exists EvalRun.ic_half, [("en", EvalRun.ic_half)].
  split; [exact Hrun|]. split; [reflexivity|].
  apply (@evaluate_metrics_single_language
           QMetrics.sklearn QMetrics.scorer QMetrics.table_model
           EvalRun.trainer [EvalRun.batch_a; EvalRun.batch_b]
           ["en"; "en"; "en"; "en"] "en" tt EvalRun.ic_half
           [("en", EvalRun.ic_half)]).
  - discriminate.
  - repeat constructor.
  - exact Hrun.
Defined.

Lemma evaluate_metrics_single_example_batch_witness :
  exists e,
    fst (evaluate_metrics EvalRun.trainer [EvalRun.batch_a; EvalRun.batch_single]
           ["en"; "en"; "fr"] tt) = Err e.
Proof.
  apply (@evaluate_metrics_single_example_batch
           QMetrics.sklearn QMetrics.scorer QMetrics.table_model
           EvalRun.trainer [EvalRun.batch_a; EvalRun.batch_single]
           ["en"; "en"; "fr"] tt EvalRun.batch_single [0; 0; 1]%Z).
  - simpl. tauto.
  - repeat constructor.
  - simpl. lia.
  - reflexivity.
Defined.

Lemma stack_batch_without_ner_labels_witness :
  fst (stack_batch EvalRun.trainer
         (dict_invert (eval_dataset_ner2idx EvalRun.trainer))
         EvalRun.batch_no_ner tt)
  = Err ValueError.
Proof.
  apply (@stack_batch_without_ner_labels QMetrics.table_model EvalRun.trainer
           (dict_invert (eval_dataset_ner2idx EvalRun.trainer))
           EvalRun.batch_no_ner tt [0; 0] (mk_tensor2 2 [[0; 1]; [1; 0]])).
  - reflexivity.
  - reflexivity.
  - repeat constructor.
  - left. simpl. lia.
Defined.

Lemma predict_ic_is_first_maximum_witness :
  Forall2 (fun row i =>
             exists v,
               i < 2
               /\ nth_error row i = Some v
               /\ (forall j x, j < 2 -> nth_error row j = Some x -> Z.ltb v x = false)
               /\ (forall j x, j < i -> nth_error row j = Some x -> Z.ltb x v = true))
          (t_rows EvalRun.logits) [0; 0].
Proof.
  apply (@predict_ic_is_first_maximum QMetrics.table_model EvalRun.trainer
           EvalRun.logits [0; 0]).
  - intros a. apply Z.ltb_irrefl.
  - intros a b c. simpl. rewrite !Z.ltb_lt. lia.
  - intros a b c. simpl. rewrite !Z.ltb_lt. lia.
  - reflexivity.
Defined.

Lemma predict_ner_layout_witness :
  exists t,
    predict_ner EvalRun.trainer EvalRun.logits = Ok t
    /\ t_ncols t = 2
    /\ t_rows t = [[0; 1]; [1; 0]].
Proof.
  destruct (@predict_ner_layout QMetrics.table_model EvalRun.trainer EvalRun.logits)
    as (t & Hrun & Hcols & _).
  - repeat constructor.
  - reflexivity.
  - simpl. lia.
  - simpl. lia.
  - exists t. split; [exact Hrun|]. split; [exact Hcols|].
    vm_compute in Hrun. now injection Hrun as <-.
Defined.

Lemma predict_ner_reshape_witness :
  (exists t,
     predict_ner EvalRun.trainer EvalRun.logits_short = Ok t
     /\ length (t_rows EvalRun.logits_short) = 2
     /\ length (t_rows t) = 1)
  /\ predict_ner EvalRun.trainer (mk_tensor2 3 [[5; 1; 3]; [5; 1; 1]]%Z)
     = Err RuntimeError.
Proof.
  split.
  - destruct (@predict_ner_reshape QMetrics.table_model EvalRun.trainer
                EvalRun.logits_short ltac:(repeat constructor)) as (_ & Hok).
    destruct (Hok ltac:(discriminate) eq_refl) as (t & Hrun & _ & Hlen & _).
    exists t. split; [exact Hrun|]. split; [reflexivity | exact Hlen].
  - destruct (@predict_ner_reshape QMetrics.table_model EvalRun.trainer
                (mk_tensor2 3 [[5; 1; 3]; [5; 1; 1]]%Z)
                ltac:(repeat constructor)) as (Herr & _).
    apply Herr. right. discriminate.
Defined.

Lemma evaluate_metrics_language_arr_length_witness :
  length EvalRun.languages
  = list_sum (map (fun b : @Batch QMetrics.table_model => length (t_rows (labels b)))
                  [EvalRun.batch_a; EvalRun.batch_b]).
Proof.
  apply (@evaluate_metrics_language_arr_length
           QMetrics.sklearn QMetrics.scorer QMetrics.table_model
           EvalRun.trainer [EvalRun.batch_a; EvalRun.batch_b] EvalRun.languages tt
           (EvalRun.ic_half, [("en", EvalRun.all_right); ("fr", EvalRun.ic_wrong)])).
  - vm_compute. reflexivity.
  - discriminate.
  - repeat constructor; simpl; lia.
Defined.

Lemma evaluate_metrics_label_width_witness :
  t_ncols (labels EvalRun.batch_a) = t_ncols (labels EvalRun.batch_b).
Proof.
  apply (@evaluate_metrics_label_width
           QMetrics.sklearn QMetrics.scorer QMetrics.table_model
           EvalRun.trainer [EvalRun.batch_a; EvalRun.batch_b] EvalRun.languages tt
           (EvalRun.ic_half, [("en", EvalRun.all_right); ("fr", EvalRun.ic_wrong)])).
  - vm_compute. reflexivity.
  - simpl. tauto.
  - simpl. tauto.
  - simpl. lia.
  - simpl. lia.
Defined.
